(** * Gemini video call: wire codec, playback scheduler, transcript
      accumulator and teardown of [src/App.tsx].

    The development embeds the TypeScript source as executable Rocq
    definitions and proves properties of them.

    Conventions of the embedding.
    - A JavaScript string is a [string]: every code unit the codec handles is
      below 256 (a "binary string"), which is what an [ascii] holds.
    - A [Uint8Array] is a [list byte], an [Int16Array] a [list Z] whose elements
      lie in [-32768, 32767], a [Float32Array] a list of [spec_float] (the
      Standard Library's specification of IEEE 754 values).  Typed arrays are
      little-endian, as on every platform the application runs on.
    - Times of the playback device are seconds, as exact rationals [Q]: the
      scheduler compares them, takes their maximum and adds durations.
    - A thrown JavaScript exception, or the rejection of an async function, is
      the [Throw] case of [result].
    - A handler is a function from the state of the component (React state
      and refs) to the new state, the effects performed and the outcome.  The
      state setters of React are applied at once: no handler reads the state
      it sets other than through the constants of its closure, which are
      modelled as such.
    - Objects have an identity, a natural number drawn from a counter.  The
      promise [ai.live.connect] returns and the session it is fulfilled with
      share one identity.
    - Platform functions the source calls ([btoa], [atob], the typed-array
      conversions, the Web Audio calls, promises) are modelled from their
      standards.  What a standard leaves to the implementation (the limits
      of [createBuffer]) is a value of the state of the world. *)

From Stdlib Require Import ZArith NArith QArith Qabs Qminmax Qround.
From Stdlib Require Import List String Ascii Bool Lia Lqa.
From Stdlib.Strings Require Import Byte.
From Stdlib Require Import SpecFloat.
Import ListNotations.

Local Open Scope Z_scope.

(** ** Exceptions *)

Inductive JsError : Type :=
| RangeError
| TypeError
| InvalidCharacterError
| NotSupportedError
| InvalidStateError
| NotAllowedError.

Inductive result (A : Type) : Type :=
| Ok (a : A)
| Throw (e : JsError).

Arguments Ok {A} a.
Arguments Throw {A} e.

Definition rbind {A B : Type} (r : result A) (k : A -> result B) : result B :=
  match r with
  | Ok a => k a
  | Throw e => Throw e
  end.

(** The integral part of a number, rounding toward zero. *)
Definition Qtrunc (q : Q) : Z :=
  if Qle_bool 0 q then Qfloor q else Qceiling q.

Module Codec.

(** ** Typed arrays *)

Definition Uint8Array := list byte.
Definition Int16Array := list Z.
Definition Float32Array := list spec_float.

(** Storing a number into a [Uint8Array] keeps its low eight bits. *)
Definition byte_of_Z (z : Z) : byte :=
  match Byte.of_N (Z.to_N (z mod 256)) with
  | Some b => b
  | None => x00
  end.

Definition Z_of_byte (b : byte) : Z := Z.of_N (Byte.to_N b).

(** ECMAScript [truncate]: the integral part, rounding toward zero.  The
    non-finite values and the zeros are sent to 0 by [ToInt16] before
    truncation; [truncate] returns 0 on them. *)
Definition truncate (x : spec_float) : Z :=
  match x with
  | S754_finite s m e =>
      let mag := if 0 <=? e then Z.pos m * 2 ^ e else Z.pos m / 2 ^ (- e) in
      if s then - mag else mag
  | _ => 0
  end.

(** ECMAScript [ToInt16], the conversion an [Int16Array] store applies. *)
Definition ToInt16 (x : spec_float) : Z :=
  let int16bit := truncate x mod 65536 in
  if 32768 <=? int16bit then int16bit - 65536 else int16bit.

(** [data[i] * 32768]: the product is computed in binary64, where scaling a
    binary32 operand by 2^15 is exact: the significand of the product has at
    most 39 bits.  On binary32 operands this is what [SFmul 53 1024] returns
    (see [mul32768_is_binary64_product]). *)
Definition mul32768 (x : spec_float) : spec_float :=
  match x with
  | S754_finite s m e => S754_finite s (m * 32768) e
  | other => other
  end.

(** [v / 32768.0] for an [Int16Array] element [v], stored into a
    [Float32Array]: exact, since [v] has at most 16 significant bits. *)
Definition div32768 (v : Z) : spec_float :=
  match v with
  | Z0 => S754_zero false
  | Z.pos p => S754_finite false p (-15)
  | Z.neg p => S754_finite true p (-15)
  end.

(** The number a sample denotes; 0 on the non-finite values. *)
Definition SF2Q (x : spec_float) : Q :=
  match x with
  | S754_finite s m e =>
      let q := if 0 <=? e then inject_Z (Z.pos m * 2 ^ e)
               else Z.pos m # Z.to_pos (2 ^ (- e)) in
      if s then Qopp q else q
  | _ => 0%Q
  end.

Definition is_finite_sample (x : spec_float) : bool :=
  match x with
  | S754_finite _ _ _ | S754_zero _ => true
  | _ => false
  end.

(** [new Uint8Array(int16.buffer)]: the little-endian bytes of each element. *)
Definition bytes_of_int16 (v : Z) : list byte :=
  [byte_of_Z v; byte_of_Z (v / 256)].

Definition Uint8Array_of_Int16Array (a : Int16Array) : Uint8Array :=
  flat_map bytes_of_int16 a.

Definition int16_of_bytes (lo hi : byte) : Z :=
  let u := Z_of_byte lo + 256 * Z_of_byte hi in
  if 32768 <=? u then u - 65536 else u.

(** [new Int16Array(data.buffer)]: a view on the same bytes; the constructor
    throws a RangeError when the byte length is odd. *)
Fixpoint Int16Array_of_buffer (data : Uint8Array) : result Int16Array :=
  match data with
  | [] => Ok []
  | [_] => Throw RangeError
  | lo :: hi :: rest =>
      rbind (Int16Array_of_buffer rest) (fun a => Ok (int16_of_bytes lo hi :: a))
  end.

(** An indexed store into a typed array: ignored when out of range. *)
Fixpoint typed_set {A : Type} (a : list A) (i : nat) (v : A) : list A :=
  match a, i with
  | [], _ => []
  | _ :: r, O => v :: r
  | x :: r, S j => x :: typed_set r j v
  end.

(** ** Base64: [btoa] and [atob] *)

Definition b64_alphabet : string :=
  "ABCDEFGHIJKLMNOPQRSTUVWXYZabcdefghijklmnopqrstuvwxyz0123456789+/".

Definition b64_char (n : N) : ascii :=
  match String.get (N.to_nat n) b64_alphabet with
  | Some c => c
  | None => "="%char
  end.

Local Open Scope N_scope.

Definition b64_index (c : ascii) : option N :=
  let n := N_of_ascii c in
  if (65 <=? n) && (n <=? 90) then Some (n - 65)
  else if (97 <=? n) && (n <=? 122) then Some (n - 71)
  else if (48 <=? n) && (n <=? 57) then Some (n + 4)
  else if n =? 43 then Some 62
  else if n =? 47 then Some 63
  else None.

(** [btoa]: base64 with padding (RFC 4648), three code units at a time. *)
Fixpoint btoa (s : string) : string :=
  match s with
  | EmptyString => EmptyString
  | String a EmptyString =>
      let a := N_of_ascii a in
      String (b64_char (a / 4))
        (String (b64_char (a mod 4 * 16)) "==")
  | String a (String b EmptyString) =>
      let a := N_of_ascii a in
      let b := N_of_ascii b in
      String (b64_char (a / 4))
        (String (b64_char (a mod 4 * 16 + b / 16))
           (String (b64_char (b mod 16 * 4)) "="))
  | String a (String b (String c rest)) =>
      let a := N_of_ascii a in
      let b := N_of_ascii b in
      let c := N_of_ascii c in
      String (b64_char (a / 4))
        (String (b64_char (a mod 4 * 16 + b / 16))
           (String (b64_char (b mod 16 * 4 + c / 64))
              (String (b64_char (c mod 64)) (btoa rest))))
  end.

(** [atob]: the forgiving-base64 decode of the Infra standard. *)
Definition is_ascii_whitespace (c : ascii) : bool :=
  let n := N_of_ascii c in
  (n =? 9) || (n =? 10) || (n =? 12) || (n =? 13) || (n =? 32).

Definition strip_whitespace (l : list ascii) : list ascii :=
  filter (fun c => negb (is_ascii_whitespace c)) l.

Definition is_pad (c : ascii) : bool := N_of_ascii c =? 61.

(** Remove one or two trailing [=]. *)
Definition strip_padding (l : list ascii) : list ascii :=
  match rev l with
  | p :: q :: r =>
      if is_pad p then (if is_pad q then rev r else rev (q :: r)) else l
  | [p] => if is_pad p then [] else l
  | [] => l
  end.

Fixpoint sextets (l : list ascii) : option (list N) :=
  match l with
  | [] => Some []
  | c :: r =>
      match b64_index c, sextets r with
      | Some n, Some ns => Some (n :: ns)
      | _, _ => None
      end
  end.

(** Pack sextets into bytes; a final group of two or three sextets yields one
    or two bytes and its leftover bits are discarded. *)
Fixpoint pack (ns : list N) : string :=
  match ns with
  | n1 :: n2 :: n3 :: n4 :: r =>
      String (ascii_of_N (n1 * 4 + n2 / 16))
        (String (ascii_of_N (n2 mod 16 * 16 + n3 / 4))
           (String (ascii_of_N (n3 mod 4 * 64 + n4)) (pack r)))
  | [n1; n2; n3] =>
      String (ascii_of_N (n1 * 4 + n2 / 16))
        (String (ascii_of_N (n2 mod 16 * 16 + n3 / 4)) EmptyString)
  | [n1; n2] => String (ascii_of_N (n1 * 4 + n2 / 16)) EmptyString
  | _ => EmptyString
  end.

Definition atob (data : string) : result string :=
  let d := strip_whitespace (list_ascii_of_string data) in
  let d := if (N.of_nat (List.length d) mod 4 =? 0) then strip_padding d else d in
  if N.of_nat (List.length d) mod 4 =? 1 then Throw InvalidCharacterError
  else match sextets d with
       | Some ns => Ok (pack ns)
       | None => Throw InvalidCharacterError
       end.

Local Close Scope N_scope.

(** ** The source's codec functions *)

(** [encode]: the loop appends [String.fromCharCode(bytes[i])] to [binary]. *)
Definition encode (bytes : Uint8Array) : string :=
  let binary :=
    fold_left (fun binary b => (binary ++ String (ascii_of_byte b) EmptyString)%string)
      bytes EmptyString in
  btoa binary.

(** [decode]: [bytes[i] = binaryString.charCodeAt(i)] for every index. *)
Definition decode (base64 : string) : result Uint8Array :=
  rbind (atob base64) (fun binaryString =>
    let len := String.length binaryString in
    let bytes := repeat x00 len in
    Ok (fold_left
          (fun bytes i =>
             match String.get i binaryString with
             | Some c => typed_set bytes i (byte_of_ascii c)
             | None => bytes
             end)
          (seq 0 len) bytes)).

(** The blob sent to the session. *)
Record GenaiBlob : Type := mkBlob { data : string; mimeType : string }.

(** [createBlob]: [int16[i] = data[i] * 32768] for every index, then the
    bytes of the buffer, encoded. *)
Definition createBlob_int16 (d : Float32Array) : Int16Array :=
  let l := List.length d in
  fold_left
    (fun int16 i =>
       match nth_error d i with
       | Some x => typed_set int16 i (ToInt16 (mul32768 x))
       | None => int16
       end)
    (seq 0 l) (repeat 0 l).

Definition createBlob (d : Float32Array) : GenaiBlob :=
  {| data := encode (Uint8Array_of_Int16Array (createBlob_int16 d));
     mimeType := "audio/pcm;rate=16000" |}.

End Codec.

(** ** Web Audio objects *)

Module WebAudio.

(** What an implementation's [createBuffer] accepts.  The standard requires
    at least 32 channels and the sample rates from 8000 to 96000 Hz to be
    supported; an implementation may accept more. *)
Record Limits : Type := mkLimits {
  maxChannels : nat;
  minSampleRate : Z;
  maxSampleRate : Z
}.

(** The least an implementation may support. *)
Definition required : Limits :=
  {| maxChannels := 32; minSampleRate := 8000; maxSampleRate := 96000 |}.

Definition accepts_channels (l : Limits) (n : nat) : bool :=
  Nat.leb n 32 || Nat.leb n (maxChannels l).

Definition accepts_rate (l : Limits) (r : Z) : bool :=
  ((8000 <=? r) && (r <=? 96000)) || ((minSampleRate l <=? r) && (r <=? maxSampleRate l)).

Record AudioContext : Type := mkAudioContext {
  ctx_id : nat;
  ctx_sampleRate : Z;
  currentTime : Q;
  ctx_limits : Limits
}.

Record AudioBuffer : Type := mkAudioBuffer {
  numberOfChannels : nat;
  buf_length : nat;
  buf_sampleRate : Z;
  channelData : list Codec.Float32Array
}.

(** [buffer.duration]: the length in frames over the sample rate. *)
Definition duration (b : AudioBuffer) : Q :=
  Z.of_nat (buf_length b) # Z.to_pos (buf_sampleRate b).

(** The WebIDL conversion of a number to [unsigned long]. *)
Definition ToUint32 (q : Q) : Z :=
  Qtrunc q mod 2 ^ 32.

(** [ctx.createBuffer(numberOfChannels, length, sampleRate)]: throws
    NotSupportedError when an argument is zero, negative or outside the range
    the implementation accepts. *)
Definition createBuffer (ctx : AudioContext) (numChannels : nat) (frameCount : Q)
    (sampleRate : Z) : result AudioBuffer :=
  let len := Z.to_nat (ToUint32 frameCount) in
  if (Nat.eqb numChannels 0 || negb (accepts_channels (ctx_limits ctx) numChannels)
      || Nat.eqb len 0
      || (sampleRate <=? 0) || negb (accepts_rate (ctx_limits ctx) sampleRate))%bool
  then Throw NotSupportedError
  else Ok {| numberOfChannels := numChannels;
             buf_length := len;
             buf_sampleRate := sampleRate;
             channelData := repeat (repeat (S754_zero false) len) numChannels |}.

Record AudioBufferSourceNode : Type := mkSource {
  node_id : nat;
  node_buffer : option AudioBuffer;
  startedAt : option Q
}.

(** [source.start(when)]: InvalidStateError when already started, RangeError
    when [when] is negative. *)
Definition start (n : AudioBufferSourceNode) (when : Q) : result AudioBufferSourceNode :=
  match startedAt n with
  | Some _ => Throw InvalidStateError
  | None =>
      if Qle_bool 0 when
      then Ok {| node_id := node_id n; node_buffer := node_buffer n;
                 startedAt := Some when |}
      else Throw RangeError
  end.

(** [source.stop()]: InvalidStateError when the node was never started. *)
Definition stop (n : AudioBufferSourceNode) : result unit :=
  match startedAt n with
  | Some _ => Ok tt
  | None => Throw InvalidStateError
  end.

End WebAudio.

Import WebAudio.

Module Decoder.

Import Codec.

(** [dataInt16[k] / 32768.0]; an index past the end reads [undefined], and
    [undefined / 32768.0] is NaN. *)
Definition sample_at (dataInt16 : Int16Array) (k : nat) : spec_float :=
  match nth_error dataInt16 k with
  | Some v => div32768 v
  | None => S754_nan
  end.

(** [decodeAudioData]: the outer loop runs over the channels, the inner one
    over [i < frameCount], where [frameCount] is the quotient
    [dataInt16.length / numChannels], possibly fractional. *)
Definition decodeAudioData (d : Uint8Array) (ctx : AudioContext)
    (sampleRate : Z) (numChannels : nat) : result AudioBuffer :=
  rbind (Int16Array_of_buffer d) (fun dataInt16 =>
    match numChannels with
    | O => Throw NotSupportedError
    | S _ =>
        let frameCount : Q :=
          Z.of_nat (List.length dataInt16) # Pos.of_nat numChannels in
        rbind (createBuffer ctx numChannels frameCount sampleRate) (fun buffer =>
          let iterations := Z.to_nat (Qceiling frameCount) in
          Ok {| numberOfChannels := numberOfChannels buffer;
                buf_length := buf_length buffer;
                buf_sampleRate := buf_sampleRate buffer;
                channelData :=
                  map (fun channel =>
                         fold_left
                           (fun cd i =>
                              typed_set cd i
                                (sample_at dataInt16 (i * numChannels + channel)))
                           (seq 0 iterations)
                           (nth channel (channelData buffer) []))
                      (seq 0 numChannels) |})
    end).

End Decoder.

(** ** The call session: state, effects and handlers of [App] *)

Module Session.

Import Codec Decoder.

Local Open Scope string_scope.
Local Open Scope list_scope.

(** *** Data *)

Inductive Speaker : Type := user | model.

Record Transcript : Type := mkTranscript { speaker : Speaker; text : string }.

(** The parts of a [LiveServerMessage] the handler reads; an absent optional
    property is [None]. *)
Record Transcription : Type := mkTranscription { tr_text : option string }.
Record InlineData : Type := mkInlineData { inline_data : option string }.
Record Part : Type := mkPart { inlineData : option InlineData }.
Record Content : Type := mkContent { parts : option (list Part) }.

Record LiveServerContent : Type := mkServerContent {
  modelTurn : option Content;
  turnComplete : bool;
  interrupted : bool;
  inputTranscription : option Transcription;
  outputTranscription : option Transcription
}.

Record LiveServerMessage : Type := mkMessage {
  serverContent : option LiveServerContent
}.

Record MediaStream : Type := mkStream { tracks : list nat }.

(** What a handler does to the world outside the component. *)
Inductive Effect : Type :=
| ConsoleLog (msg : string)
| ConsoleError (msg : string)
| Alert (msg : string)
| SessionClose (session : nat)
| TrackStop (track : nat)
| ClearInterval (id : Z)
| ProcessorDisconnect (node : nat)
| ContextClose (ctx : nat)
| SourceStart (node : nat) (when : Q) (dur : Q)
| SourceStop (node : nat)
| SendRealtimeInput (session : nat) (media : GenaiBlob).

(** The React state and the refs of [App]; and, of the world around the
    component: the counter that gives every created object its identity, the
    limits of the browser's audio buffers, the connect promises that have
    settled (fulfilled or rejected; the others are pending), and the
    promises on which a reaction that closes the session is waiting. *)
Record App : Type := mkApp {
  isConnecting : bool;
  isCallActive : bool;
  transcripts : list Transcript;
  currentInputTranscription : string;
  currentOutputTranscription : string;
  localStreamRef : option MediaStream;
  sessionPromiseRef : option nat;
  inputAudioContextRef : option AudioContext;
  outputAudioContextRef : option AudioContext;
  scriptProcessorRef : option nat;
  frameIntervalRef : option Z;
  audioSourcesRef : list AudioBufferSourceNode;
  nextStartTimeRef : Q;
  localVideoRef : bool;
  nextObjectId : nat;
  host : Limits;
  settled : list (nat * bool);
  closing : list nat
}.

(** The first render, in a browser with the limits [h]. *)
Definition initial_on (h : Limits) : App :=
  {| isConnecting := false; isCallActive := false; transcripts := [];
     currentInputTranscription := EmptyString; currentOutputTranscription := EmptyString;
     localStreamRef := None; sessionPromiseRef := None;
     inputAudioContextRef := None; outputAudioContextRef := None;
     scriptProcessorRef := None; frameIntervalRef := None;
     audioSourcesRef := []; nextStartTimeRef := 0%Q;
     localVideoRef := true; nextObjectId := 0%nat;
     host := h; settled := []; closing := [] |}.

Definition initial : App := initial_on required.

Definition set_isConnecting (v : bool) (s : App) : App :=
  mkApp v (isCallActive s) (transcripts s) (currentInputTranscription s)
    (currentOutputTranscription s) (localStreamRef s) (sessionPromiseRef s)
    (inputAudioContextRef s) (outputAudioContextRef s) (scriptProcessorRef s)
    (frameIntervalRef s) (audioSourcesRef s) (nextStartTimeRef s)
    (localVideoRef s) (nextObjectId s)
    (host s) (settled s) (closing s).

Definition set_isCallActive (v : bool) (s : App) : App :=
  mkApp (isConnecting s) v (transcripts s) (currentInputTranscription s)
    (currentOutputTranscription s) (localStreamRef s) (sessionPromiseRef s)
    (inputAudioContextRef s) (outputAudioContextRef s) (scriptProcessorRef s)
    (frameIntervalRef s) (audioSourcesRef s) (nextStartTimeRef s)
    (localVideoRef s) (nextObjectId s)
    (host s) (settled s) (closing s).

Definition set_transcripts (v : list Transcript) (s : App) : App :=
  mkApp (isConnecting s) (isCallActive s) v (currentInputTranscription s)
    (currentOutputTranscription s) (localStreamRef s) (sessionPromiseRef s)
    (inputAudioContextRef s) (outputAudioContextRef s) (scriptProcessorRef s)
    (frameIntervalRef s) (audioSourcesRef s) (nextStartTimeRef s)
    (localVideoRef s) (nextObjectId s)
    (host s) (settled s) (closing s).

Definition set_currentInputTranscription (v : string) (s : App) : App :=
  mkApp (isConnecting s) (isCallActive s) (transcripts s) v
    (currentOutputTranscription s) (localStreamRef s) (sessionPromiseRef s)
    (inputAudioContextRef s) (outputAudioContextRef s) (scriptProcessorRef s)
    (frameIntervalRef s) (audioSourcesRef s) (nextStartTimeRef s)
    (localVideoRef s) (nextObjectId s)
    (host s) (settled s) (closing s).

Definition set_currentOutputTranscription (v : string) (s : App) : App :=
  mkApp (isConnecting s) (isCallActive s) (transcripts s)
    (currentInputTranscription s) v (localStreamRef s) (sessionPromiseRef s)
    (inputAudioContextRef s) (outputAudioContextRef s) (scriptProcessorRef s)
    (frameIntervalRef s) (audioSourcesRef s) (nextStartTimeRef s)
    (localVideoRef s) (nextObjectId s)
    (host s) (settled s) (closing s).

Definition set_localStreamRef (v : option MediaStream) (s : App) : App :=
  mkApp (isConnecting s) (isCallActive s) (transcripts s)
    (currentInputTranscription s) (currentOutputTranscription s) v
    (sessionPromiseRef s) (inputAudioContextRef s) (outputAudioContextRef s)
    (scriptProcessorRef s) (frameIntervalRef s) (audioSourcesRef s)
    (nextStartTimeRef s) (localVideoRef s) (nextObjectId s)
    (host s) (settled s) (closing s).

Definition set_sessionPromiseRef (v : option nat) (s : App) : App :=
  mkApp (isConnecting s) (isCallActive s) (transcripts s)
    (currentInputTranscription s) (currentOutputTranscription s)
    (localStreamRef s) v (inputAudioContextRef s) (outputAudioContextRef s)
    (scriptProcessorRef s) (frameIntervalRef s) (audioSourcesRef s)
    (nextStartTimeRef s) (localVideoRef s) (nextObjectId s)
    (host s) (settled s) (closing s).

Definition set_inputAudioContextRef (v : option AudioContext) (s : App) : App :=
  mkApp (isConnecting s) (isCallActive s) (transcripts s)
    (currentInputTranscription s) (currentOutputTranscription s)
    (localStreamRef s) (sessionPromiseRef s) v (outputAudioContextRef s)
    (scriptProcessorRef s) (frameIntervalRef s) (audioSourcesRef s)
    (nextStartTimeRef s) (localVideoRef s) (nextObjectId s)
    (host s) (settled s) (closing s).

Definition set_outputAudioContextRef (v : option AudioContext) (s : App) : App :=
  mkApp (isConnecting s) (isCallActive s) (transcripts s)
    (currentInputTranscription s) (currentOutputTranscription s)
    (localStreamRef s) (sessionPromiseRef s) (inputAudioContextRef s) v
    (scriptProcessorRef s) (frameIntervalRef s) (audioSourcesRef s)
    (nextStartTimeRef s) (localVideoRef s) (nextObjectId s)
    (host s) (settled s) (closing s).

Definition set_scriptProcessorRef (v : option nat) (s : App) : App :=
  mkApp (isConnecting s) (isCallActive s) (transcripts s)
    (currentInputTranscription s) (currentOutputTranscription s)
    (localStreamRef s) (sessionPromiseRef s) (inputAudioContextRef s)
    (outputAudioContextRef s) v (frameIntervalRef s) (audioSourcesRef s)
    (nextStartTimeRef s) (localVideoRef s) (nextObjectId s)
    (host s) (settled s) (closing s).

Definition set_frameIntervalRef (v : option Z) (s : App) : App :=
  mkApp (isConnecting s) (isCallActive s) (transcripts s)
    (currentInputTranscription s) (currentOutputTranscription s)
    (localStreamRef s) (sessionPromiseRef s) (inputAudioContextRef s)
    (outputAudioContextRef s) (scriptProcessorRef s) v (audioSourcesRef s)
    (nextStartTimeRef s) (localVideoRef s) (nextObjectId s)
    (host s) (settled s) (closing s).

Definition set_audioSourcesRef (v : list AudioBufferSourceNode) (s : App) : App :=
  mkApp (isConnecting s) (isCallActive s) (transcripts s)
    (currentInputTranscription s) (currentOutputTranscription s)
    (localStreamRef s) (sessionPromiseRef s) (inputAudioContextRef s)
    (outputAudioContextRef s) (scriptProcessorRef s) (frameIntervalRef s) v
    (nextStartTimeRef s) (localVideoRef s) (nextObjectId s)
    (host s) (settled s) (closing s).

Definition set_nextStartTimeRef (v : Q) (s : App) : App :=
  mkApp (isConnecting s) (isCallActive s) (transcripts s)
    (currentInputTranscription s) (currentOutputTranscription s)
    (localStreamRef s) (sessionPromiseRef s) (inputAudioContextRef s)
    (outputAudioContextRef s) (scriptProcessorRef s) (frameIntervalRef s)
    (audioSourcesRef s) v (localVideoRef s) (nextObjectId s)
    (host s) (settled s) (closing s).

Definition set_localVideoRef (v : bool) (s : App) : App :=
  mkApp (isConnecting s) (isCallActive s) (transcripts s)
    (currentInputTranscription s) (currentOutputTranscription s)
    (localStreamRef s) (sessionPromiseRef s) (inputAudioContextRef s)
    (outputAudioContextRef s) (scriptProcessorRef s) (frameIntervalRef s)
    (audioSourcesRef s) (nextStartTimeRef s) v (nextObjectId s)
    (host s) (settled s) (closing s).

Definition set_nextObjectId (v : nat) (s : App) : App :=
  mkApp (isConnecting s) (isCallActive s) (transcripts s)
    (currentInputTranscription s) (currentOutputTranscription s)
    (localStreamRef s) (sessionPromiseRef s) (inputAudioContextRef s)
    (outputAudioContextRef s) (scriptProcessorRef s) (frameIntervalRef s)
    (audioSourcesRef s) (nextStartTimeRef s) (localVideoRef s) v
    (host s) (settled s) (closing s).

Definition set_settled (v : list (nat * bool)) (s : App) : App :=
  mkApp (isConnecting s) (isCallActive s) (transcripts s)
    (currentInputTranscription s) (currentOutputTranscription s)
    (localStreamRef s) (sessionPromiseRef s) (inputAudioContextRef s)
    (outputAudioContextRef s) (scriptProcessorRef s) (frameIntervalRef s)
    (audioSourcesRef s) (nextStartTimeRef s) (localVideoRef s) (nextObjectId s)
    (host s) v (closing s).

Definition set_closing (v : list nat) (s : App) : App :=
  mkApp (isConnecting s) (isCallActive s) (transcripts s)
    (currentInputTranscription s) (currentOutputTranscription s)
    (localStreamRef s) (sessionPromiseRef s) (inputAudioContextRef s)
    (outputAudioContextRef s) (scriptProcessorRef s) (frameIntervalRef s)
    (audioSourcesRef s) (nextStartTimeRef s) (localVideoRef s) (nextObjectId s)
    (host s) (settled s) v.

(** *** The handler monad

    A handler transforms the state, emits effects and returns or throws.
    What it wrote before a throw stays written. *)

Definition M (A : Type) : Type := App -> App * list Effect * result A.

Definition ret {A : Type} (a : A) : M A := fun s => (s, [], Ok a).

Definition bind {A B : Type} (m : M A) (k : A -> M B) : M B :=
  fun s =>
    match m s with
    | (s1, t1, Ok a) =>
        match k a s1 with
        | (s2, t2, r) => (s2, t1 ++ t2, r)
        end
    | (s1, t1, Throw e) => (s1, t1, Throw e)
    end.

Notation "x <- c1 ;; c2" := (bind c1 (fun x => c2))
  (at level 61, c1 at next level, right associativity).
Notation "c1 ;; c2" := (bind c1 (fun _ => c2))
  (at level 61, right associativity).

Definition get : M App := fun s => (s, [], Ok s).
Definition modify (f : App -> App) : M unit := fun s => (f s, [], Ok tt).
Definition emit (e : Effect) : M unit := fun s => (s, [e], Ok tt).
Definition lift {A : Type} (r : result A) : M A := fun s => (s, [], r).

(** [try { m } catch (error) { h }] *)
Definition try_catch (m : M unit) (h : M unit) : M unit :=
  fun s =>
    match m s with
    | (s1, t1, Ok a) => (s1, t1, Ok a)
    | (s1, t1, Throw _) =>
        match h s1 with
        | (s2, t2, r) => (s2, t1 ++ t2, r)
        end
    end.

Fixpoint forEach {A : Type} (f : A -> M unit) (l : list A) : M unit :=
  match l with
  | [] => ret tt
  | x :: r => f x ;; forEach f r
  end.

(** Allocation of a new object: its identity. *)
Definition fresh : M nat :=
  fun s => (set_nextObjectId (S (nextObjectId s)) s, [], Ok (nextObjectId s)).

Definition state_of {A : Type} (x : App * list Effect * result A) : App :=
  fst (fst x).
Definition trace_of {A : Type} (x : App * list Effect * result A) : list Effect :=
  snd (fst x).
Definition outcome_of {A : Type} (x : App * list Effect * result A) : result A :=
  snd x.

(** *** JavaScript operators the handlers use *)

(** [prev + t] where [t] may be [undefined]. *)
Definition js_append (prev : string) (t : option string) : string :=
  match t with
  | Some t => String.append prev t
  | None => String.append prev "undefined"
  end.

(** [t || ''] *)
Definition or_empty (t : option string) : string :=
  match t with
  | Some t => t
  | None => EmptyString
  end.

(** A string is truthy when it is not empty. *)
Definition truthy_string (t : option string) : option string :=
  match t with
  | Some EmptyString => None
  | other => other
  end.

(** A number or null is truthy when it is a number other than 0. *)
Definition truthy_number (n : option Z) : option Z :=
  match n with
  | Some 0%Z => None
  | other => other
  end.

(** The [Set] of playback sources: insertion ordered, keyed by identity. *)
Definition set_add (n : AudioBufferSourceNode) (l : list AudioBufferSourceNode)
  : list AudioBufferSourceNode :=
  if existsb (fun m => Nat.eqb (node_id m) (node_id n)) l then l else l ++ [n].

Definition set_delete (id : nat) (l : list AudioBufferSourceNode)
  : list AudioBufferSourceNode :=
  filter (fun m => negb (Nat.eqb (node_id m) id)) l.

(** *** Handlers *)

(** The bindings of the render in which [handleStartCall] was invoked.  The
    callbacks handed to [ai.live.connect] close over these constants: they
    keep the values of that render for the whole session. *)
Record Closure : Type := mkClosure {
  cl_currentInputTranscription : string;
  cl_currentOutputTranscription : string
}.

Definition stop_source (source : AudioBufferSourceNode) : M unit :=
  lift (stop source) ;; emit (SourceStop (node_id source)).

(** [cleanUp].  The session is not closed here: [then] hangs the reaction
    [session => session.close()] on the connect promise, and that reaction
    runs when the promise is fulfilled, at the earliest once the caller of
    [cleanUp] has returned (see [microtasks]). *)
Definition cleanUp : M unit :=
  emit (ConsoleLog "Cleaning up resources...") ;;
  s <- get ;;
  (match sessionPromiseRef s with
   | Some promise =>
       modify (fun s => set_closing (closing s ++ [promise]) s) ;;
       modify (set_sessionPromiseRef None)
   | None => ret tt
   end) ;;
  (match localStreamRef s with
   | Some stream =>
       forEach (fun track => emit (TrackStop track)) (tracks stream) ;;
       modify (set_localStreamRef None)
   | None => ret tt
   end) ;;
  (match truthy_number (frameIntervalRef s) with
   | Some id => emit (ClearInterval id) ;; modify (set_frameIntervalRef None)
   | None => ret tt
   end) ;;
  (match scriptProcessorRef s with
   | Some node => emit (ProcessorDisconnect node) ;; modify (set_scriptProcessorRef None)
   | None => ret tt
   end) ;;
  (match inputAudioContextRef s with
   | Some ctx => emit (ContextClose (ctx_id ctx))
   | None => ret tt
   end) ;;
  modify (set_inputAudioContextRef None) ;;
  (match outputAudioContextRef s with
   | Some ctx => emit (ContextClose (ctx_id ctx))
   | None => ret tt
   end) ;;
  modify (set_outputAudioContextRef None) ;;
  forEach stop_source (audioSourcesRef s) ;;
  modify (set_audioSourcesRef []) ;;
  modify (set_nextStartTimeRef 0%Q) ;;
  modify (set_isCallActive false) ;;
  modify (set_isConnecting false).

(** [handleStartCall] up to its [await]: the state setters; the invocation
    fixes the closure of the callbacks it will register. *)
Definition handleStartCall_begin : M Closure :=
  s <- get ;;
  modify (set_isConnecting true) ;;
  modify (set_transcripts []) ;;
  modify (set_currentInputTranscription EmptyString) ;;
  modify (set_currentOutputTranscription EmptyString) ;;
  ret {| cl_currentInputTranscription := currentInputTranscription s;
         cl_currentOutputTranscription := currentOutputTranscription s |}.

(** How the [try] block of [handleStartCall] goes on after the [await]:
    [getUserMedia] rejects, or it yields a stream and the output
    [AudioContext] is or is not constructed. *)
Inductive MediaOutcome : Type :=
| MediaRejected
| MediaGranted (stream : MediaStream) (contextCreated : bool).

Definition handleStartCall_resume (o : MediaOutcome) : M unit :=
  try_catch
    (match o with
     | MediaRejected => lift (Throw NotAllowedError)
     | MediaGranted stream contextCreated =>
         modify (set_localStreamRef (Some stream)) ;;
         (if contextCreated then ret tt else lift (Throw NotSupportedError)) ;;
         ctx <- fresh ;;
         modify (fun s => set_outputAudioContextRef
                            (Some {| ctx_id := ctx; ctx_sampleRate := 24000;
                                     currentTime := 0; ctx_limits := host s |}) s) ;;
         session <- fresh ;;
         modify (set_sessionPromiseRef (Some session))
     end)
    (emit (ConsoleError "Failed to start call:") ;;
     emit (Alert "Could not access camera and microphone. Please check your permissions and try again.") ;;
     cleanUp).

(** [onopen]; [timer] is the handle [window.setInterval] returns, an integer
    greater than zero. *)
Definition onopen (timer : positive) : M unit :=
  emit (ConsoleLog "Session opened.") ;;
  ctx <- fresh ;;
  modify (fun s => set_inputAudioContextRef
                     (Some {| ctx_id := ctx; ctx_sampleRate := 16000;
                              currentTime := 0; ctx_limits := host s |}) s) ;;
  node <- fresh ;;
  modify (set_scriptProcessorRef (Some node)) ;;
  s <- get ;;
  (if localVideoRef s
   then modify (set_frameIntervalRef (Some (Z.pos timer)))
   else ret tt) ;;
  modify (set_isConnecting false) ;;
  modify (set_isCallActive true).

(** The capture callback.  The processor exists from [onopen] on, when the
    library is about to fulfil the connect promise: the reaction
    [session => session.sendRealtimeInput(...)] runs as the callback
    returns, and the send is the only effect. *)
Definition onaudioprocess (inputData : Float32Array) : M unit :=
  let pcmBlob := createBlob inputData in
  s <- get ;;
  match sessionPromiseRef s with
  | Some session => emit (SendRealtimeInput session pcmBlob)
  | None => ret tt
  end.

Definition inputTranscription_of (message : LiveServerMessage) : option Transcription :=
  match serverContent message with
  | Some sc => inputTranscription sc
  | None => None
  end.

Definition outputTranscription_of (message : LiveServerMessage) : option Transcription :=
  match serverContent message with
  | Some sc => outputTranscription sc
  | None => None
  end.

Definition turnComplete_of (message : LiveServerMessage) : bool :=
  match serverContent message with
  | Some sc => turnComplete sc
  | None => false
  end.

Definition interrupted_of (message : LiveServerMessage) : bool :=
  match serverContent message with
  | Some sc => interrupted sc
  | None => false
  end.

(** [message.serverContent?.inputTranscription?.text] *)
Definition text_of (t : option Transcription) : option string :=
  match t with
  | Some t => tr_text t
  | None => None
  end.

(** [message.serverContent?.modelTurn?.parts[0]?.inlineData?.data]: the
    index into [parts] is not guarded, so a model turn without [parts]
    throws a TypeError. *)
Definition base64Audio_of (message : LiveServerMessage) : result (option string) :=
  match serverContent message with
  | None => Ok None
  | Some sc =>
      match modelTurn sc with
      | None => Ok None
      | Some turn =>
          match parts turn with
          | None => Throw TypeError
          | Some [] => Ok None
          | Some (part :: _) =>
              match inlineData part with
              | None => Ok None
              | Some blob => Ok (inline_data blob)
              end
          end
      end
  end.

(** [onmessage], first part ("Handle transcriptions").  The setters run on
    the live React state; [fullInput] and [fullOutput] read the closure. *)
Definition handle_transcriptions (cl : Closure) (message : LiveServerMessage) : M unit :=
  (match inputTranscription_of message with
   | Some t =>
       modify (fun s => set_currentInputTranscription
                          (js_append (currentInputTranscription s) (tr_text t)) s)
   | None => ret tt
   end) ;;
  (match outputTranscription_of message with
   | Some t =>
       modify (fun s => set_currentOutputTranscription
                          (js_append (currentOutputTranscription s) (tr_text t)) s)
   | None => ret tt
   end) ;;
  (if turnComplete_of message then
     let fullInput :=
       String.append (cl_currentInputTranscription cl)
         (or_empty (text_of (inputTranscription_of message))) in
     let fullOutput :=
       String.append (cl_currentOutputTranscription cl)
         (or_empty (text_of (outputTranscription_of message))) in
     modify (fun s => set_transcripts
                        (transcripts s ++
                         [ {| speaker := user; text := fullInput |};
                           {| speaker := model; text := fullOutput |} ]) s) ;;
     modify (set_currentInputTranscription EmptyString) ;;
     modify (set_currentOutputTranscription EmptyString)
   else ret tt).

(** Second part ("Handle audio output"). *)
Definition handle_audio_output (message : LiveServerMessage) : M unit :=
  base64Audio <- lift (base64Audio_of message) ;;
  s <- get ;;
  match truthy_string base64Audio, outputAudioContextRef s with
  | Some base64Audio, Some audioCtx =>
      modify (fun s => set_nextStartTimeRef
                         (Qmax (nextStartTimeRef s) (currentTime audioCtx)) s) ;;
      bytes <- lift (decode base64Audio) ;;
      audioBuffer <- lift (decodeAudioData bytes audioCtx 24000 1) ;;
      id <- fresh ;;
      let source := {| node_id := id; node_buffer := Some audioBuffer;
                       startedAt := None |} in
      s <- get ;;
      source <- lift (start source (nextStartTimeRef s)) ;;
      emit (SourceStart id (nextStartTimeRef s) (duration audioBuffer)) ;;
      modify (fun s => set_nextStartTimeRef
                         (nextStartTimeRef s + duration audioBuffer)%Q s) ;;
      modify (fun s => set_audioSourcesRef (set_add source (audioSourcesRef s)) s)
  | _, _ => ret tt
  end.

(** Third part: the interruption signal. *)
Definition handle_interrupted (message : LiveServerMessage) : M unit :=
  if interrupted_of message then
    s <- get ;;
    forEach stop_source (audioSourcesRef s) ;;
    modify (set_audioSourcesRef []) ;;
    modify (set_nextStartTimeRef 0%Q)
  else ret tt.

(** The body of the handler.  It is one atomic step: its only [await] is on
    [decodeAudioData], which contains none, so it resumes before any other
    event is delivered.  Its outcome is how the promise of the call settles. *)
Definition onmessage (cl : Closure) (message : LiveServerMessage) : M unit :=
  handle_transcriptions cl message ;;
  handle_audio_output message ;;
  handle_interrupted message.

Definition onerror (msg : string) : M unit :=
  emit (ConsoleError "Session error:") ;;
  emit (Alert (String.append "An error occurred: "
                 (String.append msg ". Please try again."))) ;;
  cleanUp.

Definition onclose : M unit :=
  emit (ConsoleLog "Session closed.") ;;
  cleanUp.

Definition handleEndCall : M unit := cleanUp.

(** The effect cleanup at unmount; React has detached the video element. *)
Definition unmount : M unit :=
  modify (set_localVideoRef false) ;;
  cleanUp.

(** The listener of a source's [ended] event. *)
Definition onended (source : nat) : M unit :=
  modify (fun s => set_audioSourcesRef (set_delete source (audioSourcesRef s)) s).

(** The playback device's clock moves on. *)
Definition advance (dt : Q) (ctx : option AudioContext) : option AudioContext :=
  match ctx with
  | Some c => Some {| ctx_id := ctx_id c; ctx_sampleRate := ctx_sampleRate c;
                      currentTime := (currentTime c + dt)%Q;
                      ctx_limits := ctx_limits c |}
  | None => None
  end.

Definition clock (dt : Q) : M unit :=
  modify (fun s => set_outputAudioContextRef (advance dt (outputAudioContextRef s)) s).

(** *** Promises

    [ai.live.connect] returns a promise that is pending at first; the
    library settles it later, fulfilled with the session or rejected.  A
    promise settles once. *)
Inductive PromiseState : Type := Pending | Fulfilled | Rejected.

Definition promise_state (s : App) (promise : nat) : PromiseState :=
  match find (fun e => Nat.eqb (fst e) promise) (settled s) with
  | Some (_, true) => Fulfilled
  | Some (_, false) => Rejected
  | None => Pending
  end.

Definition is_pending (s : App) (promise : nat) : bool :=
  match promise_state s promise with
  | Pending => true
  | _ => false
  end.

Definition settle (promise : nat) (fulfilled : bool) : M unit :=
  modify (fun s => if is_pending s promise
                   then set_settled ((promise, fulfilled) :: settled s) s
                   else s).

(** The reaction [cleanUp] hangs on the promise,
    [then(session => session.close())] and then
    [catch(e => console.error("Error closing session:", e))]. *)
Definition close_reaction (promise : nat) : M unit :=
  s <- get ;;
  match promise_state s promise with
  | Fulfilled => emit (SessionClose promise)
  | Rejected => emit (ConsoleError "Error closing session:")
  | Pending => ret tt
  end.

(** The microtask checkpoint, reached when a handler has returned: the
    reactions that wait on a settled promise run, in the order in which they
    were registered; the others go on waiting. *)
Definition microtasks : M unit :=
  s <- get ;;
  forEach close_reaction (closing s) ;;
  modify (set_closing (filter (is_pending s) (closing s))).

(** A call of an [async] function, as [handleStartCall] and [onmessage]
    are: the caller gets a promise and never an exception; a throw in the
    body rejects that promise, which nothing in the program waits for. *)
Definition async (body : M unit) : M unit :=
  fun s =>
    match body s with
    | (s1, t1, _) => (s1, t1, Ok tt)
    end.

(** *** The event loop *)

Inductive Event : Type :=
| EvStartCall
| EvUserMedia (o : MediaOutcome)
| EvOpen (timer : positive)
| EvAudioProcess (inputData : Float32Array)
| EvMessage (cl : Closure) (message : LiveServerMessage)
| EvError (msg : string)
| EvClose
| EvEndCall
| EvUnmount
| EvEnded (source : nat)
| EvClock (dt : Q)
| EvSettled (promise : nat) (fulfilled : bool).

Definition dispatch (ev : Event) : M unit :=
  match ev with
  | EvStartCall => handleStartCall_begin ;; ret tt
  | EvUserMedia o => async (handleStartCall_resume o)
  | EvOpen timer => onopen timer
  | EvAudioProcess inputData => onaudioprocess inputData
  | EvMessage cl message => async (onmessage cl message)
  | EvError msg => onerror msg
  | EvClose => onclose
  | EvEndCall => handleEndCall
  | EvUnmount => unmount
  | EvEnded source => onended source
  | EvClock dt => clock dt
  | EvSettled promise fulfilled => settle promise fulfilled
  end.

(** Every event is followed by the microtask checkpoint.  A handler that
    throws ends alone; the loop goes on with the next event. *)
Fixpoint run (evs : list Event) (s : App) : App * list Effect :=
  match evs with
  | [] => (s, [])
  | ev :: rest =>
      match dispatch ev s with
      | (s1, t1, _) =>
          match microtasks s1 with
          | (s2, t2, _) =>
              match run rest s2 with
              | (s3, t3) => (s3, t1 ++ t2 ++ t3)
              end
          end
      end
  end.

(** What the environment may deliver: time does not run backwards, and the
    tracks of a stream are distinct. *)
Definition admissible (ev : Event) : Prop :=
  match ev with
  | EvClock dt => (0 <= dt)%Q
  | EvUserMedia (MediaGranted stream _) => NoDup (tracks stream)
  | _ => True
  end.

Inductive reachable : App -> Prop :=
| reach_initial : forall h, reachable (initial_on h)
| reach_step : forall s ev,
    reachable s -> admissible ev -> reachable (state_of (dispatch ev s))
| reach_microtasks : forall s,
    reachable s -> reachable (state_of (microtasks s)).

End Session.

(** * Vocabulary of the properties *)

Import WebAudio Codec Decoder Session.

(** ** Codec *)

(** The sextets [btoa] emits before the padding, and the number of [=]. *)
Fixpoint b64_body (s : string) : list N :=
  match s with
  | EmptyString => []
  | String a EmptyString =>
      let a := N_of_ascii a in [a / 4; a mod 4 * 16]%N
  | String a (String b EmptyString) =>
      let a := N_of_ascii a in
      let b := N_of_ascii b in
      [a / 4; a mod 4 * 16 + b / 16; b mod 16 * 4]%N
  | String a (String b (String c rest)) =>
      let a := N_of_ascii a in
      let b := N_of_ascii b in
      let c := N_of_ascii c in
      (a / 4 :: a mod 4 * 16 + b / 16 :: b mod 16 * 4 + c / 64 :: c mod 64
         :: b64_body rest)%N
  end.

Fixpoint b64_pad (s : string) : nat :=
  match s with
  | EmptyString => 0
  | String _ EmptyString => 2
  | String _ (String _ EmptyString) => 1
  | String _ (String _ (String _ rest)) => b64_pad rest
  end.

(** What one sample becomes on the way through [createBlob] and
    [decodeAudioData]. *)
Definition quantize (x : spec_float) : spec_float :=
  div32768 (ToInt16 (mul32768 x)).

(** The 16-bit samples a receiver reads from a blob: its text decoded from
    base64 and viewed as an [Int16Array]. *)
Definition samples_of (b : GenaiBlob) : result Int16Array :=
  rbind (decode (data b)) Int16Array_of_buffer.

(** An integer wrapped modulo 2^16 into [-32768, 32767]. *)
Definition wrap16 (v : Z) : Z := ((v + 32768) mod 65536 - 32768)%Z.

(** Encode a block, then decode the text as the inbound path does. *)
Definition roundtrip (ctx : AudioContext) (x : Float32Array) : result AudioBuffer :=
  rbind (decode (data (createBlob x)))
    (fun bytes => decodeAudioData bytes ctx 24000 1).

(** Two samples hold the same number. *)
Definition same_sample (x y : spec_float) : Prop :=
  x = y
  \/ (is_finite_sample x = true /\ is_finite_sample y = true /\ SF2Q x == SF2Q y).

(** Some binary32 values. *)
Definition f32_one : spec_float := S754_finite false 8388608 (-23).
Definition f32_minus_one : spec_float := S754_finite true 8388608 (-23).
Definition f32_half : spec_float := S754_finite false 8388608 (-24).
Definition f32_three_halves : spec_float := S754_finite false 12582912 (-23).
Definition f32_min_subnormal : spec_float := S754_finite false 1 (-149).
Definition f32_max : spec_float := S754_finite false 16777215 104.

Definition playback_ctx : AudioContext :=
  {| ctx_id := 0; ctx_sampleRate := 24000; currentTime := 0; ctx_limits := required |}.

(** ** Session *)

Local Open Scope string_scope.
Local Open Scope list_scope.
Local Open Scope Q_scope.

(** Facts that hold of every state the component can be in. *)
Record Inv (s : App) : Prop := mkInv {
  inv_clock : forall c, outputAudioContextRef s = Some c -> 0 <= currentTime c;
  inv_timer : forall z, frameIntervalRef s = Some z -> (0 < z)%Z;
  inv_started : Forall (fun n => startedAt n <> None) (audioSourcesRef s);
  inv_sources : Forall (fun n => (node_id n < nextObjectId s)%nat) (audioSourcesRef s);
  inv_nodup : NoDup (map node_id (audioSourcesRef s));
  inv_tracks : forall st, localStreamRef s = Some st -> NoDup (tracks st);
  inv_output : forall c, outputAudioContextRef s = Some c -> (ctx_id c < nextObjectId s)%nat;
  inv_input : forall c, inputAudioContextRef s = Some c -> (ctx_id c < nextObjectId s)%nat;
  inv_distinct : forall c d,
    inputAudioContextRef s = Some c -> outputAudioContextRef s = Some d ->
    ctx_id c <> ctx_id d
}.

Definition option_list {A B : Type} (f : A -> B) (o : option A) : list B :=
  match o with
  | Some a => [f a]
  | None => []
  end.

(** The release each device held by a state calls for (media tracks, frame
    timer, script processor, audio contexts, playback sources), in the order
    teardown goes through them. *)
Definition held_devices (s : App) : list Effect :=
  match localStreamRef s with
  | Some stream => map TrackStop (tracks stream)
  | None => []
  end
  ++ option_list ClearInterval (frameIntervalRef s)
  ++ option_list ProcessorDisconnect (scriptProcessorRef s)
  ++ option_list (fun c => ContextClose (ctx_id c)) (inputAudioContextRef s)
  ++ option_list (fun c => ContextClose (ctx_id c)) (outputAudioContextRef s)
  ++ map (fun n => SourceStop (node_id n)) (audioSourcesRef s).

(** The release each resource held by a state calls for: the session, then
    the devices. *)
Definition held_resources (s : App) : list Effect :=
  option_list SessionClose (sessionPromiseRef s) ++ held_devices s.

(** The promises on which a closing reaction waits once teardown has gone
    through a state. *)
Definition to_close (s : App) : list nat :=
  match sessionPromiseRef s with
  | Some promise => closing s ++ [promise]
  | None => closing s
  end.

(** What the reactions waiting on the promises [l] do at a microtask
    checkpoint in the state [s]. *)
Definition reaction_effects (s : App) (l : list nat) : list Effect :=
  flat_map (fun promise =>
              match promise_state s promise with
              | Fulfilled => [SessionClose promise]
              | Rejected => [ConsoleError "Error closing session:"]
              | Pending => []
              end) l.

(** [SessionClose] of one session, and of any. *)
Definition closes (promise : nat) (e : Effect) : bool :=
  match e with
  | SessionClose p => Nat.eqb p promise
  | _ => false
  end.

Definition is_close (e : Effect) : bool :=
  match e with
  | SessionClose _ => true
  | _ => false
  end.

(** Facts about the connect promises that hold of every state: no promise
    has two closing reactions waiting on it, the promise in the ref has
    none, and every promise the component knows exists. *)
Record PromiseInv (s : App) : Prop := mkPromiseInv {
  inv_waiting : NoDup (closing s);
  inv_known : Forall (fun p => (p < nextObjectId s)%nat) (closing s);
  inv_session : forall p, sessionPromiseRef s = Some p ->
                  (p < nextObjectId s)%nat /\ ~ In p (closing s)
}.

(** A promise that exists, is not in the ref and has no reaction waiting:
    the component is done with it. *)
Definition done_with (s : App) (p : nat) : Prop :=
  (p < nextObjectId s)%nat /\ ~ In p (closing s) /\ sessionPromiseRef s <> Some p.

(** What a handler can do to the promises: nothing; tear the call down, which
    moves the promise of the ref to the waiting reactions; or start a call
    with a new promise. *)
Definition promise_change (s s1 : App) : Prop :=
  (nextObjectId s <= nextObjectId s1)%nat
  /\ ((closing s1 = closing s /\ sessionPromiseRef s1 = sessionPromiseRef s)
      \/ (closing s1 = to_close s /\ sessionPromiseRef s1 = None)
      \/ (closing s1 = closing s
          /\ exists p, sessionPromiseRef s1 = Some p
                       /\ (nextObjectId s <= p < nextObjectId s1)%nat)).

Definition is_release (e : Effect) : bool :=
  match e with
  | SessionClose _ | TrackStop _ | ClearInterval _ | ProcessorDisconnect _
  | ContextClose _ | SourceStop _ => true
  | _ => false
  end.

(** The state teardown leaves. *)
Definition cleaned (s : App) : App :=
  {| isConnecting := false; isCallActive := false;
     transcripts := transcripts s;
     currentInputTranscription := currentInputTranscription s;
     currentOutputTranscription := currentOutputTranscription s;
     localStreamRef := None; sessionPromiseRef := None;
     inputAudioContextRef := None; outputAudioContextRef := None;
     scriptProcessorRef := None; frameIntervalRef := None;
     audioSourcesRef := []; nextStartTimeRef := 0;
     localVideoRef := localVideoRef s; nextObjectId := nextObjectId s;
     host := host s; settled := settled s; closing := to_close s |}.

(** The decoded chunk a message carries for the playback scheduler, if any:
    what [handle_audio_output] computes before it creates the source. *)
Definition chunk_of (s : App) (message : LiveServerMessage) : result (option AudioBuffer) :=
  rbind (base64Audio_of message) (fun base64Audio =>
    match truthy_string base64Audio, outputAudioContextRef s with
    | Some base64Audio, Some audioCtx =>
        rbind (decode base64Audio) (fun bytes =>
          rbind (decodeAudioData bytes audioCtx 24000 1) (fun audioBuffer =>
            Ok (Some audioBuffer)))
    | _, _ => Ok None
    end).

(** The React state after the transcription part of [onmessage]. *)
Definition transcribe (cl : Closure) (message : LiveServerMessage) (s : App) : App :=
  let s1 :=
    match inputTranscription_of message with
    | Some t => set_currentInputTranscription
                  (js_append (currentInputTranscription s) (tr_text t)) s
    | None => s
    end in
  let s2 :=
    match outputTranscription_of message with
    | Some t => set_currentOutputTranscription
                  (js_append (currentOutputTranscription s1) (tr_text t)) s1
    | None => s1
    end in
  if turnComplete_of message then
    set_currentOutputTranscription EmptyString
      (set_currentInputTranscription EmptyString
         (set_transcripts
            (transcripts s2 ++
             [ {| speaker := user;
                  text := String.append (cl_currentInputTranscription cl)
                            (or_empty (text_of (inputTranscription_of message))) |};
               {| speaker := model;
                  text := String.append (cl_currentOutputTranscription cl)
                            (or_empty (text_of (outputTranscription_of message))) |} ])
            s2))
  else s2.

(** The state after a chunk has been scheduled at [startAt]. *)
Definition after_schedule (s : App) (startAt : Q) (audioBuffer : AudioBuffer) : App :=
  set_audioSourcesRef
    (set_add {| node_id := nextObjectId s; node_buffer := Some audioBuffer;
                startedAt := Some startAt |} (audioSourcesRef s))
    (set_nextStartTimeRef (startAt + duration audioBuffer)
       (set_nextObjectId (S (nextObjectId s)) s)).

(** How the audio part of [onmessage] can go. *)
Inductive audio_outcome (m : LiveServerMessage) (s : App)
  : App * list Effect * result unit -> Prop :=
| audio_absent :
    chunk_of s m = Ok None ->
    audio_outcome m s (s, [], Ok tt)
| audio_no_parts :
    chunk_of s m = Throw TypeError ->
    base64Audio_of m = Throw TypeError ->
    audio_outcome m s (s, [], Throw TypeError)
| audio_malformed : forall ctx e,
    outputAudioContextRef s = Some ctx ->
    chunk_of s m = Throw e ->
    audio_outcome m s
      (set_nextStartTimeRef (Qmax (nextStartTimeRef s) (currentTime ctx)) s, [], Throw e)
| audio_start_refused : forall ctx buf,
    outputAudioContextRef s = Some ctx ->
    chunk_of s m = Ok (Some buf) ->
    Qle_bool 0 (Qmax (nextStartTimeRef s) (currentTime ctx)) = false ->
    audio_outcome m s
      (set_nextObjectId (S (nextObjectId s))
         (set_nextStartTimeRef (Qmax (nextStartTimeRef s) (currentTime ctx)) s),
       [], Throw RangeError)
| audio_scheduled : forall ctx buf,
    outputAudioContextRef s = Some ctx ->
    chunk_of s m = Ok (Some buf) ->
    Qle_bool 0 (Qmax (nextStartTimeRef s) (currentTime ctx)) = true ->
    audio_outcome m s
      (after_schedule s (Qmax (nextStartTimeRef s) (currentTime ctx)) buf,
       [SourceStart (nextObjectId s) (Qmax (nextStartTimeRef s) (currentTime ctx))
          (duration buf)],
       Ok tt).

(** The state and the effects of the interruption part of [onmessage]. *)
Definition after_interrupted (message : LiveServerMessage) (s : App)
  : App * list Effect * result unit :=
  if interrupted_of message
  then (set_nextStartTimeRef 0 (set_audioSourcesRef [] s),
        map (fun n => SourceStop (node_id n)) (audioSourcesRef s), Ok tt)
  else (s, [], Ok tt).

(** The start time and duration of every source started in a trace. *)
Fixpoint scheduled (t : list Effect) : list (Q * Q) :=
  match t with
  | [] => []
  | SourceStart _ when dur :: r => (when, dur) :: scheduled r
  | _ :: r => scheduled r
  end.

(** Every chunk starts at or after the cursor, which then is its end. *)
Fixpoint chained_from (cursor : Q) (l : list (Q * Q)) : Prop :=
  match l with
  | [] => True
  | (when, dur) :: r => cursor <= when /\ chained_from (when + dur) r
  end.

(** No chunk starts before the one scheduled before it has ended. *)
Definition no_overlap (l : list (Q * Q)) : Prop :=
  forall k when dur when' dur',
    nth_error l k = Some (when, dur) ->
    nth_error l (S k) = Some (when', dur') ->
    when + dur <= when'.

(** The events of undisturbed playback: messages without an interruption
    signal, the clock, sources that end, captured audio. *)
Definition playback_only (ev : Event) : Prop :=
  match ev with
  | EvMessage _ message => interrupted_of message = false
  | EvClock _ | EvEnded _ | EvAudioProcess _ => True
  | _ => False
  end.

(** Messages and a scenario used as concrete inputs. *)
Definition fragment_user (t : string) : LiveServerMessage :=
  {| serverContent := Some {| modelTurn := None; turnComplete := false;
       interrupted := false;
       inputTranscription := Some {| tr_text := Some t |};
       outputTranscription := None |} |}.

Definition fragment_model (t : string) : LiveServerMessage :=
  {| serverContent := Some {| modelTurn := None; turnComplete := false;
       interrupted := false;
       inputTranscription := None;
       outputTranscription := Some {| tr_text := Some t |} |} |}.

Definition turn_complete : LiveServerMessage :=
  {| serverContent := Some {| modelTurn := None; turnComplete := true;
       interrupted := false;
       inputTranscription := None; outputTranscription := None |} |}.

Definition turn_complete_with_user (t : string) : LiveServerMessage :=
  {| serverContent := Some {| modelTurn := None; turnComplete := true;
       interrupted := false;
       inputTranscription := Some {| tr_text := Some t |};
       outputTranscription := None |} |}.

Definition audio_chunk (base64 : string) : LiveServerMessage :=
  {| serverContent := Some {|
       modelTurn := Some {| parts := Some [ {| inlineData :=
                       Some {| inline_data := Some base64 |} |} ] |};
       turnComplete := false; interrupted := false;
       inputTranscription := None; outputTranscription := None |} |}.

Definition interruption : LiveServerMessage :=
  {| serverContent := Some {| modelTurn := None; turnComplete := false;
       interrupted := true;
       inputTranscription := None; outputTranscription := None |} |}.

(** The closure of a call started from the initial render. *)
Definition first_closure : Closure :=
  {| cl_currentInputTranscription := EmptyString; cl_currentOutputTranscription := EmptyString |}.

(** A call is started and opened, and the library fulfils the connect
    promise. *)
Definition call_opened : list Event :=
  [ EvStartCall;
    EvUserMedia (MediaGranted {| tracks := [0%nat; 1%nat] |} true);
    EvOpen 7;
    EvSettled 1 true ].

(** Five seconds into the call a chunk of three frames arrives. *)
Definition one_chunk_playing : list Event :=
  call_opened ++ [ EvClock 5; EvMessage first_closure (audio_chunk "AIAAQACA") ].

Definition playing : App := fst (run one_chunk_playing initial).

(** A call that has been requested and granted its media, but whose
    connection has not opened. *)
Definition connecting : App :=
  fst (run [ EvStartCall;
             EvUserMedia (MediaGranted {| tracks := [0%nat; 1%nat] |} true) ] initial).

(** * More of the source: image frames *)

Module Frames.

Local Open Scope string_scope.
Local Open Scope list_scope.

(** A [Blob]: its media type and its bytes. *)
Record Blob : Type := mkImage { blob_type : string; blob_bytes : Uint8Array }.

(** [reader.readAsDataURL(blob)]: the result is the data URL of the bytes,
    [data:<type>;base64,<base64 of the bytes>]. *)
Definition readAsDataURL (blob : Blob) : string :=
  String.append "data:"
    (String.append (blob_type blob)
       (String.append ";base64," (encode (blob_bytes blob)))).

(** [s.split(sep)] for a separator of one code unit: the pieces between the
    separators, at least one. *)
Fixpoint split (sep : ascii) (s : string) : list string :=
  match s with
  | EmptyString => [EmptyString]
  | String c r =>
      if Ascii.eqb c sep then EmptyString :: split sep r
      else match split sep r with
           | piece :: pieces => String c piece :: pieces
           | [] => [String c EmptyString]
           end
  end.

(** [blobToBase64]: what the promise resolves with,
    [reader.result.split(',')[1]], [undefined] when there is no second
    piece. *)
Definition blobToBase64 (blob : Blob) : option string :=
  nth_error (split ","%char (readAsDataURL blob)) 1.



(** The body of the interval callback: a frame is drawn and handed to
    [toBlob] only with a 2D context and a video element that has data
    ([readyState >= 2]). *)
Definition frame_due (ctx2d : bool) (readyState : Z) : bool :=
  ctx2d && (2 <=? readyState)%Z.

End Frames.

Import Frames.

(** ** More vocabulary *)

(** The samples [decodeAudioData] puts into channel [c] of a buffer of
    [frames] frames, read from interleaved 16-bit samples. *)
Definition deinterleave (a : Int16Array) (numChannels frames c : nat) : Float32Array :=
  map (fun i => sample_at a (i * numChannels + c)) (seq 0 frames).

(** A context of a browser that accepts more than the standard requires. *)
Definition wide_ctx : AudioContext :=
  {| ctx_id := 0; ctx_sampleRate := 24000; currentTime := 0;
     ctx_limits := {| maxChannels := 32; minSampleRate := 3000;
                      maxSampleRate := 768000 |} |}.

(** A text without a comma. *)
Definition no_comma (s : string) : Prop :=
  Forall (fun c => Ascii.eqb c ","%char = false) (list_ascii_of_string s).

Definition is_alert (e : Effect) : bool :=
  match e with
  | Alert _ => true
  | _ => false
  end.

(** The state in which the [try] block of [handleStartCall] throws: the
    stream, if one was obtained, is in its ref. *)
Definition at_failure (o : MediaOutcome) (s : App) : App :=
  match o with
  | MediaGranted stream _ => set_localStreamRef (Some stream) s
  | MediaRejected => s
  end.

(** The state after a call has been requested, the media granted with the
    output context made, and the session opened. *)
Definition start_and_open (stream : MediaStream) (timer : positive) (s : App) : App :=
  state_of (onopen timer
    (state_of (handleStartCall_resume (MediaGranted stream true)
       (state_of (handleStartCall_begin s))))).

(** The user fragments of a list of texts, as events of one closure. *)
Definition user_fragments (cl : Closure) (ts : list string) : list Event :=
  map (fun t => EvMessage cl (fragment_user t)) ts.

(** A message that carries an interruption signal and a chunk of three
    bytes. *)
Definition interruption_with_bad_chunk : LiveServerMessage :=
  {| serverContent := Some {|
       modelTurn := Some {| parts := Some [ {| inlineData :=
                       Some {| inline_data := Some "AIAA" |} |} ] |};
       turnComplete := false; interrupted := true;
       inputTranscription := None; outputTranscription := None |} |}.

(** * Properties *)

(** ** Wire codec *)

Local Open Scope Z_scope.

(** Goals about division and remainder by constants. *)
Ltac euclid := zify; Z.to_euclidean_division_equations; lia.

(** *** Bytes and 16-bit integers *)

Lemma Z_of_byte_of_Z (z : Z) : Z_of_byte (byte_of_Z z) = z mod 256.
Proof.
  unfold Z_of_byte, byte_of_Z.
  destruct (Byte.of_N (Z.to_N (z mod 256))) as [b|] eqn:E.
  - apply Byte.to_of_N in E. rewrite E. euclid.
  - apply Byte.of_N_None_iff in E. euclid.
Qed.

Lemma int16_of_bytes_of_int16 (v : Z) :
  -32768 <= v < 32768 -> int16_of_bytes (byte_of_Z v) (byte_of_Z (v / 256)) = v.
Proof.
  intros Hv. unfold int16_of_bytes. rewrite !Z_of_byte_of_Z.
  destruct (32768 <=? v mod 256 + 256 * ((v / 256) mod 256)) eqn:E;
    [apply Z.leb_le in E | apply Z.leb_gt in E]; euclid.
Qed.

Lemma ToInt16_range (x : spec_float) : -32768 <= ToInt16 x < 32768.
Proof.
  unfold ToInt16.
  destruct (32768 <=? truncate x mod 65536) eqn:E;
    [apply Z.leb_le in E | apply Z.leb_gt in E]; euclid.
Qed.

Lemma Int16Array_of_buffer_of_Int16Array (a : Int16Array) :
  Forall (fun v => -32768 <= v < 32768) a ->
  Int16Array_of_buffer (Uint8Array_of_Int16Array a) = Ok a.
Proof.
  induction 1 as [|v a Hv _ IH]; [reflexivity|].
  cbn [Uint8Array_of_Int16Array flat_map bytes_of_int16 app Int16Array_of_buffer].
  fold (Uint8Array_of_Int16Array a). rewrite IH. cbn [rbind].
  now rewrite int16_of_bytes_of_int16.
Qed.

Lemma Uint8Array_of_Int16Array_length (a : Int16Array) :
  List.length (Uint8Array_of_Int16Array a) = (2 * List.length a)%nat.
Proof.
  induction a as [|v a IH]; [reflexivity|].
  unfold Uint8Array_of_Int16Array in *. cbn [flat_map].
  rewrite length_app, IH. cbn [bytes_of_int16 List.length]. lia.
Qed.

(** *** Loops that fill a typed array

    The source fills its arrays with [for (i = 0; i < n; i++) a[i] = f(i)];
    after [k] rounds the first [k] elements are written and the rest is
    untouched. *)

Lemma typed_set_app_head {A : Type} (done rest : list A) (x v : A) :
  typed_set (done ++ x :: rest) (List.length done) v = done ++ v :: rest.
Proof. induction done as [|d done IH]; cbn; [reflexivity | now rewrite IH]. Qed.

Lemma fill_loop_prefix {A : Type} (g : list A -> nat -> list A) (f : nat -> A)
    (init : list A) (k : nat) :
  (k <= List.length init)%nat ->
  (forall a i, (i < k)%nat -> g a i = typed_set a i (f i)) ->
  fold_left g (seq 0 k) init = map f (seq 0 k) ++ skipn k init.
Proof.
  induction k as [|k IH]; intros Hk Hg; [reflexivity|].
  rewrite seq_S, fold_left_app, map_app. cbn [fold_left map Nat.add].
  rewrite IH by (try lia; intros; apply Hg; lia).
  rewrite Hg by lia.
  destruct (skipn k init) as [|x rest] eqn:E.
  - apply (f_equal (@List.length A)) in E. rewrite length_skipn in E. cbn in E. lia.
  - assert (skipn (S k) init = rest) as ->.
    { replace (S k) with (1 + k)%nat by lia. rewrite <- skipn_skipn, E. reflexivity. }
    replace k with (List.length (map f (seq 0 k))) at 2
      by now rewrite length_map, length_seq.
    rewrite typed_set_app_head, <- app_assoc. reflexivity.
Qed.

Lemma fill_loop {A : Type} (g : list A -> nat -> list A) (f : nat -> A)
    (init : list A) :
  (forall a i, (i < List.length init)%nat -> g a i = typed_set a i (f i)) ->
  fold_left g (seq 0 (List.length init)) init = map f (seq 0 (List.length init)).
Proof.
  intros Hg. rewrite (fill_loop_prefix g f init (List.length init)) by auto.
  now rewrite skipn_all, app_nil_r.
Qed.

Lemma map_nth_error_seq {A B : Type} (f : A -> B) (d : B) (l : list A) :
  map (fun i => match nth_error l i with Some x => f x | None => d end)
      (seq 0 (List.length l)) = map f l.
Proof.
  induction l as [|x l IH]; [reflexivity|].
  cbn [List.length seq map nth_error]. f_equal.
  rewrite <- seq_shift, map_map. exact IH.
Qed.

Lemma createBlob_int16_map (d : Float32Array) :
  createBlob_int16 d = map (fun x => ToInt16 (mul32768 x)) d.
Proof.
  unfold createBlob_int16.
  rewrite <- (map_nth_error_seq (fun x => ToInt16 (mul32768 x)) 0 d).
  rewrite <- (repeat_length 0 (List.length d)) at 1 3.
  rewrite (fill_loop _ (fun i => match nth_error d i with
                                 | Some x => ToInt16 (mul32768 x) | None => 0 end)).
  - now rewrite repeat_length.
  - intros a i Hi. rewrite repeat_length in Hi.
    destruct (nth_error d i) eqn:E; [reflexivity|].
    apply nth_error_None in E. lia.
Qed.

(** *** Base64: [atob] undoes [btoa] *)

Local Open Scope N_scope.

Example btoa_examples :
  btoa "Man" = "TWFu"%string /\ btoa "Ma" = "TWE="%string /\ btoa "M" = "TQ=="%string.
Proof. repeat split. Qed.

Example atob_examples :
  atob "TWFu" = Ok "Man"%string
  /\ atob "TWE=" = Ok "Ma"%string
  /\ atob "TWE" = Ok "Ma"%string
  /\ atob " T W E= " = Ok "Ma"%string
  /\ atob "A" = Throw InvalidCharacterError
  /\ atob "TW=E" = Throw InvalidCharacterError.
Proof. repeat split. Qed.

Lemma string_ind3 (P : string -> Prop) :
  P EmptyString ->
  (forall a, P (String a EmptyString)) ->
  (forall a b, P (String a (String b EmptyString))) ->
  (forall a b c rest, P rest -> P (String a (String b (String c rest)))) ->
  forall s, P s.
Proof.
  intros H0 H1 H2 H3.
  assert (forall s, P s /\ (forall a, P (String a s))
                    /\ (forall a b, P (String a (String b s)))) as H.
  { induction s as [|c s (IHs & IHs1 & IHs2)]; repeat split; auto. }
  intros s. apply H.
Qed.

Lemma b64_char_facts (n : N) :
  n < 64 ->
  b64_index (b64_char n) = Some n
  /\ is_ascii_whitespace (b64_char n) = false
  /\ is_pad (b64_char n) = false.
Proof.
  intros Hn.
  assert (exists k, n = N.of_nat k /\ (k < 64)%nat) as (k & -> & Hk)
    by (exists (N.to_nat n); lia).
  do 64 (destruct k as [|k]; [vm_compute; auto|]). lia.
Qed.

Lemma btoa_chars (s : string) :
  list_ascii_of_string (btoa s)
  = map b64_char (b64_body s) ++ repeat "="%char (b64_pad s).
Proof.
  induction s as [| a | a b | a b c rest IH] using string_ind3;
    cbn [btoa b64_body b64_pad list_ascii_of_string map app repeat]; try reflexivity.
  now rewrite IH.
Qed.

Lemma b64_body_bounded (s : string) : Forall (fun n => n < 64) (b64_body s).
Proof.
  induction s as [| a | a b | a b c rest IH] using string_ind3;
    cbn [b64_body]; repeat constructor; try assumption;
    try pose proof (N_ascii_bounded a); try pose proof (N_ascii_bounded b);
    try pose proof (N_ascii_bounded c); euclid.
Qed.

Lemma ascii_of_N_eq (a : ascii) (n : N) : n = N_of_ascii a -> ascii_of_N n = a.
Proof. intros ->. apply ascii_N_embedding. Qed.

Lemma pack_b64_body (s : string) : pack (b64_body s) = s.
Proof.
  induction s as [| a | a b | a b c rest IH] using string_ind3;
    cbn [b64_body pack]; try reflexivity;
    try rewrite IH;
    try pose proof (N_ascii_bounded a); try pose proof (N_ascii_bounded b);
    try pose proof (N_ascii_bounded c);
    repeat match goal with
           | |- String _ _ = String _ _ => f_equal
           end;
    apply ascii_of_N_eq; euclid.
Qed.

Lemma b64_shape (s : string) :
  exists k : nat,
    (List.length (b64_body s) = 4 * k /\ b64_pad s = 0)%nat
    \/ (List.length (b64_body s) = 4 * k + 2 /\ b64_pad s = 2)%nat
    \/ (List.length (b64_body s) = 4 * k + 3 /\ b64_pad s = 1)%nat.
Proof.
  induction s as [| a | a b | a b c rest IH] using string_ind3.
  - exists 0%nat. left. split; reflexivity.
  - exists 0%nat. right. left. split; reflexivity.
  - exists 0%nat. right. right. split; reflexivity.
  - destruct IH as (k & IH). exists (S k). cbn [b64_body b64_pad List.length]. lia.
Qed.

Lemma sextets_b64_chars (ns : list N) :
  Forall (fun n => n < 64) ns -> sextets (map b64_char ns) = Some ns.
Proof.
  induction 1 as [|n ns Hn _ IH]; [reflexivity|].
  cbn [map sextets]. destruct (b64_char_facts n Hn) as (-> & _ & _).
  now rewrite IH.
Qed.

Lemma strip_whitespace_id (l : list ascii) :
  Forall (fun c => is_ascii_whitespace c = false) l -> strip_whitespace l = l.
Proof.
  induction 1 as [|c l Hc _ IH]; [reflexivity|].
  unfold strip_whitespace in *. cbn [filter]. now rewrite Hc, IH.
Qed.

Lemma strip_padding_b64 (chars : list ascii) (pad : nat) :
  Forall (fun c => is_pad c = false) chars ->
  (pad <= 2)%nat -> (pad = 0%nat \/ chars <> []) ->
  strip_padding (chars ++ repeat "="%char pad) = chars.
Proof.
  intros Hc Hp Hne. unfold strip_padding. rewrite rev_app_distr.
  assert (Hrev : Forall (fun c => is_pad c = false) (rev chars))
    by (apply Forall_rev; exact Hc).
  destruct pad as [|[|[|pad]]]; [| | | lia]; cbn [repeat rev app].
  - rewrite app_nil_r.
    destruct (rev chars) as [|p [|q r]] eqn:E; [reflexivity| |];
      inversion Hrev as [|? ? Hp' ?]; subst; now rewrite Hp'.
  - destruct Hne as [Hne|Hne]; [discriminate|].
    destruct (rev chars) as [|q r] eqn:E.
    + apply (f_equal (@rev ascii)) in E. rewrite rev_involutive in E. now subst.
    + inversion Hrev as [|? ? Hq ?]; subst. rewrite Hq.
      change (is_pad "="%char) with true. cbn iota.
      change (rev r ++ [q]) with (rev (q :: r)).
      now rewrite <- E, rev_involutive.
  - destruct Hne as [Hne|Hne]; [discriminate|].
    change (is_pad "="%char) with true. cbn iota.
    now rewrite rev_involutive.
Qed.

(** Forgiving-base64 decoding inverts base64 encoding. *)
Theorem atob_btoa (s : string) : atob (btoa s) = Ok s.
Proof.
  unfold atob. rewrite btoa_chars.
  pose proof (b64_body_bounded s) as Hb.
  assert (Hws : Forall (fun c => is_ascii_whitespace c = false)
                  (map b64_char (b64_body s) ++ repeat "="%char (b64_pad s))).
  { apply Forall_app. split.
    - apply Forall_map. eapply Forall_impl; [|exact Hb].
      intros n Hn. apply (b64_char_facts n Hn).
    - apply Forall_forall. intros c Hc. apply repeat_spec in Hc. now subst. }
  assert (Hpd : Forall (fun c => is_pad c = false) (map b64_char (b64_body s))).
  { apply Forall_map. eapply Forall_impl; [|exact Hb].
    intros n Hn. apply (b64_char_facts n Hn). }
  rewrite (strip_whitespace_id _ Hws).
  destruct (b64_shape s) as (k & Hk).
  assert (Hlen : N.of_nat (List.length (map b64_char (b64_body s)
                    ++ repeat "="%char (b64_pad s))) mod 4 = 0).
  { rewrite length_app, length_map, repeat_length. euclid. }
  rewrite Hlen. cbn [N.eqb].
  rewrite strip_padding_b64; [| exact Hpd | lia |].
  - assert ((N.of_nat (List.length (map b64_char (b64_body s))) mod 4 =? 1) = false) as ->.
    { apply N.eqb_neq. rewrite length_map. euclid. }
    now rewrite (sextets_b64_chars _ Hb), pack_b64_body.
  - destruct (b64_body s) as [|n ns]; [left; cbn in Hk; lia | right; discriminate].
Qed.

Local Close Scope N_scope.

Lemma map_get_seq {B : Type} (f : ascii -> B) (d : B) (s : string) :
  map (fun i => match String.get i s with Some c => f c | None => d end)
      (seq 0 (String.length s)) = map f (list_ascii_of_string s).
Proof.
  induction s as [|c s IH]; [reflexivity|].
  cbn [String.length seq map String.get list_ascii_of_string]. f_equal.
  rewrite <- seq_shift, map_map. exact IH.
Qed.

Lemma decode_spec (base64 : string) :
  decode base64
  = rbind (atob base64)
      (fun binaryString => Ok (map byte_of_ascii (list_ascii_of_string binaryString))).
Proof.
  unfold decode. destruct (atob base64) as [bin|e]; [|reflexivity].
  cbn [rbind]. f_equal.
  rewrite <- (map_get_seq byte_of_ascii x00 bin).
  rewrite <- (repeat_length x00 (String.length bin)) at 1 3.
  rewrite (fill_loop _ (fun i => match String.get i bin with
                                 | Some c => byte_of_ascii c | None => x00 end)).
  - now rewrite repeat_length.
  - intros a i Hi. rewrite repeat_length in Hi.
    destruct (String.get i bin) eqn:E; [reflexivity|].
    exfalso. revert i Hi E. clear. induction bin as [|c bin IH]; intros i Hi E.
    + cbn in Hi. lia.
    + destruct i as [|i]; [discriminate|]. cbn in Hi, E. apply (IH i); [lia|exact E].
Qed.

Lemma append_assoc (a b c : string) :
  ((a ++ b) ++ c)%string = (a ++ (b ++ c))%string.
Proof. induction a as [|x a IH]; cbn [String.append]; [reflexivity | now rewrite IH]. Qed.

Lemma append_empty (a : string) : (a ++ EmptyString)%string = a.
Proof. induction a as [|x a IH]; cbn [String.append]; [reflexivity | now rewrite IH]. Qed.

Lemma binary_string_of_bytes (bytes : Uint8Array) (acc : string) :
  fold_left (fun binary b => (binary ++ String (ascii_of_byte b) EmptyString)%string)
    bytes acc
  = (acc ++ string_of_list_ascii (map ascii_of_byte bytes))%string.
Proof.
  revert acc.
  induction bytes as [|b bytes IH]; intros acc;
    cbn [fold_left map string_of_list_ascii].
  - now rewrite append_empty.
  - rewrite IH, append_assoc. reflexivity.
Qed.

(** The source's [decode] inverts its [encode]. *)
Theorem decode_encode (bytes : Uint8Array) : decode (encode bytes) = Ok bytes.
Proof.
  rewrite decode_spec. unfold encode.
  rewrite binary_string_of_bytes. cbn [String.append].
  rewrite atob_btoa. cbn [rbind].
  rewrite list_ascii_of_string_of_list_ascii, map_map.
  f_equal. rewrite <- (map_id bytes) at 2. apply map_ext.
  intros b. apply byte_of_ascii_of_byte.
Qed.

(** *** Samples: truncation, scaling, quantization *)

Local Open Scope Q_scope.
Lemma Qtrunc_comp (p q : Q) : p == q -> Qtrunc p = Qtrunc q.
Proof.
  intros H. unfold Qtrunc.
  assert (Qle_bool 0 p = Qle_bool 0 q) as ->.
  { destruct (Qle_bool 0 q) eqn:E.
    - apply Qle_bool_iff. apply Qle_bool_iff in E. now rewrite H.
    - destruct (Qle_bool 0 p) eqn:E'; [|reflexivity].
      apply Qle_bool_iff in E'. rewrite H in E'. apply Qle_bool_iff in E'. congruence. }
  destruct (Qle_bool 0 q); [now apply Qfloor_comp | now apply Qceiling_comp].
Qed.

Lemma Qtrunc_nonneg (q : Q) :
  0 <= q -> (0 <= Qtrunc q)%Z /\ inject_Z (Qtrunc q) <= q /\ q < inject_Z (Qtrunc q) + 1.
Proof.
  intros H. unfold Qtrunc. apply Qle_bool_iff in H as Hb. rewrite Hb.
  pose proof (Qfloor_le q). pose proof (Qlt_floor q).
  repeat split; try assumption.
  - change 0%Z with (Qfloor 0). now apply Qfloor_resp_le.
  - rewrite inject_Z_plus in *. assumption.
Qed.

Lemma Qtrunc_neg (q : Q) :
  q < 0 -> (Qtrunc q <= 0)%Z /\ q <= inject_Z (Qtrunc q) /\ inject_Z (Qtrunc q) - 1 < q.
Proof.
  intros H. unfold Qtrunc.
  assert (Qle_bool 0 q = false) as ->.
  { destruct (Qle_bool 0 q) eqn:E; [|reflexivity]. apply Qle_bool_iff in E. lra. }
  pose proof (Qle_ceiling q). pose proof (Qceiling_lt q).
  repeat split; try assumption.
  - change 0%Z with (Qceiling 0). apply Qceiling_resp_le. lra.
  - unfold Qminus. change (- (1))%Q with (inject_Z (-1)).
    rewrite <- inject_Z_plus. replace (Qceiling q + -1)%Z with (Qceiling q - 1)%Z by lia.
    assumption.
Qed.

Lemma pow2_pos (e : Z) : (0 <= e -> 0 < 2 ^ e)%Z.
Proof. intros. apply Z.pow_pos_nonneg; lia. Qed.

(** [truncate] reads the representation of a sample; it is the integral
    part of the number the sample denotes. *)
Lemma truncate_Qtrunc (x : spec_float) : truncate x = Qtrunc (SF2Q x).
Proof.
  destruct x as [s | s | | s m e]; try reflexivity.
  unfold truncate, SF2Q.
  destruct (0 <=? e)%Z eqn:He; [apply Z.leb_le in He | apply Z.leb_gt in He].
  - pose proof (pow2_pos e He) as Hp.
    assert (0 < Z.pos m * 2 ^ e)%Z as Hm by lia.
    unfold Qtrunc, Qle_bool, Qceiling, Qfloor, inject_Z.
    destruct s; cbn [Qopp Qnum Qden]; rewrite ?Z.div_1_r.
    + destruct (0 * 1 <=? - (Z.pos m * 2 ^ e) * 1)%Z eqn:E;
        [apply Z.leb_le in E; lia | lia].
    + destruct (0 * 1 <=? Z.pos m * 2 ^ e * 1)%Z eqn:E;
        [reflexivity | apply Z.leb_gt in E; lia].
  - assert (0 < 2 ^ (- e))%Z as Hp by (apply pow2_pos; lia).
    unfold Qtrunc, Qle_bool, Qceiling, Qfloor.
    destruct s; cbn [Qopp Qnum Qden Z.opp]; rewrite ?Z2Pos.id by assumption.
    + destruct (0 * 2 ^ (- e) <=? Z.neg m * 1)%Z eqn:E;
        [apply Z.leb_le in E; lia | reflexivity].
    + destruct (0 * 2 ^ (- e) <=? Z.pos m * 1)%Z eqn:E;
        [reflexivity | apply Z.leb_gt in E; lia].
Qed.

Lemma SF2Q_mul32768 (x : spec_float) : SF2Q (mul32768 x) == 32768 * SF2Q x.
Proof.
  destruct x as [s | s | | s m e]; try reflexivity.
  unfold mul32768, SF2Q.
  destruct (0 <=? e)%Z; destruct s;
    unfold Qeq, Qmult, Qopp, inject_Z; cbn [Qnum Qden];
    rewrite ?Pos2Z.inj_mul; ring.
Qed.

Lemma SF2Q_div32768 (v : Z) : SF2Q (div32768 v) == inject_Z v * (1 # 32768).
Proof. destruct v as [|p|p]; unfold Qeq; cbn; lia. Qed.

Lemma ToInt16_in_range (x : spec_float) :
  (-32768 <= truncate x < 32768)%Z -> ToInt16 x = truncate x.
Proof.
  intros H. unfold ToInt16.
  destruct (32768 <=? truncate x mod 65536)%Z eqn:E;
    [apply Z.leb_le in E | apply Z.leb_gt in E]; euclid.
Qed.

Lemma ToInt16_wraps (x : spec_float) :
  ToInt16 x = ((truncate x + 32768) mod 65536 - 32768)%Z.
Proof.
  unfold ToInt16.
  destruct (32768 <=? truncate x mod 65536)%Z eqn:E;
    [apply Z.leb_le in E | apply Z.leb_gt in E]; euclid.
Qed.

Lemma truncate_mul32768 (x : spec_float) :
  truncate (mul32768 x) = Qtrunc (32768 * SF2Q x).
Proof. rewrite truncate_Qtrunc. apply Qtrunc_comp, SF2Q_mul32768. Qed.

Lemma quantize_in_range (x : spec_float) :
  -1 <= SF2Q x < 1 -> (-32768 <= truncate (mul32768 x) < 32768)%Z.
Proof.
  intros [Hlo Hhi]. rewrite truncate_mul32768.
  destruct (Qlt_le_dec (32768 * SF2Q x) 0) as [Hneg|Hpos].
  - destruct (Qtrunc_neg _ Hneg) as (H0 & H1 & H2).
    assert (inject_Z (-32768) <= inject_Z (Qtrunc (32768 * SF2Q x))) as H
      by (change (inject_Z (-32768)) with (-32768 # 1); lra).
    rewrite <- Zle_Qle in H. lia.
  - destruct (Qtrunc_nonneg _ Hpos) as (H0 & H1 & H2).
    assert (inject_Z (Qtrunc (32768 * SF2Q x)) < inject_Z 32768) as H
      by (change (inject_Z 32768) with (32768 # 1); lra).
    rewrite <- Zlt_Qlt in H. lia.
Qed.

(** Inside [-1, 1) a sample and its quantization differ by less than one
    step. *)
Lemma quantize_error (x : spec_float) :
  -1 <= SF2Q x < 1 -> Qabs (SF2Q (quantize x) - SF2Q x) < 1 # 32768.
Proof.
  intros Hx. unfold quantize.
  rewrite ToInt16_in_range by now apply quantize_in_range.
  rewrite SF2Q_div32768, truncate_mul32768.
  apply Qabs_Qlt_condition.
  destruct (Qlt_le_dec (32768 * SF2Q x) 0) as [Hneg|Hpos].
  - destruct (Qtrunc_neg _ Hneg) as (H0 & H1 & H2). split; lra.
  - destruct (Qtrunc_nonneg _ Hpos) as (H0 & H1 & H2). split; lra.
Qed.

Lemma Qtrunc_nat (n : nat) : Qtrunc (Z.of_nat n # 1) = Z.of_nat n.
Proof.
  unfold Qtrunc, Qle_bool, Qfloor. cbn [Qnum Qden].
  destruct (0 * 1 <=? Z.of_nat n * 1)%Z eqn:E.
  - apply Z.div_1_r.
  - apply Z.leb_gt in E. lia.
Qed.

Lemma Qceiling_nat (n : nat) : Qceiling (Z.of_nat n # 1) = Z.of_nat n.
Proof.
  unfold Qceiling, Qfloor, Qopp. cbn [Qnum Qden]. rewrite Z.div_1_r. lia.
Qed.

(** Every implementation accepts what the standard requires. *)
Lemma accepts_required_channels (l : Limits) (n : nat) :
  (n <= 32)%nat -> accepts_channels l n = true.
Proof.
  intros H. unfold accepts_channels. apply orb_true_iff. left.
  now apply Nat.leb_le.
Qed.

Lemma accepts_required_rate (l : Limits) (r : Z) :
  (8000 <= r <= 96000)%Z -> accepts_rate l r = true.
Proof.
  intros H. unfold accepts_rate. apply orb_true_iff. left.
  apply andb_true_iff. split; apply Z.leb_le; lia.
Qed.

(** [decodeAudioData] with one channel, as the inbound path calls it. *)
Lemma decodeAudioData_mono (bytes : Uint8Array) (ctx : AudioContext) (a : Int16Array) :
  Int16Array_of_buffer bytes = Ok a ->
  a <> [] ->
  (Z.of_nat (List.length a) < 2 ^ 32)%Z ->
  decodeAudioData bytes ctx 24000 1
  = Ok {| numberOfChannels := 1; buf_length := List.length a;
          buf_sampleRate := 24000; channelData := [map div32768 a] |}.
Proof.
  intros Ha Hne Hlen. unfold decodeAudioData. rewrite Ha. cbn [rbind].
  change (Pos.of_nat 1) with 1%positive.
  unfold createBuffer, ToUint32. rewrite Qtrunc_nat, Qceiling_nat.
  rewrite Z.mod_small by lia. rewrite Nat2Z.id.
  assert (Nat.eqb (List.length a) 0 = false) as ->.
  { apply Nat.eqb_neq. destruct a; [congruence | cbn; lia]. }
  rewrite accepts_required_channels, accepts_required_rate by lia.
  cbn [Nat.eqb negb orb Z.leb Z.compare
       rbind numberOfChannels buf_length buf_sampleRate channelData seq map repeat nth].
  do 2 f_equal.
  rewrite <- (repeat_length (S754_zero false) (List.length a)) at 1.
  rewrite (fill_loop _ (fun i => sample_at a (i * 1 + 0))) by reflexivity.
  rewrite repeat_length. unfold sample_at.
  rewrite <- (map_nth_error_seq div32768 S754_nan a).
  f_equal. apply map_ext. intros i. now rewrite Nat.mul_1_r, Nat.add_0_r.
Qed.

(** The empty block does not come back: [createBuffer] refuses a length of
    zero. *)
Example roundtrip_of_empty_block_throws :
  roundtrip playback_ctx [] = Throw NotSupportedError.
Proof. reflexivity. Qed.

Lemma roundtrip_spec (ctx : AudioContext) (x : Float32Array) :
  x <> [] ->
  (Z.of_nat (List.length x) < 2 ^ 32)%Z ->
  roundtrip ctx x
  = Ok {| numberOfChannels := 1; buf_length := List.length x;
          buf_sampleRate := 24000; channelData := [map quantize x] |}.
Proof.
  intros Hne Hlen. unfold roundtrip, createBlob. cbn [data].
  rewrite decode_encode. cbn [rbind]. rewrite createBlob_int16_map.
  rewrite (decodeAudioData_mono _ ctx (map (fun v => ToInt16 (mul32768 v)) x)).
  - rewrite length_map, map_map. reflexivity.
  - apply Int16Array_of_buffer_of_Int16Array. apply Forall_map.
    apply Forall_forall. intros v _. apply ToInt16_range.
  - destruct x; [congruence | discriminate].
  - now rewrite length_map.
Qed.

(** ** Session: evaluation of the handlers *)

Local Open Scope string_scope.
Local Open Scope list_scope.
Local Open Scope Q_scope.

Lemma forEach_emit {A : Type} (f : A -> Effect) (l : list A) (s : App) :
  forEach (fun x => emit (f x)) l s = (s, map f l, Ok tt).
Proof.
  induction l as [|x l IH]; [reflexivity|].
  cbn [forEach map]. unfold bind at 1. cbn [emit]. now rewrite IH.
Qed.

Lemma forEach_emit_unfolded {A : Type} (f : A -> Effect) (l : list A) (s : App) :
  forEach (fun x s => (s, [f x], Ok tt)) l s = (s, map f l, Ok tt).
Proof. apply (forEach_emit f). Qed.

Lemma forEach_stop_source (l : list AudioBufferSourceNode) (s : App) :
  Forall (fun n => startedAt n <> None) l ->
  forEach stop_source l s = (s, map (fun n => SourceStop (node_id n)) l, Ok tt).
Proof.
  induction 1 as [|n l Hn _ IH]; [reflexivity|].
  cbn [forEach map]. unfold bind at 1, stop_source at 1, bind at 1, lift, stop, emit.
  destruct (startedAt n); [|congruence]. now rewrite IH.
Qed.

Lemma cleanUp_eval (s : App) :
  (forall z, frameIntervalRef s = Some z -> (0 < z)%Z) ->
  Forall (fun n => startedAt n <> None) (audioSourcesRef s) ->
  cleanUp s
  = (cleaned s, ConsoleLog "Cleaning up resources..." :: held_devices s, Ok tt).
Proof.
  intros Htimer Hsrc. unfold cleanUp, held_devices, cleaned, to_close.
  destruct s as [cn ca ts ci co ls sp ic oc pr fi srcs nst lv nid hst stl cls].
  cbn [frameIntervalRef audioSourcesRef] in Htimer, Hsrc.
  assert (truthy_number fi = fi) as Hfi.
  { destruct fi as [[|p|p]|]; try reflexivity. specialize (Htimer 0%Z eq_refl). lia. }
  unfold bind, get, emit, modify.
  cbn [sessionPromiseRef localStreamRef frameIntervalRef scriptProcessorRef
       inputAudioContextRef outputAudioContextRef audioSourcesRef].
  rewrite Hfi.
  destruct sp as [sp|], ls as [ls|], fi as [fi|], pr as [pr|], ic as [ic|], oc as [oc|];
    cbn -[forEach];
    rewrite ?forEach_emit_unfolded; cbn -[forEach];
    rewrite forEach_stop_source by assumption; cbn;
    rewrite ?app_nil_r; reflexivity.
Qed.

(** ** Session: the invariant *)

Ltac monad_unfold :=
  unfold bind, get, modify, emit, lift, ret, fresh, try_catch.

Lemma Inv_initial (h : Limits) : Inv (initial_on h).
Proof. constructor; cbn; try discriminate; constructor. Qed.

Lemma Inv_cleaned (s : App) : Inv (cleaned s).
Proof. constructor; cbn; try discriminate; constructor. Qed.

(** The invariant reads the refs and the allocation counter only. *)
Lemma Inv_ext (s s' : App) :
  localStreamRef s' = localStreamRef s ->
  inputAudioContextRef s' = inputAudioContextRef s ->
  outputAudioContextRef s' = outputAudioContextRef s ->
  frameIntervalRef s' = frameIntervalRef s ->
  audioSourcesRef s' = audioSourcesRef s ->
  nextObjectId s' = nextObjectId s ->
  Inv s -> Inv s'.
Proof.
  intros E1 E2 E3 E4 E5 E6 [H1 H2 H3 H4 H5 H6 H7 H8 H9].
  constructor; rewrite ?E1, ?E2, ?E3, ?E4, ?E5, ?E6; assumption.
Qed.

Lemma cleanUp_state (s : App) : Inv s -> state_of (cleanUp s) = cleaned s.
Proof.
  intros HI. rewrite cleanUp_eval; [reflexivity | apply HI | apply HI].
Qed.

Lemma cleanUp_Inv (s : App) : Inv s -> Inv (state_of (cleanUp s)).
Proof. intros H. rewrite cleanUp_state by assumption. apply Inv_cleaned. Qed.

Lemma handleStartCall_begin_Inv (s : App) :
  Inv s -> Inv (state_of (handleStartCall_begin s)).
Proof. apply Inv_ext; reflexivity. Qed.

Lemma Forall_lt_S (l : list AudioBufferSourceNode) (n : nat) :
  Forall (fun x => (node_id x < n)%nat) l ->
  Forall (fun x => (node_id x < S n)%nat) l.
Proof. apply Forall_impl. intros; lia. Qed.

Lemma handleStartCall_resume_Inv (o : MediaOutcome) (s : App) :
  admissible (EvUserMedia o) -> Inv s -> Inv (state_of (handleStartCall_resume o s)).
Proof.
  intros Ha HI. unfold handleStartCall_resume.
  destruct o as [|stream [|]].
  - unfold try_catch, lift, bind at 1, emit at 1, bind at 1, emit at 1.
    rewrite cleanUp_eval by apply HI. apply Inv_cleaned.
  - destruct HI as [H1 H2 H3 H4 H5 H6 H7 H8 H9].
    monad_unfold; cbn. constructor; cbn; try assumption.
    + intros c [= <-]. cbn. lra.
    + now apply Forall_lt_S, Forall_lt_S.
    + intros st [= <-]. exact Ha.
    + intros c [= <-]. cbn. lia.
    + intros c Hc. specialize (H8 c Hc). lia.
    + intros c d Hc [= <-]. cbn. specialize (H8 c Hc). lia.
  - assert (HI' : Inv (set_localStreamRef (Some stream) s)).
    { destruct HI as [H1 H2 H3 H4 H5 H6 H7 H8 H9].
      constructor; cbn; try assumption.
      intros st [= <-]. exact Ha. }
    unfold try_catch, bind at 1, modify at 1, bind at 1, lift at 1.
    unfold bind at 1, emit at 1, bind at 1, emit at 1.
    rewrite cleanUp_eval by apply HI'. apply Inv_cleaned.
Qed.

Lemma handleStartCall_resume_eval (o : MediaOutcome) (s : App) :
  Inv s ->
  handleStartCall_resume o s
  = match o with
    | MediaRejected =>
        (cleaned s,
         [ ConsoleError "Failed to start call:";
           Alert "Could not access camera and microphone. Please check your permissions and try again.";
           ConsoleLog "Cleaning up resources..." ] ++ held_devices s,
         Ok tt)
    | MediaGranted stream false =>
        (cleaned s,
         [ ConsoleError "Failed to start call:";
           Alert "Could not access camera and microphone. Please check your permissions and try again.";
           ConsoleLog "Cleaning up resources..." ]
         ++ held_devices (set_localStreamRef (Some stream) s),
         Ok tt)
    | MediaGranted stream true =>
        (set_sessionPromiseRef (Some (S (nextObjectId s)))
           (set_nextObjectId (S (S (nextObjectId s)))
              (set_outputAudioContextRef
                 (Some {| ctx_id := nextObjectId s; ctx_sampleRate := 24000;
                          currentTime := 0; ctx_limits := host s |})
                 (set_localStreamRef (Some stream) s))),
         [], Ok tt)
    end.
Proof.
  intros HI. unfold handleStartCall_resume. destruct o as [|stream [|]].
  - unfold try_catch, lift, bind at 1, emit at 1, bind at 1, emit at 1.
    rewrite cleanUp_eval by apply HI. reflexivity.
  - reflexivity.
  - unfold try_catch, bind at 1, modify at 1, bind at 1, lift at 1.
    unfold bind at 1, emit at 1, bind at 1, emit at 1.
    rewrite cleanUp_eval by apply HI. reflexivity.
Qed.

Lemma onopen_Inv (timer : positive) (s : App) :
  Inv s -> Inv (state_of (onopen timer s)).
Proof.
  intros [H1 H2 H3 H4 H5 H6 H7 H8 H9].
  unfold onopen. monad_unfold. cbn.
  destruct (localVideoRef s); constructor; cbn; try assumption.
  all: try (now apply Forall_lt_S, Forall_lt_S).
  all: try (intros c Hc; specialize (H7 c Hc); lia).
  all: try (intros c [= <-]; cbn; lia).
  all: try (intros c d [= <-] Hd; cbn; specialize (H7 d Hd); lia).
  all: try (intros z [= <-]; lia).
Qed.

(** ** Session: promises, microtasks and async calls *)

Lemma async_state (body : M unit) (s : App) :
  state_of (async body s) = state_of (body s).
Proof. unfold async. now destruct (body s) as [[s1 t1] r]. Qed.

Lemma async_trace (body : M unit) (s : App) :
  trace_of (async body s) = trace_of (body s).
Proof. unfold async. now destruct (body s) as [[s1 t1] r]. Qed.

Lemma async_outcome (body : M unit) (s : App) :
  outcome_of (async body s) = Ok tt.
Proof. unfold async. now destruct (body s) as [[s1 t1] r]. Qed.

Lemma forEach_close_reaction (l : list nat) (s : App) :
  forEach close_reaction l s = (s, reaction_effects s l, Ok tt).
Proof.
  induction l as [|p l IH]; [reflexivity|].
  cbn [forEach reaction_effects flat_map]. unfold bind at 1, close_reaction at 1.
  unfold bind at 1, get. fold (reaction_effects s l).
  destruct (promise_state s p); unfold emit, ret; rewrite IH; reflexivity.
Qed.

Lemma microtasks_eval (s : App) :
  microtasks s
  = (set_closing (filter (is_pending s) (closing s)) s,
     reaction_effects s (closing s), Ok tt).
Proof.
  unfold microtasks. unfold bind at 1, get. unfold bind at 1.
  rewrite forEach_close_reaction. unfold modify. cbn [app].
  now rewrite !app_nil_r.
Qed.

Lemma microtasks_Inv (s : App) : Inv s -> Inv (state_of (microtasks s)).
Proof. rewrite microtasks_eval. apply Inv_ext; reflexivity. Qed.

Lemma settle_Inv (p : nat) (b : bool) (s : App) : Inv s -> Inv (state_of (settle p b s)).
Proof.
  unfold settle, modify, state_of. cbn [fst].
  destruct (is_pending s p); [apply Inv_ext; reflexivity | auto].
Qed.

(** ** Session: [onmessage] *)

Lemma handle_transcriptions_eval (cl : Closure) (m : LiveServerMessage) (s : App) :
  handle_transcriptions cl m s = (transcribe cl m s, [], Ok tt).
Proof.
  unfold handle_transcriptions, transcribe. monad_unfold.
  destruct (inputTranscription_of m), (outputTranscription_of m), (turnComplete_of m);
    reflexivity.
Qed.

Lemma transcribe_refs (cl : Closure) (m : LiveServerMessage) (s : App) :
  let t := transcribe cl m s in
  localStreamRef t = localStreamRef s
  /\ sessionPromiseRef t = sessionPromiseRef s
  /\ inputAudioContextRef t = inputAudioContextRef s
  /\ outputAudioContextRef t = outputAudioContextRef s
  /\ scriptProcessorRef t = scriptProcessorRef s
  /\ frameIntervalRef t = frameIntervalRef s
  /\ audioSourcesRef t = audioSourcesRef s
  /\ nextStartTimeRef t = nextStartTimeRef s
  /\ nextObjectId t = nextObjectId s
  /\ isCallActive t = isCallActive s
  /\ isConnecting t = isConnecting s.
Proof.
  unfold transcribe.
  destruct (inputTranscription_of m), (outputTranscription_of m), (turnComplete_of m);
    cbn; repeat split.
Qed.

Lemma chunk_of_transcribe (cl : Closure) (m : LiveServerMessage) (s : App) :
  chunk_of (transcribe cl m s) m = chunk_of s m.
Proof.
  unfold chunk_of.
  destruct (transcribe_refs cl m s) as (_ & _ & _ & -> & _). reflexivity.
Qed.

Lemma Inv_transcribe (cl : Closure) (m : LiveServerMessage) (s : App) :
  Inv s -> Inv (transcribe cl m s).
Proof.
  destruct (transcribe_refs cl m s) as (? & ? & ? & ? & ? & ? & ? & ? & ? & ? & ?).
  apply Inv_ext; assumption.
Qed.

Lemma handle_interrupted_eval (m : LiveServerMessage) (s : App) :
  Forall (fun n => startedAt n <> None) (audioSourcesRef s) ->
  handle_interrupted m s = after_interrupted m s.
Proof.
  intros Hs. unfold handle_interrupted, after_interrupted.
  destruct (interrupted_of m); [|reflexivity].
  unfold bind at 1, get. unfold bind at 1.
  rewrite forEach_stop_source by assumption.
  monad_unfold. cbn. now rewrite !app_nil_r.
Qed.

Lemma handle_audio_output_cases (m : LiveServerMessage) (s : App) :
  audio_outcome m s (handle_audio_output m s).
Proof.
  unfold handle_audio_output.
  unfold bind at 1, lift at 1.
  destruct (base64Audio_of m) as [b|e] eqn:Eb.
  2:{ destruct e; try (exfalso; revert Eb; unfold base64Audio_of;
        repeat match goal with |- context [match ?x with _ => _ end] => destruct x end;
        discriminate).
      apply audio_no_parts; [unfold chunk_of; now rewrite Eb | exact Eb]. }
  unfold bind at 1, get.
  destruct (truthy_string b) as [b64|] eqn:Et.
  2:{ cbn. apply audio_absent. unfold chunk_of. rewrite Eb. cbn [rbind]. now rewrite Et. }
  destruct (outputAudioContextRef s) as [ctx|] eqn:Ec.
  2:{ cbn. apply audio_absent. unfold chunk_of. rewrite Eb. cbn [rbind]. now rewrite Et, Ec. }
  assert (Hchunk : chunk_of s m
            = rbind (decode b64) (fun bytes =>
                rbind (decodeAudioData bytes ctx 24000 1) (fun buf => Ok (Some buf)))).
  { unfold chunk_of. rewrite Eb. cbn [rbind]. now rewrite Et, Ec. }
  unfold bind at 1, modify at 1. unfold bind at 1, lift at 1.
  destruct (decode b64) as [bytes|e] eqn:Ed.
  2:{ cbn. apply (audio_malformed m s ctx e Ec). exact Hchunk. }
  cbn [rbind] in Hchunk.
  unfold bind at 1, lift at 1.
  destruct (decodeAudioData bytes ctx 24000 1) as [buf|e] eqn:Ea.
  2:{ cbn. apply (audio_malformed m s ctx e Ec). exact Hchunk. }
  cbn [rbind] in Hchunk.
  unfold bind at 1, fresh at 1. unfold bind at 1, get. unfold bind at 1, lift at 1, start.
  cbn [startedAt nextStartTimeRef set_nextObjectId set_nextStartTimeRef nextObjectId].
  destruct (Qle_bool 0 (Qmax (nextStartTimeRef s) (currentTime ctx))) eqn:Eq.
  - exact (audio_scheduled m s ctx buf Ec Hchunk Eq).
  - exact (audio_start_refused m s ctx buf Ec Hchunk Eq).
Qed.

Lemma set_add_fresh (n : AudioBufferSourceNode) (l : list AudioBufferSourceNode) (k : nat) :
  Forall (fun x => (node_id x < k)%nat) l -> node_id n = k ->
  set_add n l = l ++ [n].
Proof.
  intros Hl Hn. unfold set_add.
  assert (existsb (fun m => Nat.eqb (node_id m) (node_id n)) l = false) as ->; [|reflexivity].
  rewrite Hn. induction Hl as [|x l Hx _ IH]; [reflexivity|].
  cbn [existsb]. rewrite IH, orb_false_r. apply Nat.eqb_neq. lia.
Qed.

Lemma after_schedule_sources (s : App) (w : Q) (buf : AudioBuffer) :
  Forall (fun x => (node_id x < nextObjectId s)%nat) (audioSourcesRef s) ->
  audioSourcesRef (after_schedule s w buf)
  = audioSourcesRef s
    ++ [ {| node_id := nextObjectId s; node_buffer := Some buf; startedAt := Some w |} ].
Proof.
  intros H. unfold after_schedule. cbn.
  now apply set_add_fresh with (k := nextObjectId s).
Qed.

Lemma Inv_after_schedule (s : App) (w : Q) (buf : AudioBuffer) :
  Inv s -> Inv (after_schedule s w buf).
Proof.
  intros [H1 H2 H3 H4 H5 H6 H7 H8 H9].
  constructor; rewrite ?after_schedule_sources by assumption;
    unfold after_schedule; cbn; try assumption.
  - apply Forall_app. split; [assumption | repeat constructor; discriminate].
  - apply Forall_app. split; [now apply Forall_lt_S | repeat constructor; cbn; lia].
  - rewrite map_app. cbn [map node_id].
    apply NoDup_app; [assumption | repeat constructor; intros [] | ].
    intros x Hx [<-|[]]. rewrite Forall_forall in H4.
    apply in_map_iff in Hx as (y & Hy & Hin). specialize (H4 y Hin). lia.
  - intros c Hc. specialize (H7 c Hc). lia.
  - intros c Hc. specialize (H8 c Hc). lia.
Qed.

Lemma Inv_after_interrupted (m : LiveServerMessage) (s : App) :
  Inv s -> Inv (state_of (after_interrupted m s)).
Proof.
  intros HI. unfold after_interrupted. destruct (interrupted_of m); [|exact HI].
  destruct HI as [H1 H2 H3 H4 H5 H6 H7 H8 H9].
  constructor; cbn; try assumption; constructor.
Qed.

Lemma Inv_nonneg_start (s : App) (ctx : AudioContext) :
  Inv s -> outputAudioContextRef s = Some ctx ->
  Qle_bool 0 (Qmax (nextStartTimeRef s) (currentTime ctx)) = true.
Proof.
  intros HI Hc. apply Qle_bool_iff.
  pose proof (inv_clock s HI ctx Hc).
  pose proof (Q.le_max_r (nextStartTimeRef s) (currentTime ctx)). lra.
Qed.

Lemma onmessage_eval (cl : Closure) (m : LiveServerMessage) (s : App) :
  onmessage cl m s
  = match handle_audio_output m (transcribe cl m s) with
    | (s1, t1, Ok _) =>
        match handle_interrupted m s1 with
        | (s2, t2, r) => (s2, t1 ++ t2, r)
        end
    | (s1, t1, Throw e) => (s1, t1, Throw e)
    end.
Proof.
  unfold onmessage. unfold bind at 1. rewrite handle_transcriptions_eval.
  unfold bind at 1. cbn [app].
  destruct (handle_audio_output m (transcribe cl m s)) as [[s1 t1] [[]|e]];
    [|reflexivity].
  destruct (handle_interrupted m s1) as [[s2 t2] r]. reflexivity.
Qed.

(** A message without a chunk for the scheduler. *)
Lemma onmessage_no_chunk (cl : Closure) (m : LiveServerMessage) (s : App) :
  Inv s -> chunk_of s m = Ok None ->
  onmessage cl m s = after_interrupted m (transcribe cl m s).
Proof.
  intros HI Hc. rewrite onmessage_eval.
  pose proof (Inv_transcribe cl m s HI) as HIt.
  rewrite <- (chunk_of_transcribe cl m s) in Hc.
  destruct (handle_audio_output_cases m (transcribe cl m s)); try congruence.
  rewrite handle_interrupted_eval by apply HIt.
  destruct (after_interrupted m (transcribe cl m s)) as [[s2 t2] r]. reflexivity.
Qed.

(** A message with a decodable chunk. *)
Lemma onmessage_chunk (cl : Closure) (m : LiveServerMessage) (s : App) (buf : AudioBuffer) :
  Inv s -> chunk_of s m = Ok (Some buf) ->
  exists ctx,
    outputAudioContextRef s = Some ctx
    /\ onmessage cl m s
       = let startAt := Qmax (nextStartTimeRef s) (currentTime ctx) in
         match after_interrupted m (after_schedule (transcribe cl m s) startAt buf) with
         | (s2, t2, r) =>
             (s2, SourceStart (nextObjectId s) startAt (duration buf) :: t2, r)
         end.
Proof.
  intros HI Hc. rewrite onmessage_eval.
  pose proof (Inv_transcribe cl m s HI) as HIt.
  rewrite <- (chunk_of_transcribe cl m s) in Hc.
  destruct (transcribe_refs cl m s) as (_ & _ & _ & Eo & _ & _ & _ & En & Ei & _).
  destruct (handle_audio_output_cases m (transcribe cl m s))
    as [ | | | ctx buf' Hctx Hb Hq | ctx buf' Hctx Hb Hq]; try congruence.
  - rewrite (Inv_nonneg_start _ ctx HIt Hctx) in Hq. discriminate.
  - assert (buf' = buf) as -> by congruence.
    exists ctx. split; [congruence|].
    rewrite handle_interrupted_eval by apply (Inv_after_schedule _ _ _ HIt).
    rewrite En, Ei. cbn zeta.
    destruct (after_interrupted m _) as [[s2 t2] r]. reflexivity.
Qed.

(** A message whose chunk does not decode. *)
Lemma onmessage_throw (cl : Closure) (m : LiveServerMessage) (s : App) (e : JsError) :
  chunk_of s m = Throw e ->
  exists s',
    onmessage cl m s = (s', [], Throw e)
    /\ ((s' = transcribe cl m s /\ base64Audio_of m = Throw TypeError)
        \/ exists ctx, outputAudioContextRef s = Some ctx
             /\ s' = set_nextStartTimeRef
                       (Qmax (nextStartTimeRef s) (currentTime ctx))
                       (transcribe cl m s)).
Proof.
  intros Hc. rewrite onmessage_eval.
  rewrite <- (chunk_of_transcribe cl m s) in Hc.
  destruct (transcribe_refs cl m s) as (_ & _ & _ & Eo & _ & _ & _ & En & Ei & _).
  destruct (handle_audio_output_cases m (transcribe cl m s))
    as [ | H1 H2 | ctx e' Hctx He | | ]; try congruence.
  - assert (e = TypeError) as -> by congruence.
    eexists. split; [reflexivity | now left].
  - assert (e' = e) as -> by congruence.
    eexists. split; [reflexivity|]. right. exists ctx. split; [congruence|].
    now rewrite En.
Qed.

Lemma onmessage_Inv (cl : Closure) (m : LiveServerMessage) (s : App) :
  Inv s -> Inv (state_of (onmessage cl m s)).
Proof.
  intros HI. pose proof (Inv_transcribe cl m s HI) as HIt.
  destruct (chunk_of s m) as [[buf|]|e] eqn:Hc.
  - destruct (onmessage_chunk cl m s buf HI Hc) as (ctx & _ & ->). cbn zeta.
    pose proof (Inv_after_interrupted m _ (Inv_after_schedule _
                  (Qmax (nextStartTimeRef s) (currentTime ctx)) buf HIt)) as H.
    destruct (after_interrupted m _) as [[s2 t2] r]. exact H.
  - rewrite (onmessage_no_chunk cl m s HI Hc). now apply Inv_after_interrupted.
  - destruct (onmessage_throw cl m s e Hc) as (s' & -> & [[-> _] | (ctx & _ & ->)]);
      [exact HIt | revert HIt; apply Inv_ext; reflexivity].
Qed.

Lemma set_delete_incl (id : nat) (l : list AudioBufferSourceNode) :
  incl (set_delete id l) l.
Proof. intros x Hx. apply filter_In in Hx. tauto. Qed.

Lemma set_delete_NoDup (id : nat) (l : list AudioBufferSourceNode) :
  NoDup (map node_id l) -> NoDup (map node_id (set_delete id l)).
Proof.
  unfold set_delete. induction l as [|n l IH]; intros H; [constructor|].
  cbn [map] in H. apply NoDup_cons_iff in H as [Hn Hl]. cbn [filter].
  destruct (negb (Nat.eqb (node_id n) id)); [|now apply IH].
  cbn [map]. constructor; [|now apply IH].
  intros Hin. apply Hn. apply in_map_iff in Hin as (y & Hy & Hin).
  apply in_map_iff. exists y. split; [assumption|]. apply filter_In in Hin. tauto.
Qed.

Lemma onended_Inv (id : nat) (s : App) : Inv s -> Inv (state_of (onended id s)).
Proof.
  intros [H1 H2 H3 H4 H5 H6 H7 H8 H9].
  constructor; cbn; try assumption.
  - eapply incl_Forall; [apply set_delete_incl | assumption].
  - eapply incl_Forall; [apply set_delete_incl | assumption].
  - now apply set_delete_NoDup.
Qed.

Lemma clock_Inv (dt : Q) (s : App) : 0 <= dt -> Inv s -> Inv (state_of (clock dt s)).
Proof.
  intros Hdt [H1 H2 H3 H4 H5 H6 H7 H8 H9].
  constructor; cbn; try assumption; unfold advance;
    destruct (outputAudioContextRef s) as [c|]; try discriminate.
  - intros c' [= <-]. cbn. specialize (H1 c eq_refl). lra.
  - intros c' [= <-]. cbn. now apply H7.
  - intros c' d Hc [= <-]. cbn. now apply H9.
Qed.

Lemma dispatch_Inv (ev : Event) (s : App) :
  admissible ev -> Inv s -> Inv (state_of (dispatch ev s)).
Proof.
  intros Ha HI. destruct ev; cbn [dispatch].
  - unfold bind. pose proof (handleStartCall_begin_Inv s HI) as H.
    destruct (handleStartCall_begin s) as [[s1 t1] [a|e]]; exact H.
  - rewrite async_state. now apply handleStartCall_resume_Inv.
  - now apply onopen_Inv.
  - unfold onaudioprocess. monad_unfold. destruct (sessionPromiseRef s); exact HI.
  - rewrite async_state. now apply onmessage_Inv.
  - unfold onerror, bind at 1, emit at 1, bind at 1, emit at 1.
    rewrite cleanUp_eval by apply HI. apply Inv_cleaned.
  - unfold onclose, bind at 1, emit at 1.
    rewrite cleanUp_eval by apply HI. apply Inv_cleaned.
  - now apply cleanUp_Inv.
  - unfold unmount, bind at 1, modify at 1.
    assert (HI' : Inv (set_localVideoRef false s)) by (revert HI; apply Inv_ext; reflexivity).
    rewrite cleanUp_eval by apply HI'. apply Inv_cleaned.
  - now apply onended_Inv.
  - now apply clock_Inv.
  - now apply settle_Inv.
Qed.

Theorem reachable_Inv (s : App) : reachable s -> Inv s.
Proof.
  induction 1 as [h | s ev _ IH Ha | s _ IH];
    [apply Inv_initial | now apply dispatch_Inv | now apply microtasks_Inv].
Qed.

Lemma run_app (evs1 evs2 : list Event) (s : App) :
  run (evs1 ++ evs2) s
  = match run evs1 s with
    | (s1, t1) => match run evs2 s1 with (s2, t2) => (s2, t1 ++ t2) end
    end.
Proof.
  revert s. induction evs1 as [|ev evs1 IH]; intros s; cbn [run app].
  - destruct (run evs2 s); reflexivity.
  - destruct (dispatch ev s) as [[s1 t1] r].
    destruct (microtasks s1) as [[s1' t1'] r']. rewrite IH.
    destruct (run evs1 s1') as [s2 t2]. destruct (run evs2 s2) as [s3 t3].
    now rewrite <- !app_assoc.
Qed.

Lemma reachable_run (evs : list Event) (s : App) :
  reachable s -> Forall admissible evs -> reachable (fst (run evs s)).
Proof.
  revert s. induction evs as [|ev evs IH]; intros s Hs Ha; [exact Hs|].
  inversion Ha as [|? ? Hev Hevs]; subst. cbn [run].
  pose proof (reach_microtasks _ (reach_step s ev Hs Hev)) as H1.
  destruct (dispatch ev s) as [[s1 t1] r]. cbn [state_of fst] in H1.
  destruct (microtasks s1) as [[s1' t1'] r']. cbn [state_of fst] in H1.
  specialize (IH s1' H1 Hevs). destruct (run evs s1') as [s2 t2]. exact IH.
Qed.

(** ** The claims about the wire codec *)

(** On binary32 operands the model of [data[i] * 32768] is the binary64
    product that [SFmul] computes. *)
Example mul32768_is_binary64_product :
  Forall (fun x => SFmul 53 1024 x (S754_finite false 32768 0) = mul32768 x)
    [f32_one; f32_minus_one; f32_half; f32_three_halves; f32_min_subnormal;
     f32_max; S754_zero false; S754_zero true; S754_nan; S754_infinity true].
Proof. repeat constructor. Qed.

Lemma same_sample_ToInt16 (x y : spec_float) :
  same_sample x y -> ToInt16 (mul32768 x) = ToInt16 (mul32768 y).
Proof.
  intros [-> | (_ & _ & H)]; [reflexivity|].
  unfold ToInt16. rewrite !truncate_mul32768.
  rewrite (Qtrunc_comp (32768 * SF2Q x) (32768 * SF2Q y)); [reflexivity|].
  now rewrite H.
Qed.

(** C9.  Encoding is deterministic, and more: the encoded bytes depend on
    the numbers the block holds only.  Two blocks that hold, sample by
    sample, the same number (in particular two presentations of the same
    block) yield the same blob, text and MIME type alike. *)
Theorem createBlob_deterministic (x y : Float32Array) :
  Forall2 same_sample x y -> createBlob x = createBlob y.
Proof.
  intros H. unfold createBlob. do 3 f_equal.
  rewrite !createBlob_int16_map.
  induction H as [|a b x y Hab _ IH]; [reflexivity|].
  cbn [map]. now rewrite (same_sample_ToInt16 a b Hab), IH.
Qed.

Lemma createBlob_deterministic_witness :
  Forall2 same_sample [S754_zero false; f32_half; S754_finite false 1 (-1)]
                      [S754_zero true; f32_half; f32_half]
  /\ createBlob [S754_zero false; f32_half; S754_finite false 1 (-1)]
     = createBlob [S754_zero true; f32_half; f32_half].
Proof.
  assert (H : Forall2 same_sample [S754_zero false; f32_half; S754_finite false 1 (-1)]
                                  [S754_zero true; f32_half; f32_half]).
  { constructor; [right; repeat split; reflexivity|].
    constructor; [left; reflexivity|].
    constructor; [right; repeat split; reflexivity | constructor]. }
  split; [exact H | exact (createBlob_deterministic _ _ H)].
Defined.

(** What a receiver reads from the blob of any block: every sample times
    32768, cut to its integral part and wrapped. *)
Lemma samples_of_createBlob (d : Float32Array) :
  samples_of (createBlob d)
  = Ok (map (fun x => wrap16 (Qtrunc (32768 * SF2Q x))) d).
Proof.
  unfold samples_of, createBlob. cbn [data].
  rewrite decode_encode. cbn [rbind]. rewrite createBlob_int16_map.
  rewrite Int16Array_of_buffer_of_Int16Array.
  - f_equal. apply map_ext. intros x.
    now rewrite ToInt16_wraps, truncate_mul32768.
  - apply Forall_map, Forall_forall. intros x _. apply ToInt16_range.
Qed.

Lemma wrap16_above (q : Q) :
  32768 <= q < 65536 ->
  wrap16 (Qtrunc q) = (Qtrunc q - 65536)%Z /\ (-32768 <= Qtrunc q - 65536 < 0)%Z.
Proof.
  intros [Hlo Hhi].
  destruct (Qtrunc_nonneg q) as (H0 & H1 & H2); [lra|].
  assert (inject_Z 32768 < inject_Z (Qtrunc q) + 1) as Ha
    by (change (inject_Z 32768) with (32768 # 1); lra).
  assert (inject_Z (Qtrunc q) < inject_Z 65536) as Hb
    by (change (inject_Z 65536) with (65536 # 1); lra).
  change (inject_Z (Qtrunc q) + 1) with (inject_Z (Qtrunc q) + inject_Z 1) in Ha.
  rewrite <- inject_Z_plus, <- Zlt_Qlt in Ha. rewrite <- Zlt_Qlt in Hb.
  unfold wrap16. split; [euclid | lia].
Qed.

(** C10.  [createBlob] does not clamp.  For every block, the 16-bit samples
    its blob carries are the integral parts of 32768 times the samples,
    wrapped modulo 2^16 into [-32768, 32767].  A sample from 1 up to 2, which
    clamping would store as 32767, is stored as its scaled value less 65536,
    a negative number; a sample of exactly 1.0, wherever it stands in the
    block, is stored as -32768. *)
Theorem createBlob_wraps_instead_of_clamping (d : Float32Array) :
  samples_of (createBlob d)
  = Ok (map (fun x => wrap16 (Qtrunc (32768 * SF2Q x))) d)
  /\ (forall i x,
        nth_error d i = Some x ->
        1 <= SF2Q x < 2 ->
        exists a,
          samples_of (createBlob d) = Ok a
          /\ nth_error a i = Some (Qtrunc (32768 * SF2Q x) - 65536)%Z
          /\ (-32768 <= Qtrunc (32768 * SF2Q x) - 65536 < 0)%Z)
  /\ (forall i,
        nth_error d i = Some f32_one ->
        exists a,
          samples_of (createBlob d) = Ok a
          /\ nth_error a i = Some (-32768)%Z).
Proof.
  split; [apply samples_of_createBlob|].
  assert (H : forall i x,
             nth_error d i = Some x ->
             1 <= SF2Q x < 2 ->
             exists a,
               samples_of (createBlob d) = Ok a
               /\ nth_error a i = Some (Qtrunc (32768 * SF2Q x) - 65536)%Z
               /\ (-32768 <= Qtrunc (32768 * SF2Q x) - 65536 < 0)%Z).
  { intros i x Hi Hx. eexists. split; [apply samples_of_createBlob|].
    destruct (wrap16_above (32768 * SF2Q x)) as [Hw Hr]; [lra|].
    split; [|exact Hr].
    rewrite (map_nth_error _ _ _ Hi). now rewrite Hw. }
  split; [exact H|].
  intros i Hi. destruct (H i f32_one Hi) as (a & Ha & Hn & _).
  - split; [discriminate | reflexivity].
  - exists a. split; [exact Ha | exact Hn].
Qed.

Lemma createBlob_wraps_instead_of_clamping_witness :
  nth_error [f32_half; f32_one; f32_three_halves] 2 = Some f32_three_halves
  /\ 1 <= SF2Q f32_three_halves < 2
  /\ samples_of (createBlob [f32_half; f32_one; f32_three_halves])
     = Ok [16384; -32768; -16384]%Z
  /\ data (createBlob [f32_half; f32_one; f32_three_halves]) = "AEAAgADA"%string.
Proof.
  assert (H1 : 1 <= SF2Q f32_three_halves < 2) by (split; [discriminate | reflexivity]).
  destruct (createBlob_wraps_instead_of_clamping [f32_half; f32_one; f32_three_halves])
    as (E & H & _).
  destruct (H 2%nat f32_three_halves eq_refl H1) as (a & Ha & _).
  split; [reflexivity|]. split; [exact H1|]. split; [|vm_compute; reflexivity].
  rewrite E. vm_compute. reflexivity.
Defined.

(** C4, where it fails: a block holding the sample 1.0 comes back as -1.0,
    two whole units away. *)
Lemma roundtrip_of_full_scale_is_minus_one :
  roundtrip playback_ctx [f32_one]
  = Ok {| numberOfChannels := 1; buf_length := 1; buf_sampleRate := 24000;
          channelData := [[S754_finite true 32768 (-15)]] |}
  /\ SF2Q f32_one == 1
  /\ SF2Q (S754_finite true 32768 (-15)) == -1
  /\ ~ (Qabs (SF2Q (S754_finite true 32768 (-15)) - SF2Q f32_one) <= 1 # 32768).
Proof.
  repeat split. intros H. vm_compute in H. apply H. reflexivity.
Qed.

(** C4, amended.  For every non-empty block (of fewer than 2^32 samples)
    the decoder reproduces the block quantized: the buffer has one channel
    holding [quantize] of every sample, where [quantize x] is the integral
    part of 32768 x wrapped into 16 bits, over 32768.  For every finite
    sample with -1 <= x < 1 the error is below one quantization step. *)
Theorem roundtrip_quantizes (ctx : AudioContext) (x : Float32Array) :
  x <> [] ->
  (Z.of_nat (List.length x) < 2 ^ 32)%Z ->
  roundtrip ctx x
  = Ok {| numberOfChannels := 1; buf_length := List.length x;
          buf_sampleRate := 24000; channelData := [map quantize x] |}
  /\ forall i xi,
       nth_error x i = Some xi ->
       is_finite_sample xi = true ->
       -1 <= SF2Q xi < 1 ->
       nth_error (map quantize x) i = Some (quantize xi)
       /\ SF2Q (quantize xi) == inject_Z (Qtrunc (32768 * SF2Q xi)) * (1 # 32768)
       /\ Qabs (SF2Q (quantize xi) - SF2Q xi) < 1 # 32768.
Proof.
  intros Hne Hlen. split; [now apply roundtrip_spec|].
  intros i xi Hi _ Hx. split; [now apply map_nth_error|]. split.
  - unfold quantize. rewrite ToInt16_in_range by now apply quantize_in_range.
    now rewrite SF2Q_div32768, truncate_mul32768.
  - now apply quantize_error.
Qed.

Lemma roundtrip_quantizes_witness :
  [f32_half; f32_minus_one] <> []
  /\ (Z.of_nat (List.length [f32_half; f32_minus_one]) < 2 ^ 32)%Z
  /\ roundtrip playback_ctx [f32_half; f32_minus_one]
     = Ok {| numberOfChannels := 1; buf_length := 2; buf_sampleRate := 24000;
             channelData := [map quantize [f32_half; f32_minus_one]] |}
  /\ Qabs (SF2Q (quantize f32_half) - SF2Q f32_half) < 1 # 32768.
Proof.
  assert (H1 : [f32_half; f32_minus_one] <> []) by discriminate.
  assert (H2 : (Z.of_nat (List.length [f32_half; f32_minus_one]) < 2 ^ 32)%Z)
    by reflexivity.
  destruct (roundtrip_quantizes playback_ctx [f32_half; f32_minus_one] H1 H2)
    as [Hr Hq].
  assert (H3 : -1 <= SF2Q f32_half < 1) by (split; [discriminate | reflexivity]).
  destruct (Hq 0%nat f32_half eq_refl eq_refl H3) as (_ & _ & He).
  exact (conj H1 (conj H2 (conj Hr He))).
Defined.

(** ** The playback scheduler *)

Lemma forEach_stop_source_trace (l : list AudioBufferSourceNode) (s : App) :
  Forall (fun e => exists id, e = SourceStop id) (trace_of (forEach stop_source l s)).
Proof.
  induction l as [|n l IH]; [constructor|].
  cbn [forEach]. unfold bind at 1, stop_source at 1, bind at 1, lift, stop, emit.
  destruct (startedAt n); [|constructor].
  destruct (forEach stop_source l s) as [[s2 t2] r] eqn:E.
  cbn. constructor; [now exists (node_id n) | exact IH].
Qed.

Lemma handle_interrupted_trace (m : LiveServerMessage) (s : App) :
  Forall (fun e => exists id, e = SourceStop id) (trace_of (handle_interrupted m s)).
Proof.
  unfold handle_interrupted. destruct (interrupted_of m); [|constructor].
  unfold bind at 1, get. unfold bind at 1.
  pose proof (forEach_stop_source_trace (audioSourcesRef s) s) as H.
  destruct (forEach stop_source (audioSourcesRef s) s) as [[s1 t1] [[]|e]];
    cbn in *; rewrite ?app_nil_r; exact H.
Qed.

Lemma handle_interrupted_false (m : LiveServerMessage) (s : App) :
  interrupted_of m = false -> handle_interrupted m s = (s, [], Ok tt).
Proof. intros H. unfold handle_interrupted. now rewrite H. Qed.

(** Whenever [onmessage] starts a source, it starts it at the larger of the
    cursor and the device clock, for the duration of the decoded chunk. *)
Lemma onmessage_start_time (cl : Closure) (m : LiveServerMessage) (s : App)
    (id : nat) (w d : Q) :
  In (SourceStart id w d) (trace_of (onmessage cl m s)) ->
  exists ctx buf,
    outputAudioContextRef s = Some ctx
    /\ chunk_of s m = Ok (Some buf)
    /\ w = Qmax (nextStartTimeRef s) (currentTime ctx)
    /\ d = duration buf
    /\ id = nextObjectId s.
Proof.
  rewrite onmessage_eval.
  destruct (transcribe_refs cl m s) as (_ & _ & _ & Eo & _ & _ & _ & En & Ei & _).
  pose proof (chunk_of_transcribe cl m s) as Ec.
  destruct (handle_audio_output_cases m (transcribe cl m s))
    as [ | | | | ctx buf Hctx Hb Hq ]; try (cbn; tauto).
  - pose proof (handle_interrupted_trace m (transcribe cl m s)) as Ht.
    destruct (handle_interrupted m (transcribe cl m s)) as [[s2 t2] r].
    cbn in *. intros Hin. rewrite Forall_forall in Ht.
    destruct (Ht _ Hin) as (? & ?). discriminate.
  - pose proof (handle_interrupted_trace m
                  (after_schedule (transcribe cl m s)
                     (Qmax (nextStartTimeRef (transcribe cl m s)) (currentTime ctx))
                     buf)) as Ht.
    destruct (handle_interrupted m _) as [[s2 t2] r].
    cbn in *. intros [Hin|Hin].
    + injection Hin as <- <- <-. exists ctx, buf.
      repeat split; congruence.
    + rewrite Forall_forall in Ht. destruct (Ht _ Hin) as (? & ?). discriminate.
Qed.

Lemma duration_nonneg (buf : AudioBuffer) : 0 <= duration buf.
Proof. unfold duration, Qle. cbn. lia. Qed.

(** Without an interruption signal [onmessage] does not move the cursor
    back, whichever way the audio part goes. *)
Lemma onmessage_cursor_monotone (cl : Closure) (m : LiveServerMessage) (s : App) :
  interrupted_of m = false ->
  nextStartTimeRef s <= nextStartTimeRef (state_of (onmessage cl m s)).
Proof.
  intros Hi. rewrite onmessage_eval.
  destruct (transcribe_refs cl m s) as (_ & _ & _ & Eo & _ & _ & _ & En & Ei & _).
  destruct (handle_audio_output_cases m (transcribe cl m s))
    as [ | | ctx e Hctx He | ctx buf Hctx Hb Hq | ctx buf Hctx Hb Hq ];
    rewrite ?handle_interrupted_false by assumption; cbn; rewrite ?En.
  - apply Qle_refl.
  - apply Qle_refl.
  - apply Q.le_max_l.
  - apply Q.le_max_l.
  - pose proof (Q.le_max_l (nextStartTimeRef s) (currentTime ctx)).
    pose proof (duration_nonneg buf). lra.
Qed.

Lemma scheduled_app (t1 t2 : list Effect) :
  scheduled (t1 ++ t2) = scheduled t1 ++ scheduled t2.
Proof.
  induction t1 as [|e t1 IH]; [reflexivity|].
  destruct e; cbn [app scheduled]; rewrite IH; reflexivity.
Qed.

Lemma chained_from_weaken (c c' : Q) (l : list (Q * Q)) :
  c' <= c -> chained_from c l -> chained_from c' l.
Proof.
  destruct l as [|[w d] l]; [trivial|]. cbn. intros H [H1 H2]. split; [lra | exact H2].
Qed.

Lemma chained_no_overlap (c : Q) (l : list (Q * Q)) :
  chained_from c l -> no_overlap l.
Proof.
  revert c. induction l as [|[w d] l IH]; intros c H k w1 d1 w2 d2 H1 H2.
  - destruct k; discriminate.
  - destruct H as [_ H]. destruct k as [|k].
    + cbn in H1, H2. injection H1 as <- <-.
      destruct l as [|[w' d'] l]; [discriminate|].
      cbn in H2. injection H2 as <- <-. apply H.
    + cbn in H1, H2. exact (IH _ H k w1 d1 w2 d2 H1 H2).
Qed.

(** One event of undisturbed playback either starts nothing and leaves the
    cursor where it is or further on, or starts one source at or after the
    cursor and moves the cursor to the end of that source. *)
Lemma playback_step (ev : Event) (s : App) :
  Inv s -> playback_only ev ->
  (scheduled (trace_of (dispatch ev s)) = []
   /\ nextStartTimeRef s <= nextStartTimeRef (state_of (dispatch ev s)))
  \/ (exists w d,
        scheduled (trace_of (dispatch ev s)) = [(w, d)]
        /\ nextStartTimeRef s <= w
        /\ nextStartTimeRef (state_of (dispatch ev s)) = w + d).
Proof.
  intros HI Hp. destruct ev; cbn in Hp; try contradiction; cbn [dispatch];
    rewrite ?async_trace, ?async_state.
  - left. unfold onaudioprocess. monad_unfold.
    destruct (sessionPromiseRef s); cbn; split; try reflexivity; apply Qle_refl.
  - destruct (transcribe_refs cl message s) as (_ & _ & _ & Eo & _ & _ & _ & En & Ei & _).
    destruct (chunk_of s message) as [[buf|]|e] eqn:Hc.
    + right. destruct (onmessage_chunk cl message s buf HI Hc) as (ctx & Hctx & ->).
      cbn zeta. unfold after_interrupted. rewrite Hp.
      exists (Qmax (nextStartTimeRef s) (currentTime ctx)), (duration buf).
      cbn. repeat split. apply Q.le_max_l.
    + left. rewrite (onmessage_no_chunk cl message s HI Hc).
      unfold after_interrupted. rewrite Hp. cbn. rewrite En.
      split; [reflexivity | apply Qle_refl].
    + left. destruct (onmessage_throw cl message s e Hc)
        as (s' & -> & [[-> _] | (ctx & _ & ->)]); cbn; rewrite ?En;
        (split; [reflexivity|]); [apply Qle_refl | apply Q.le_max_l].
  - left. cbn. split; [reflexivity | apply Qle_refl].
  - left. cbn. split; [reflexivity | apply Qle_refl].
Qed.

(** The microtask checkpoint starts no source and leaves the cursor. *)
Lemma scheduled_reaction_effects (s : App) (l : list nat) :
  scheduled (reaction_effects s l) = [].
Proof.
  induction l as [|p l IH]; [reflexivity|].
  cbn [reaction_effects flat_map]. fold (reaction_effects s l).
  rewrite scheduled_app, IH. now destruct (promise_state s p).
Qed.

Lemma run_chained (evs : list Event) (s : App) :
  Inv s -> Forall admissible evs -> Forall playback_only evs ->
  chained_from (nextStartTimeRef s) (scheduled (snd (run evs s))).
Proof.
  revert s. induction evs as [|ev evs IH]; intros s HI Ha Hp; [exact I|].
  inversion Ha as [|? ? Hev Hevs]; subst. inversion Hp as [|? ? Hpev Hpevs]; subst.
  cbn [run].
  pose proof (dispatch_Inv ev s Hev HI) as HI1.
  pose proof (playback_step ev s HI Hpev) as Hstep.
  destruct (dispatch ev s) as [[s1 t1] r]. cbn [state_of trace_of fst snd] in *.
  pose proof (microtasks_Inv s1 HI1) as HI2.
  rewrite microtasks_eval in HI2 |- *. cbn [state_of fst] in HI2.
  specialize (IH _ HI2 Hevs Hpevs).
  destruct (run evs _) as [s2 t2]. cbn [snd] in *.
  rewrite !scheduled_app, scheduled_reaction_effects. cbn [app].
  change (nextStartTimeRef (set_closing (filter (is_pending s1) (closing s1)) s1))
    with (nextStartTimeRef s1) in IH.
  destruct Hstep as [[-> Hle] | (w & d & -> & Hle & Hcur)]; cbn [app].
  - now apply chained_from_weaken with (c := nextStartTimeRef s1).
  - cbn. split; [exact Hle | now rewrite <- Hcur].
Qed.

Lemma admissible_one_chunk_playing : Forall admissible one_chunk_playing.
Proof.
  repeat constructor; cbn; try discriminate.
  - intros [H|[]]. discriminate.
  - intros [].
Qed.

Lemma reachable_playing : reachable playing.
Proof.
  apply reachable_run; [apply (reach_initial required) | apply admissible_one_chunk_playing].
Qed.

(** ** The claims about the playback scheduler *)

(** C1, where it fails: five seconds into the call, with one source playing,
    an interruption signal empties the active set and leaves the cursor at
    the constant 0, below the device clock. *)
Lemma interruption_rewinds_cursor_below_clock :
  audioSourcesRef playing
  = [ {| node_id := 4;
         node_buffer := Some {| numberOfChannels := 1; buf_length := 3;
                                buf_sampleRate := 24000;
                                channelData :=
                                  [[S754_finite true 32768 (-15);
                                    S754_finite false 16384 (-15);
                                    S754_finite true 32768 (-15)]] |};
         startedAt := Some (Qmax 0 (0 + 5)) |} ]
  /\ outputAudioContextRef (state_of (onmessage first_closure interruption playing))
     = Some {| ctx_id := 0; ctx_sampleRate := 24000; currentTime := 0 + 5;
               ctx_limits := required |}
  /\ outcome_of (onmessage first_closure interruption playing) = Ok tt
  /\ audioSourcesRef (state_of (onmessage first_closure interruption playing)) = []
  /\ nextStartTimeRef (state_of (onmessage first_closure interruption playing)) = 0
  /\ ~ (0 + 5 <= nextStartTimeRef (state_of (onmessage first_closure interruption playing))).
Proof.
  repeat split. intros H. vm_compute in H. apply H. reflexivity.
Qed.

(** C1, amended.  For every interruption signal received in a reachable
    state, in a message whose audio part (if any) decodes, the handler
    returns, stops every source that was active and the one the same message
    started, leaves the active set empty and sets the cursor to 0.  The next
    scheduling decision, whenever it comes, clamps the cursor to the device
    clock: the next source starts at [max(0, currentTime)], which is not
    before the clock. *)
Theorem interruption_stops_sources_and_rewinds
    (s : App) (cl : Closure) (m : LiveServerMessage) :
  reachable s ->
  interrupted_of m = true ->
  (forall e, chunk_of s m <> Throw e) ->
  outcome_of (onmessage cl m s) = Ok tt
  /\ (forall n, In n (audioSourcesRef s) ->
        In (SourceStop (node_id n)) (trace_of (onmessage cl m s)))
  /\ (forall id w d, In (SourceStart id w d) (trace_of (onmessage cl m s)) ->
        In (SourceStop id) (trace_of (onmessage cl m s)))
  /\ audioSourcesRef (state_of (onmessage cl m s)) = []
  /\ nextStartTimeRef (state_of (onmessage cl m s)) = 0
  /\ (forall dt cl' m' id w d,
        0 <= dt ->
        In (SourceStart id w d)
           (trace_of (onmessage cl' m' (state_of (clock dt (state_of (onmessage cl m s)))))) ->
        exists ctx,
          outputAudioContextRef (state_of (clock dt (state_of (onmessage cl m s))))
          = Some ctx
          /\ w = Qmax 0 (currentTime ctx)
          /\ currentTime ctx <= w).
Proof.
  intros Hr Hi Hok. pose proof (reachable_Inv s Hr) as HI.
  pose proof (Inv_transcribe cl m s HI) as HIt.
  destruct (transcribe_refs cl m s) as (_ & _ & _ & Eo & _ & _ & Es & En & Ei & _).
  assert (Hnext : forall r : App * list Effect * result unit,
             nextStartTimeRef (state_of r) = 0 ->
             forall dt cl' m' id w d,
               0 <= dt ->
               In (SourceStart id w d)
                  (trace_of (onmessage cl' m' (state_of (clock dt (state_of r))))) ->
               exists ctx,
                 outputAudioContextRef (state_of (clock dt (state_of r))) = Some ctx
                 /\ w = Qmax 0 (currentTime ctx) /\ currentTime ctx <= w).
  { intros r Hz dt cl' m' id w d _ Hin.
    apply onmessage_start_time in Hin as (ctx & buf & Hctx & _ & Hw & _).
    exists ctx. split; [exact Hctx|]. cbn in Hw. rewrite Hz in Hw.
    split; [exact Hw | rewrite Hw; apply Q.le_max_r]. }
  destruct (chunk_of s m) as [[buf|]|e] eqn:Hc; [| | now destruct (Hok e)].
  - destruct (onmessage_chunk cl m s buf HI Hc) as (ctx & Hctx & E).
    cbn zeta in E. unfold after_interrupted in E. rewrite Hi in E.
    rewrite after_schedule_sources in E by (rewrite Es, Ei; apply HI).
    rewrite Es, map_app in E. cbn [map node_id] in E.
    split; [now rewrite E|]. split; [|split; [|split; [|split]]].
    + intros n Hn. rewrite E. cbn. right. apply in_or_app. left.
      apply in_map_iff. now exists n.
    + intros id w d. rewrite E. cbn. intros [Hin|Hin].
      * injection Hin as <- _ _. right. apply in_or_app. right. rewrite Ei. now left.
      * apply in_app_or in Hin as [Hin|[Hin|[]]]; [|discriminate].
        apply in_map_iff in Hin as (? & ? & _). discriminate.
    + now rewrite E.
    + now rewrite E.
    + apply Hnext. now rewrite E.
  - pose proof (onmessage_no_chunk cl m s HI Hc) as E.
    unfold after_interrupted in E. rewrite Hi, Es in E.
    split; [now rewrite E|]. split; [|split; [|split; [|split]]].
    + intros n Hn. rewrite E. cbn. apply in_map_iff. now exists n.
    + intros id w d. rewrite E. cbn. intros Hin.
      apply in_map_iff in Hin as (? & ? & _). discriminate.
    + now rewrite E.
    + now rewrite E.
    + apply Hnext. now rewrite E.
Qed.

Lemma interruption_stops_sources_and_rewinds_witness :
  reachable playing
  /\ interrupted_of interruption = true
  /\ (forall e, chunk_of playing interruption <> Throw e)
  /\ In (SourceStop 4) (trace_of (onmessage first_closure interruption playing))
  /\ audioSourcesRef (state_of (onmessage first_closure interruption playing)) = []
  /\ nextStartTimeRef (state_of (onmessage first_closure interruption playing)) = 0.
Proof.
  assert (H3 : forall e, chunk_of playing interruption <> Throw e) by discriminate.
  destruct (interruption_stops_sources_and_rewinds playing first_closure interruption
              reachable_playing eq_refl H3) as (_ & Hstop & _ & Hempty & Hzero & _).
  split; [exact reachable_playing|]. split; [reflexivity|]. split; [exact H3|].
  split; [|split; [exact Hempty | exact Hzero]].
  apply (Hstop {| node_id := 4;
                  node_buffer := Some {| numberOfChannels := 1; buf_length := 3;
                                         buf_sampleRate := 24000;
                                         channelData :=
                                           [[S754_finite true 32768 (-15);
                                             S754_finite false 16384 (-15);
                                             S754_finite true 32768 (-15)]] |};
                  startedAt := Some (Qmax 0 (0 + 5)) |}).
  vm_compute. left. reflexivity.
Defined.

(** C2.  In every run of undisturbed playback from a reachable state
    (messages without an interruption signal, clock ticks, ended sources,
    captured audio, in any order), no source starts before the source
    scheduled before it has ended; and every message that carries a
    decodable chunk starts exactly one source, at the larger of the cursor
    and the device clock, and advances the cursor to that start plus the
    duration of the chunk. *)
Theorem chunks_are_scheduled_back_to_back (s : App) (evs : list Event) :
  reachable s ->
  Forall admissible evs ->
  Forall playback_only evs ->
  no_overlap (scheduled (snd (run evs s)))
  /\ forall pre cl m post buf,
       evs = pre ++ EvMessage cl m :: post ->
       chunk_of (fst (run pre s)) m = Ok (Some buf) ->
       exists ctx,
         outputAudioContextRef (fst (run pre s)) = Some ctx
         /\ outcome_of (onmessage cl m (fst (run pre s))) = Ok tt
         /\ trace_of (onmessage cl m (fst (run pre s)))
            = [ SourceStart (nextObjectId (fst (run pre s)))
                  (Qmax (nextStartTimeRef (fst (run pre s))) (currentTime ctx))
                  (duration buf) ]
         /\ nextStartTimeRef (state_of (onmessage cl m (fst (run pre s))))
            = Qmax (nextStartTimeRef (fst (run pre s))) (currentTime ctx) + duration buf
         /\ In {| node_id := nextObjectId (fst (run pre s));
                  node_buffer := Some buf;
                  startedAt := Some (Qmax (nextStartTimeRef (fst (run pre s)))
                                       (currentTime ctx)) |}
               (audioSourcesRef (state_of (onmessage cl m (fst (run pre s))))).
Proof.
  intros Hr Ha Hp. split.
  - apply chained_no_overlap with (c := nextStartTimeRef s).
    apply run_chained; [now apply reachable_Inv | assumption | assumption].
  - intros pre cl m post buf -> Hc.
    apply Forall_app in Ha as [Hpre _]. apply Forall_app in Hp as [_ Hm].
    inversion Hm as [|? ? Hi _]; subst. cbn in Hi.
    pose proof (reachable_Inv _ (reachable_run pre s Hr Hpre)) as HI.
    destruct (transcribe_refs cl m (fst (run pre s)))
      as (_ & _ & _ & Eo & _ & _ & Es & En & Ei & _).
    destruct (onmessage_chunk cl m _ buf HI Hc) as (ctx & Hctx & E).
    cbn zeta in E. unfold after_interrupted in E. rewrite Hi in E.
    exists ctx. rewrite E. cbn [outcome_of trace_of state_of fst snd].
    repeat split; [assumption|].
    rewrite after_schedule_sources by (rewrite Es, Ei; apply HI).
    rewrite Es, Ei. apply in_or_app. right. now left.
Qed.

Lemma chunks_are_scheduled_back_to_back_witness :
  reachable playing
  /\ Forall admissible
       [ EvClock (1 # 1000); EvMessage first_closure (audio_chunk "AIAAQACA");
         EvMessage first_closure (audio_chunk "AIAAQACA") ]
  /\ Forall playback_only
       [ EvClock (1 # 1000); EvMessage first_closure (audio_chunk "AIAAQACA");
         EvMessage first_closure (audio_chunk "AIAAQACA") ]
  /\ scheduled (snd (run [ EvClock (1 # 1000);
                           EvMessage first_closure (audio_chunk "AIAAQACA");
                           EvMessage first_closure (audio_chunk "AIAAQACA") ] playing))
     = [ (5001 # 1000, 3 # 24000); (120027000 # 24000000, 3 # 24000) ]
  /\ (5001 # 1000) + (3 # 24000) <= 120027000 # 24000000.
Proof.
  assert (Ha : Forall admissible
                 [ EvClock (1 # 1000); EvMessage first_closure (audio_chunk "AIAAQACA");
                   EvMessage first_closure (audio_chunk "AIAAQACA") ])
    by (repeat constructor; discriminate).
  assert (Hp : Forall playback_only
                 [ EvClock (1 # 1000); EvMessage first_closure (audio_chunk "AIAAQACA");
                   EvMessage first_closure (audio_chunk "AIAAQACA") ])
    by (repeat constructor).
  assert (Hs : scheduled
                 (snd (run [ EvClock (1 # 1000);
                             EvMessage first_closure (audio_chunk "AIAAQACA");
                             EvMessage first_closure (audio_chunk "AIAAQACA") ] playing))
               = [ (5001 # 1000, 3 # 24000); (120027000 # 24000000, 3 # 24000) ])
    by (vm_compute; reflexivity).
  pose proof (proj1 (chunks_are_scheduled_back_to_back playing _
                       reachable_playing Ha Hp)) as Hno.
  rewrite Hs in Hno.
  exact (conj reachable_playing
           (conj Ha (conj Hp (conj Hs
              (Hno 0%nat (5001 # 1000) (3 # 24000) (120027000 # 24000000) (3 # 24000)
                   eq_refl eq_refl))))).
Defined.

(** C3, where it fails: with the cursor at 5 + 3/24000 an interruption
    signal puts it back to 0. *)
Lemma interruption_moves_cursor_back :
  nextStartTimeRef playing = Qmax 0 (0 + 5) + (3 # 24000)
  /\ nextStartTimeRef (state_of (onmessage first_closure interruption playing)) = 0
  /\ ~ (nextStartTimeRef playing
        <= nextStartTimeRef (state_of (onmessage first_closure interruption playing))).
Proof.
  repeat split. intros H. vm_compute in H. apply H. reflexivity.
Qed.

(** C3, amended.  Across every inbound message that carries no interruption
    signal the cursor does not decrease (a signal resets it to 0, see C1);
    and at every scheduling decision the start time the cursor is clamped to
    is the larger of the cursor and [currentTime], hence not below
    [currentTime]. *)
Theorem cursor_is_monotone_between_interruptions
    (s : App) (cl : Closure) (m : LiveServerMessage) :
  (interrupted_of m = false ->
   nextStartTimeRef s <= nextStartTimeRef (state_of (onmessage cl m s)))
  /\ (forall id w d,
        In (SourceStart id w d) (trace_of (onmessage cl m s)) ->
        exists ctx,
          outputAudioContextRef s = Some ctx
          /\ w = Qmax (nextStartTimeRef s) (currentTime ctx)
          /\ currentTime ctx <= w
          /\ nextStartTimeRef s <= w).
Proof.
  split; [apply onmessage_cursor_monotone|].
  intros id w d Hin.
  apply onmessage_start_time in Hin as (ctx & buf & Hctx & _ & -> & _).
  exists ctx. repeat split; [assumption | apply Q.le_max_r | apply Q.le_max_l].
Qed.

Lemma cursor_is_monotone_between_interruptions_witness :
  interrupted_of (audio_chunk "AIAAQACA") = false
  /\ nextStartTimeRef playing
     <= nextStartTimeRef
          (state_of (onmessage first_closure (audio_chunk "AIAAQACA") playing)).
Proof.
  exact (conj eq_refl
           (proj1 (cursor_is_monotone_between_interruptions playing first_closure
                     (audio_chunk "AIAAQACA")) eq_refl)).
Defined.

(** ** The transcript accumulator *)

Lemma forEach_stop_source_state (l : list AudioBufferSourceNode) (s : App) :
  state_of (forEach stop_source l s) = s.
Proof.
  induction l as [|n l IH]; [reflexivity|].
  cbn [forEach]. unfold bind at 1, stop_source at 1, bind at 1, lift, stop, emit.
  destruct (startedAt n); [|reflexivity].
  destruct (forEach stop_source l s) as [[s2 t2] r]. exact IH.
Qed.

Lemma handle_interrupted_state (m : LiveServerMessage) (s : App) :
  state_of (handle_interrupted m s) = s
  \/ state_of (handle_interrupted m s)
     = set_nextStartTimeRef 0 (set_audioSourcesRef [] s).
Proof.
  remember (handle_interrupted m s) as r eqn:E.
  unfold handle_interrupted in E. destruct (interrupted_of m); [|subst r; now left].
  unfold bind at 1, get in E. unfold bind at 1 in E.
  pose proof (forEach_stop_source_state (audioSourcesRef s) s) as H.
  destruct (forEach stop_source (audioSourcesRef s) s) as [[s1 t1] [[]|e]];
    unfold state_of in *; cbn in H; subst s1; subst r; [now right | now left].
Qed.

Lemma handle_interrupted_react (m : LiveServerMessage) (s : App) :
  transcripts (state_of (handle_interrupted m s)) = transcripts s
  /\ currentInputTranscription (state_of (handle_interrupted m s))
     = currentInputTranscription s
  /\ currentOutputTranscription (state_of (handle_interrupted m s))
     = currentOutputTranscription s.
Proof.
  destruct (handle_interrupted_state m s) as [-> | ->]; repeat split.
Qed.

(** The audio and interruption parts of [onmessage] do not touch the
    transcript state. *)
Lemma onmessage_react (cl : Closure) (m : LiveServerMessage) (s : App) :
  transcripts (state_of (onmessage cl m s)) = transcripts (transcribe cl m s)
  /\ currentInputTranscription (state_of (onmessage cl m s))
     = currentInputTranscription (transcribe cl m s)
  /\ currentOutputTranscription (state_of (onmessage cl m s))
     = currentOutputTranscription (transcribe cl m s).
Proof.
  rewrite onmessage_eval.
  destruct (handle_audio_output_cases m (transcribe cl m s));
    try (cbn; repeat split; reflexivity).
  - pose proof (handle_interrupted_react m (transcribe cl m s)) as Hreact.
    destruct (handle_interrupted m (transcribe cl m s)) as [[s2 t2] r]. exact Hreact.
  - pose proof (handle_interrupted_react m
                  (after_schedule (transcribe cl m s)
                     (Qmax (nextStartTimeRef (transcribe cl m s)) (currentTime ctx))
                     buf)) as Hreact.
    destruct (handle_interrupted m _) as [[s2 t2] r]. exact Hreact.
Qed.

(** What a turn-complete signal does, on every state and however the rest of
    the handler goes: two turns are appended, the user's first, and both
    pending buffers are emptied.  The text of each turn is the value the
    closure holds followed by the fragment of the same event; the pending
    buffer of the state is not read. *)
Lemma turn_complete_appends_two_turns (cl : Closure) (m : LiveServerMessage) (s : App) :
  turnComplete_of m = true ->
  transcripts (state_of (onmessage cl m s))
  = transcripts s
    ++ [ {| speaker := user;
            text := String.append (cl_currentInputTranscription cl)
                      (or_empty (text_of (inputTranscription_of m))) |};
         {| speaker := model;
            text := String.append (cl_currentOutputTranscription cl)
                      (or_empty (text_of (outputTranscription_of m))) |} ]
  /\ currentInputTranscription (state_of (onmessage cl m s)) = EmptyString
  /\ currentOutputTranscription (state_of (onmessage cl m s)) = EmptyString.
Proof.
  intros H. destruct (onmessage_react cl m s) as (-> & -> & ->).
  unfold transcribe. rewrite H.
  destruct (inputTranscription_of m), (outputTranscription_of m); repeat split.
Qed.

(** C5, evaluated where it fails.  A call is started from the initial render
    (the closure holds two empty strings) and opened; the fragments "he"
    (user) and "Hi" (model) arrive and are accumulated in the pending
    buffers; then one event brings the fragment "llo" and the turn-complete
    signal.  Two turns are appended, user first, and the buffers are emptied,
    but the user's text is "llo" and the model's is empty: what had been
    accumulated is not in the turns. *)
Theorem turn_complete_drops_accumulated_fragments :
  outcome_of (handleStartCall_begin initial) = Ok first_closure
  /\ currentInputTranscription
       (fst (run (call_opened ++
                  [ EvMessage first_closure (fragment_user "he");
                    EvMessage first_closure (fragment_model "Hi") ]) initial)) = "he"
  /\ currentOutputTranscription
       (fst (run (call_opened ++
                  [ EvMessage first_closure (fragment_user "he");
                    EvMessage first_closure (fragment_model "Hi") ]) initial)) = "Hi"
  /\ transcripts
       (fst (run (call_opened ++
                  [ EvMessage first_closure (fragment_user "he");
                    EvMessage first_closure (fragment_model "Hi");
                    EvMessage first_closure (turn_complete_with_user "llo") ]) initial))
     = [ {| speaker := user; text := "llo" |};
         {| speaker := model; text := EmptyString |} ]
  /\ currentInputTranscription
       (fst (run (call_opened ++
                  [ EvMessage first_closure (fragment_user "he");
                    EvMessage first_closure (fragment_model "Hi");
                    EvMessage first_closure (turn_complete_with_user "llo") ]) initial))
     = EmptyString.
Proof. vm_compute. repeat split. Qed.

(** C6, evaluated.  After the fragment events "he" (user), "Hi" (model),
    "llo" (user) the pending buffers hold "hello" and "Hi"; the turn-complete
    event then appends two turns with empty text, not "hello" and "Hi". *)
Theorem interleaved_fragments_finalize_to_empty_turns :
  outcome_of (handleStartCall_begin initial) = Ok first_closure
  /\ currentInputTranscription
       (fst (run (call_opened ++
                  [ EvMessage first_closure (fragment_user "he");
                    EvMessage first_closure (fragment_model "Hi");
                    EvMessage first_closure (fragment_user "llo") ]) initial)) = "hello"
  /\ currentOutputTranscription
       (fst (run (call_opened ++
                  [ EvMessage first_closure (fragment_user "he");
                    EvMessage first_closure (fragment_model "Hi");
                    EvMessage first_closure (fragment_user "llo") ]) initial)) = "Hi"
  /\ transcripts
       (fst (run (call_opened ++
                  [ EvMessage first_closure (fragment_user "he");
                    EvMessage first_closure (fragment_model "Hi");
                    EvMessage first_closure (fragment_user "llo");
                    EvMessage first_closure turn_complete ]) initial))
     = [ {| speaker := user; text := EmptyString |};
         {| speaker := model; text := EmptyString |} ]
  /\ transcripts
       (fst (run (call_opened ++
                  [ EvMessage first_closure (fragment_user "he");
                    EvMessage first_closure (fragment_model "Hi");
                    EvMessage first_closure (fragment_user "llo");
                    EvMessage first_closure turn_complete ]) initial))
     <> [ {| speaker := user; text := "hello" |};
          {| speaker := model; text := "Hi" |} ].
Proof. vm_compute. repeat split. discriminate. Qed.

(** ** Teardown *)

Lemma filter_true {A : Type} (f : A -> bool) (l : list A) :
  (forall x, In x l -> f x = true) -> filter f l = l.
Proof.
  induction l as [|x l IH]; intros H; [reflexivity|].
  cbn [filter]. rewrite (H x (or_introl eq_refl)), IH; [reflexivity|].
  intros y Hy. apply H. now right.
Qed.

Lemma filter_false {A : Type} (f : A -> bool) (l : list A) :
  (forall x, In x l -> f x = false) -> filter f l = [].
Proof.
  induction l as [|x l IH]; intros H; [reflexivity|].
  cbn [filter]. rewrite (H x (or_introl eq_refl)). apply IH.
  intros y Hy. apply H. now right.
Qed.

Lemma in_option_list {A B : Type} (f : A -> B) (o : option A) (y : B) :
  In y (option_list f o) -> exists a, o = Some a /\ y = f a.
Proof.
  destruct o as [a|]; [|intros []]. intros [<-|[]]. now exists a.
Qed.

Lemma NoDup_option_list {A B : Type} (f : A -> B) (o : option A) :
  NoDup (option_list f o).
Proof. destruct o; repeat constructor. intros []. Qed.

(** Every entry of [held_devices] names the device it releases. *)
Lemma in_held_devices (s : App) (e : Effect) :
  In e (held_devices s) ->
  (exists st t, localStreamRef s = Some st /\ In t (tracks st) /\ e = TrackStop t)
  \/ (exists z, frameIntervalRef s = Some z /\ e = ClearInterval z)
  \/ (exists n, scriptProcessorRef s = Some n /\ e = ProcessorDisconnect n)
  \/ (exists c, inputAudioContextRef s = Some c /\ e = ContextClose (ctx_id c))
  \/ (exists c, outputAudioContextRef s = Some c /\ e = ContextClose (ctx_id c))
  \/ (exists n, In n (audioSourcesRef s) /\ e = SourceStop (node_id n)).
Proof.
  unfold held_devices. intros H.
  repeat (apply in_app_or in H; destruct H as [H|H]).
  - left. destruct (localStreamRef s) as [st|]; [|destruct H].
    apply in_map_iff in H as (t & <- & Ht). now exists st, t.
  - apply in_option_list in H as (z & ? & ?). right. left. now exists z.
  - apply in_option_list in H as (n & ? & ?). do 2 right. left. now exists n.
  - apply in_option_list in H as (c & ? & ?). do 3 right. left. now exists c.
  - apply in_option_list in H as (c & ? & ?). do 4 right. left. now exists c.
  - apply in_map_iff in H as (n & <- & Hn). do 5 right. now exists n.
Qed.

Ltac held_device He :=
  apply in_held_devices in He
    as [(? & ? & _ & _ & ->) | [(? & _ & ->) | [(? & _ & ->)
       | [(? & _ & ->) | [(? & _ & ->) | (? & _ & ->)]]]]].

Lemma held_devices_are_releases (s : App) :
  filter is_release (held_devices s) = held_devices s.
Proof. apply filter_true. intros e He. held_device He; reflexivity. Qed.

Lemma held_devices_no_close (s : App) : filter is_close (held_devices s) = [].
Proof. apply filter_false. intros e He. held_device He; reflexivity. Qed.

Lemma held_devices_no_alert (s : App) : filter is_alert (held_devices s) = [].
Proof. apply filter_false. intros e He. held_device He; reflexivity. Qed.

(** Without a session promise the devices are all a state holds. *)
Lemma held_resources_without_session (s : App) :
  sessionPromiseRef s = None -> held_resources s = held_devices s.
Proof. intros H. unfold held_resources. now rewrite H. Qed.

Lemma NoDup_map_inj {A B : Type} (f : A -> B) (l : list A) :
  (forall x y, f x = f y -> x = y) -> NoDup l -> NoDup (map f l).
Proof.
  intros Hf. induction 1 as [|x l Hx _ IH]; cbn; constructor; [|exact IH].
  intros Hin. apply in_map_iff in Hin as (y & Hy & Hin).
  apply Hf in Hy. now subst.
Qed.

(** In a state that satisfies the invariant no device is listed twice. *)
Lemma NoDup_held_devices (s : App) : Inv s -> NoDup (held_devices s).
Proof.
  intros [H1 H2 H3 H4 H5 H6 H7 H8 H9]. unfold held_devices.
  repeat match goal with
         | |- NoDup (_ ++ _) => apply NoDup_app
         end.
  - destruct (localStreamRef s) as [st|]; [|constructor].
    apply NoDup_map_inj; [now intros x y [= ->] | now apply H6].
  - apply NoDup_option_list.
  - apply NoDup_option_list.
  - apply NoDup_option_list.
  - apply NoDup_option_list.
  - rewrite <- (map_map node_id SourceStop).
    apply NoDup_map_inj; [now intros x y [= ->] | exact H5].
  - intros e He Hin. apply in_option_list in He as (c & Hc & ->).
    apply in_map_iff in Hin as (? & ? & _). discriminate.
  - intros e He Hin. apply in_option_list in He as (c & Hc & ->).
    apply in_app_or in Hin as [Hin|Hin].
    + apply in_option_list in Hin as (d & Hd & [= E]). now apply (H9 c d).
    + apply in_map_iff in Hin as (? & ? & _). discriminate.
  - intros e He Hin. apply in_option_list in He as (n & Hn & ->).
    repeat (apply in_app_or in Hin; destruct Hin as [Hin|Hin]);
      try (apply in_option_list in Hin as (? & _ & ?); discriminate).
    apply in_map_iff in Hin as (? & ? & _). discriminate.
  - intros e He Hin. apply in_option_list in He as (z & Hz & ->).
    repeat (apply in_app_or in Hin; destruct Hin as [Hin|Hin]);
      try (apply in_option_list in Hin as (? & _ & ?); discriminate).
    apply in_map_iff in Hin as (? & ? & _). discriminate.
  - intros e He Hin.
    assert (exists t, e = TrackStop t) as (t & ->).
    { destruct (localStreamRef s) as [st|]; [|destruct He].
      apply in_map_iff in He as (t & <- & _). now exists t. }
    repeat (apply in_app_or in Hin; destruct Hin as [Hin|Hin]);
      try (apply in_option_list in Hin as (? & _ & ?); discriminate).
    apply in_map_iff in Hin as (? & ? & _). discriminate.
Qed.

(** *** The promises along a run *)

Lemma transcribe_world (cl : Closure) (m : LiveServerMessage) (s : App) :
  closing (transcribe cl m s) = closing s
  /\ settled (transcribe cl m s) = settled s
  /\ host (transcribe cl m s) = host s.
Proof.
  unfold transcribe.
  destruct (inputTranscription_of m), (outputTranscription_of m), (turnComplete_of m);
    cbn; repeat split.
Qed.

Lemma onmessage_promise_change (cl : Closure) (m : LiveServerMessage) (s : App) :
  promise_change s (state_of (onmessage cl m s)).
Proof.
  rewrite onmessage_eval.
  destruct (transcribe_refs cl m s) as (_ & Ep & _ & _ & _ & _ & _ & _ & Ei & _).
  destruct (transcribe_world cl m s) as (Ec & _ & _).
  assert (Hint : forall t, promise_change s t ->
                   promise_change s (state_of (handle_interrupted m t))).
  { intros t Ht. destruct (handle_interrupted_state m t) as [-> | ->]; exact Ht. }
  destruct (handle_audio_output_cases m (transcribe cl m s))
    as [ Hc | Hc Hb | ctx e Hctx He | ctx buf Hctx Hb Hq | ctx buf Hctx Hb Hq ].
  - pose proof (Hint (transcribe cl m s)) as Hstep.
    destruct (handle_interrupted m (transcribe cl m s)) as [[s2 t2] r].
    apply Hstep. split; [lia | left; now split].
  - split; [cbn; lia | left; now split].
  - split; [cbn; lia | left; now split].
  - split; [cbn; lia | left; now split].
  - pose proof (Hint (after_schedule (transcribe cl m s)
                        (Qmax (nextStartTimeRef (transcribe cl m s)) (currentTime ctx))
                        buf)) as Hstep.
    destruct (handle_interrupted m _) as [[s2 t2] r].
    apply Hstep. split; [cbn; lia | left; now split].
Qed.

Lemma cleanUp_promise_change (s t : App) :
  closing t = closing s -> sessionPromiseRef t = sessionPromiseRef s ->
  nextObjectId t = nextObjectId s ->
  promise_change s (cleaned t).
Proof.
  intros Ec Ep En. split; [cbn; lia|]. right. left.
  split; [|reflexivity].
  change (closing (cleaned t)) with (to_close t).
  unfold to_close. now rewrite Ec, Ep.
Qed.

Lemma dispatch_promise_change (ev : Event) (s : App) :
  Inv s -> promise_change s (state_of (dispatch ev s)).
Proof.
  intros HI. destruct ev; cbn [dispatch]; rewrite ?async_state.
  - split; [cbn; lia | left; now split].
  - rewrite handleStartCall_resume_eval by exact HI.
    destruct o as [|stream [|]]; cbn [state_of fst].
    + now apply cleanUp_promise_change.
    + split; [cbn; lia|]. right. right. split; [reflexivity|].
      exists (S (nextObjectId s)). cbn. split; [reflexivity | lia].
    + now apply cleanUp_promise_change.
  - unfold onopen. monad_unfold. cbn.
    destruct (localVideoRef s); (split; [cbn; lia | left; now split]).
  - unfold onaudioprocess. monad_unfold.
    destruct (sessionPromiseRef s); (split; [cbn; lia | left; now split]).
  - apply onmessage_promise_change.
  - unfold onerror, bind at 1, emit at 1, bind at 1, emit at 1.
    rewrite cleanUp_eval by apply HI. now apply cleanUp_promise_change.
  - unfold onclose, bind at 1, emit at 1.
    rewrite cleanUp_eval by apply HI. now apply cleanUp_promise_change.
  - unfold handleEndCall. rewrite cleanUp_eval by apply HI.
    now apply cleanUp_promise_change.
  - unfold unmount, bind at 1, modify at 1.
    assert (HI' : Inv (set_localVideoRef false s)) by (revert HI; apply Inv_ext; reflexivity).
    rewrite cleanUp_eval by apply HI'. now apply cleanUp_promise_change.
  - split; [cbn; lia | left; now split].
  - split; [cbn; lia | left; now split].
  - unfold settle, modify, state_of. cbn [fst].
    destruct (is_pending s promise); (split; [cbn; lia | left; now split]).
Qed.

Lemma NoDup_to_close (s : App) : PromiseInv s -> NoDup (to_close s).
Proof.
  intros [H1 H2 H3]. unfold to_close.
  destruct (sessionPromiseRef s) as [p|]; [|exact H1].
  apply NoDup_app; [exact H1 | repeat constructor; intros [] |].
  intros q Hq [<-|[]]. now destruct (H3 p eq_refl).
Qed.

Lemma PromiseInv_initial (h : Limits) : PromiseInv (initial_on h).
Proof. constructor; cbn; [constructor | constructor | discriminate]. Qed.

Lemma promise_change_PromiseInv (s s1 : App) :
  promise_change s s1 -> PromiseInv s -> PromiseInv s1.
Proof.
  intros [Hn [[Ec Ep] | [[Ec Ep] | (Ec & p & Ep & Hp)]]] HI.
  - destruct HI as [H1 H2 H3]. constructor; rewrite ?Ec, ?Ep.
    + exact H1.
    + revert H2. apply Forall_impl. intros; lia.
    + intros q Hq. destruct (H3 q Hq). split; [lia | assumption].
  - pose proof (NoDup_to_close s HI) as Hnd. destruct HI as [H1 H2 H3].
    constructor; rewrite ?Ec, ?Ep; [exact Hnd | | discriminate].
    unfold to_close. destruct (sessionPromiseRef s) as [q|].
    + apply Forall_app. split.
      * revert H2. apply Forall_impl. intros; lia.
      * repeat constructor. destruct (H3 q eq_refl). lia.
    + revert H2. apply Forall_impl. intros; lia.
  - destruct HI as [H1 H2 H3]. constructor; rewrite ?Ec.
    + exact H1.
    + revert H2. apply Forall_impl. intros; lia.
    + intros q Hq. assert (q = p) as -> by congruence.
      split; [lia|]. intros Hin. rewrite Forall_forall in H2.
      specialize (H2 p Hin). lia.
Qed.

Lemma microtasks_closing (s : App) (p : nat) :
  In p (closing (state_of (microtasks s)))
  <-> In p (closing s) /\ promise_state s p = Pending.
Proof.
  rewrite microtasks_eval. cbn [state_of fst set_closing closing].
  rewrite filter_In. unfold is_pending.
  destruct (promise_state s p); split; intros [H1 H2]; try discriminate; now split.
Qed.

Lemma microtasks_PromiseInv (s : App) :
  PromiseInv s -> PromiseInv (state_of (microtasks s)).
Proof.
  intros [H1 H2 H3]. rewrite microtasks_eval. constructor; cbn.
  - now apply NoDup_filter.
  - eapply incl_Forall; [apply incl_filter | exact H2].
  - intros p Hp. destruct (H3 p Hp) as [Hlt Hnin]. split; [exact Hlt|].
    intros Hin. apply filter_In in Hin. tauto.
Qed.

Theorem reachable_PromiseInv (s : App) : reachable s -> PromiseInv s.
Proof.
  induction 1 as [h | s ev Hr IH Ha | s _ IH].
  - apply PromiseInv_initial.
  - apply (promise_change_PromiseInv s); [|exact IH].
    apply dispatch_promise_change. now apply reachable_Inv.
  - now apply microtasks_PromiseInv.
Qed.

(** *** When a session is closed *)

Lemma filter_closes_is_close (p : nat) (t : list Effect) :
  filter is_close t = [] -> filter (closes p) t = [].
Proof.
  induction t as [|e t IH]; [reflexivity|].
  destruct e; cbn [filter is_close closes]; try exact IH. discriminate.
Qed.

(** No handler closes a session while it runs. *)
Lemma dispatch_no_close (ev : Event) (s : App) :
  Inv s -> filter is_close (trace_of (dispatch ev s)) = [].
Proof.
  intros HI. destruct ev; cbn [dispatch]; rewrite ?async_trace.
  - reflexivity.
  - rewrite handleStartCall_resume_eval by exact HI.
    destruct o as [|stream [|]]; cbn [trace_of fst snd app filter is_close];
      try reflexivity; apply held_devices_no_close.
  - unfold onopen. monad_unfold. cbn. now destruct (localVideoRef s).
  - unfold onaudioprocess. monad_unfold. now destruct (sessionPromiseRef s).
  - destruct (chunk_of s message) as [[buf|]|e] eqn:Hc.
    + destruct (onmessage_chunk cl message s buf HI Hc) as (ctx & _ & ->).
      cbn zeta. unfold after_interrupted.
      destruct (interrupted_of message); cbn; [|reflexivity].
      apply filter_false. intros e He.
      apply in_map_iff in He as (n & <- & _). reflexivity.
    + rewrite (onmessage_no_chunk cl message s HI Hc). unfold after_interrupted.
      destruct (interrupted_of message); cbn; [|reflexivity].
      apply filter_false. intros e He.
      apply in_map_iff in He as (n & <- & _). reflexivity.
    + now destruct (onmessage_throw cl message s e Hc) as (s' & -> & _).
  - unfold onerror, bind at 1, emit at 1, bind at 1, emit at 1.
    rewrite cleanUp_eval by apply HI. cbn. apply held_devices_no_close.
  - unfold onclose, bind at 1, emit at 1.
    rewrite cleanUp_eval by apply HI. cbn. apply held_devices_no_close.
  - unfold handleEndCall. rewrite cleanUp_eval by apply HI. cbn.
    apply held_devices_no_close.
  - unfold unmount, bind at 1, modify at 1.
    assert (HI' : Inv (set_localVideoRef false s)) by (revert HI; apply Inv_ext; reflexivity).
    rewrite cleanUp_eval by apply HI'. cbn. apply held_devices_no_close.
  - reflexivity.
  - reflexivity.
  - unfold settle, modify. reflexivity.
Qed.

(** At a checkpoint a session is closed when a reaction waits on its
    promise and the promise is fulfilled, and then once. *)
Lemma reaction_effects_skip (s : App) (l : list nat) (p : nat) :
  ~ In p l \/ promise_state s p <> Fulfilled ->
  filter (closes p) (reaction_effects s l) = [].
Proof.
  intros H. induction l as [|q l IH]; [reflexivity|].
  cbn [reaction_effects flat_map]. fold (reaction_effects s l).
  rewrite filter_app, IH by (destruct H as [H|H]; [left; intros Hin; apply H; now right
                                                  | now right]).
  rewrite app_nil_r.
  destruct (promise_state s q) eqn:Eq; try reflexivity.
  cbn [filter closes]. destruct (Nat.eqb q p) eqn:E; [|reflexivity].
  apply Nat.eqb_eq in E. subst q. destruct H as [H|H]; [|congruence].
  exfalso. apply H. now left.
Qed.

Lemma reaction_effects_once (s : App) (l : list nat) (p : nat) :
  NoDup l -> In p l -> promise_state s p = Fulfilled ->
  filter (closes p) (reaction_effects s l) = [SessionClose p].
Proof.
  intros Hnd Hin Hp. induction Hnd as [|q l Hq _ IH]; [destruct Hin|].
  cbn [reaction_effects flat_map]. fold (reaction_effects s l).
  rewrite filter_app. destruct Hin as [->|Hin].
  - rewrite Hp. cbn [filter closes]. rewrite Nat.eqb_refl.
    now rewrite reaction_effects_skip by now left.
  - rewrite IH by exact Hin.
    assert (q <> p) as Hne by (intros ->; contradiction).
    apply Nat.eqb_neq in Hne.
    destruct (promise_state s q); cbn [filter closes app]; rewrite ?Hne; reflexivity.
Qed.

Lemma promise_change_done_with (s s1 : App) (p : nat) :
  promise_change s s1 -> done_with s p -> done_with s1 p.
Proof.
  intros [Hn [[Ec Ep] | [[Ec Ep] | (Ec & q & Ep & Hq)]]] (H1 & H2 & H3);
    repeat split; rewrite ?Ec, ?Ep; try lia; try assumption; try discriminate.
  - unfold to_close. destruct (sessionPromiseRef s) as [r|]; [|exact H2].
    intros Hin. apply in_app_or in Hin as [Hin | [-> | []]]; [now apply H2 | now apply H3].
  - intros [= ->]. lia.
Qed.

Lemma microtasks_done_with (s : App) (p : nat) :
  done_with s p -> done_with (state_of (microtasks s)) p.
Proof.
  intros (H1 & H2 & H3). repeat split.
  - now rewrite microtasks_eval.
  - rewrite microtasks_closing. tauto.
  - now rewrite microtasks_eval.
Qed.

(** In every run from a state that satisfies the invariants a session is
    closed at most once, and not at all once the component is done with its
    promise. *)
Lemma run_closes_at_most_once (evs : list Event) (s : App) (p : nat) :
  Inv s -> PromiseInv s -> Forall admissible evs ->
  (List.length (filter (closes p) (snd (run evs s))) <= 1)%nat
  /\ (done_with s p -> filter (closes p) (snd (run evs s)) = []).
Proof.
  revert s. induction evs as [|ev evs IH]; intros s HI HP Ha;
    [split; [cbn; lia | reflexivity]|].
  inversion Ha as [|? ? Hev Hevs]; subst. cbn [run].
  pose proof (dispatch_Inv ev s Hev HI) as HI1.
  pose proof (dispatch_promise_change ev s HI) as Hch.
  pose proof (promise_change_PromiseInv _ _ Hch HP) as HP1.
  pose proof (dispatch_no_close ev s HI) as Hnc.
  apply (filter_closes_is_close p) in Hnc.
  destruct (dispatch ev s) as [[s1 t1] r]. cbn [state_of trace_of fst snd] in *.
  pose proof (microtasks_Inv s1 HI1) as HI2.
  pose proof (microtasks_PromiseInv s1 HP1) as HP2.
  pose proof (microtasks_closing s1 p) as Hcl.
  pose proof (fun H => microtasks_done_with s1 p H) as Hdone.
  pose proof (reaction_effects_skip s1 (closing s1) p) as Hskip.
  pose proof (reaction_effects_once s1 (closing s1) p (inv_waiting s1 HP1)) as Honce.
  rewrite microtasks_eval in HI2, HP2, Hcl, Hdone |- *.
  cbn [state_of fst] in HI2, HP2, Hcl, Hdone.
  destruct (IH _ HI2 HP2 Hevs) as [IH1 IH2].
  destruct (run evs _) as [s3 t3]. cbn [snd] in *.
  rewrite !filter_app, Hnc. cbn [app].
  destruct (in_dec Nat.eq_dec p (closing s1)) as [Hin|Hnin].
  - destruct (promise_state s1 p) eqn:Ep.
    + rewrite Hskip by (right; congruence). cbn [app]. split; [exact IH1|].
      intros Hd. exfalso.
      destruct (promise_change_done_with _ _ p Hch Hd) as (_ & H & _). now apply H.
    + rewrite Honce by (assumption || reflexivity).
      rewrite IH2; [split; [cbn; lia|]|].
      * intros Hd. exfalso.
        destruct (promise_change_done_with _ _ p Hch Hd) as (_ & H & _). now apply H.
      * repeat split.
        -- cbn. pose proof (inv_known s1 HP1) as Hk. rewrite Forall_forall in Hk.
           now apply Hk.
        -- rewrite Hcl. intros [_ H]. discriminate.
        -- cbn. intros Hp. now destruct (inv_session s1 HP1 p Hp).
    + rewrite Hskip by (right; congruence). cbn [app]. split; [exact IH1|].
      intros Hd. exfalso.
      destruct (promise_change_done_with _ _ p Hch Hd) as (_ & H & _). now apply H.
  - rewrite Hskip by now left. cbn [app]. split; [exact IH1|].
    intros Hd. apply IH2. apply Hdone.
    exact (promise_change_done_with _ _ p Hch Hd).
Qed.

(** The checkpoint after a handler and whatever run follows it close a
    session at most once. *)
Lemma checkpoint_closes_at_most_once (evs : list Event) (s : App) (p : nat) :
  Inv s -> PromiseInv s -> Forall admissible evs ->
  (List.length
     (filter (closes p)
        (trace_of (microtasks s) ++ snd (run evs (state_of (microtasks s))))) <= 1)%nat.
Proof.
  intros HI HP Ha.
  pose proof (microtasks_Inv s HI) as HI2.
  pose proof (microtasks_PromiseInv s HP) as HP2.
  destruct (run_closes_at_most_once evs _ p HI2 HP2 Ha) as [H1 H2].
  pose proof (microtasks_closing s p) as Hcl.
  rewrite filter_app.
  rewrite microtasks_eval in *. cbn [state_of trace_of fst snd] in *.
  destruct (in_dec Nat.eq_dec p (closing s)) as [Hin|Hnin].
  - destruct (promise_state s p) eqn:Ep.
    + rewrite reaction_effects_skip by (right; congruence). exact H1.
    + rewrite reaction_effects_once by (assumption || apply HP).
      rewrite H2; [cbn; lia|]. repeat split.
      * cbn. pose proof (inv_known s HP) as Hk. rewrite Forall_forall in Hk.
        now apply Hk.
      * rewrite Hcl. intros [_ H]. discriminate.
      * cbn. intros Hp. now destruct (inv_session s HP p Hp).
    + rewrite reaction_effects_skip by (right; congruence). exact H1.
  - rewrite reaction_effects_skip by now left. exact H1.
Qed.

Lemma filter_eqb_once (p : nat) (l : list nat) :
  NoDup l -> In p l -> filter (Nat.eqb p) l = [p].
Proof.
  induction 1 as [|q l Hq _ IH]; intros Hin; [destruct Hin|].
  cbn [filter]. destruct Hin as [->|Hin].
  - rewrite Nat.eqb_refl. f_equal. apply filter_false.
    intros x Hx. apply Nat.eqb_neq. intros ->. contradiction.
  - assert (p <> q) as Hne by (intros ->; contradiction).
    apply Nat.eqb_neq in Hne. rewrite Hne. now apply IH.
Qed.

(** C7, where it fails: a call is torn down twice while the connection is
    still being made.  The ref holds the connect promise, which is pending.
    The first invocation releases the tracks and the output context and
    leaves a closing reaction on the promise; the second does nothing; the
    checkpoint that follows finds the promise pending.  The session is closed
    by none of them. *)
Lemma cleanUp_twice_while_connecting_closes_no_session :
  sessionPromiseRef connecting = Some 1%nat
  /\ promise_state connecting 1 = Pending
  /\ held_resources connecting
     = [ SessionClose 1; TrackStop 0; TrackStop 1; ContextClose 0 ]
  /\ trace_of (cleanUp connecting)
     = [ ConsoleLog "Cleaning up resources..."; TrackStop 0; TrackStop 1;
         ContextClose 0 ]
  /\ trace_of (cleanUp (state_of (cleanUp connecting)))
     = [ ConsoleLog "Cleaning up resources..." ]
  /\ trace_of (microtasks (state_of (cleanUp (state_of (cleanUp connecting))))) = []
  /\ closing (state_of (microtasks (state_of (cleanUp (state_of (cleanUp connecting))))))
     = [1%nat]
  /\ ~ In (SessionClose 1)
         (trace_of (cleanUp connecting)
          ++ trace_of (cleanUp (state_of (cleanUp connecting)))
          ++ trace_of (microtasks (state_of (cleanUp (state_of (cleanUp connecting)))))).
Proof.
  repeat split; try (vm_compute; reflexivity).
  vm_compute. intros H. repeat destruct H as [H|H]; try discriminate H. exact H.
Qed.

(** C7, amended.  From every reachable state two teardowns in a row both
    return.  The devices (every media track, the frame timer, the script
    processor, the input and the output audio context, every scheduled
    source) are released by the first invocation, in order and once each; the
    second releases nothing and changes nothing.  Every scheduled source is
    stopped, the active set is left empty and the cursor is reset to 0.  The
    session is not closed by the routine itself but through the connect
    promise: the first invocation leaves one reaction waiting on it and
    empties the ref, and that reaction closes the session, once, at the
    checkpoint that follows if the promise is fulfilled (the two invocations
    and that checkpoint then close it exactly once), and otherwise at the
    first later checkpoint that finds it fulfilled; while the promise is
    pending nothing is closed.  Whatever follows, the session is closed at
    most once. *)
Theorem cleanUp_twice_releases_each_resource_once (s : App) :
  reachable s ->
  outcome_of (cleanUp s) = Ok tt
  /\ outcome_of (cleanUp (state_of (cleanUp s))) = Ok tt
  /\ filter is_release (trace_of (cleanUp s)) = held_devices s
  /\ filter is_release (trace_of (cleanUp (state_of (cleanUp s)))) = []
  /\ NoDup (filter is_release
              (trace_of (cleanUp s) ++ trace_of (cleanUp (state_of (cleanUp s)))))
  /\ (forall n, In n (audioSourcesRef s) ->
        In (SourceStop (node_id n)) (trace_of (cleanUp s)))
  /\ audioSourcesRef (state_of (cleanUp s)) = []
  /\ nextStartTimeRef (state_of (cleanUp s)) = 0
  /\ held_resources (state_of (cleanUp s)) = []
  /\ state_of (cleanUp (state_of (cleanUp s))) = state_of (cleanUp s)
  /\ (forall p, sessionPromiseRef s = Some p ->
        filter (Nat.eqb p) (closing (state_of (cleanUp (state_of (cleanUp s))))) = [p]
        /\ (promise_state s p = Fulfilled ->
              filter (closes p)
                (trace_of (microtasks (state_of (cleanUp (state_of (cleanUp s))))))
              = [SessionClose p]
              /\ filter (closes p)
                   (trace_of (cleanUp s)
                    ++ trace_of (cleanUp (state_of (cleanUp s)))
                    ++ trace_of (microtasks (state_of (cleanUp (state_of (cleanUp s))))))
                 = [SessionClose p]
              /\ ~ In p (closing (state_of (microtasks
                                             (state_of (cleanUp (state_of (cleanUp s))))))))
        /\ (promise_state s p = Pending ->
              filter (closes p)
                (trace_of (microtasks (state_of (cleanUp (state_of (cleanUp s))))))
              = []
              /\ In p (closing (state_of (microtasks
                                           (state_of (cleanUp (state_of (cleanUp s))))))))
        /\ (forall t, reachable t -> In p (closing t) ->
              promise_state t p = Fulfilled ->
              filter (closes p) (trace_of (microtasks t)) = [SessionClose p]
              /\ ~ In p (closing (state_of (microtasks t))))
        /\ (forall evs, Forall admissible evs ->
              (List.length
                 (filter (closes p)
                    (trace_of (cleanUp s)
                     ++ trace_of (cleanUp (state_of (cleanUp s)))
                     ++ trace_of (microtasks (state_of (cleanUp (state_of (cleanUp s)))))
                     ++ snd (run evs
                               (state_of
                                  (microtasks
                                     (state_of (cleanUp (state_of (cleanUp s))))))))) <= 1)%nat)).
Proof.
  intros Hr. pose proof (reachable_Inv s Hr) as HI.
  pose proof (reachable_PromiseInv s Hr) as HP.
  pose proof (cleanUp_eval s (inv_timer s HI) (inv_started s HI)) as E1.
  pose proof (Inv_cleaned s) as HIc.
  pose proof (cleanUp_eval (cleaned s) (inv_timer _ HIc) (inv_started _ HIc)) as E2.
  assert (HPc : PromiseInv (cleaned s)).
  { apply (promise_change_PromiseInv s); [|exact HP].
    now apply cleanUp_promise_change. }
  rewrite E1. cbn [state_of trace_of outcome_of fst snd]. rewrite E2.
  cbn [state_of trace_of outcome_of fst snd].
  change (held_devices (cleaned s)) with (@nil Effect).
  change (cleaned (cleaned s)) with (cleaned s).
  split; [reflexivity|]. split; [reflexivity|].
  split; [cbn [filter is_release]; apply held_devices_are_releases|].
  split; [reflexivity|].
  split.
  { rewrite filter_app. cbn [filter is_release].
    rewrite app_nil_r, held_devices_are_releases. now apply NoDup_held_devices. }
  split.
  { intros n Hn. right. unfold held_devices.
    repeat (apply in_or_app; right). apply in_map_iff. now exists n. }
  split; [reflexivity|]. split; [reflexivity|]. split; [reflexivity|].
  split; [reflexivity|].
  intros p Hp.
  assert (Hin : In p (closing (cleaned s))).
  { change (closing (cleaned s)) with (to_close s). unfold to_close.
    rewrite Hp. apply in_or_app. right. now left. }
  assert (Hst : forall q, promise_state (cleaned s) q = promise_state s q)
    by reflexivity.
  assert (F1 : filter (closes p)
                 (ConsoleLog "Cleaning up resources..." :: held_devices s) = []).
  { cbn [filter closes]. apply filter_closes_is_close, held_devices_no_close. }
  split; [apply filter_eqb_once; [apply HPc | exact Hin]|].
  split.
  { intros Hf.
    assert (Hm : filter (closes p) (trace_of (microtasks (cleaned s)))
                 = [SessionClose p]).
    { rewrite microtasks_eval. cbn [trace_of fst snd].
      apply reaction_effects_once; [apply HPc | exact Hin | now rewrite Hst]. }
    split; [exact Hm|]. split.
    - rewrite filter_app, F1. cbn [app filter closes]. exact Hm.
    - rewrite microtasks_closing, Hst, Hf. intros [_ H]. discriminate. }
  split.
  { intros Hf. split.
    - rewrite microtasks_eval. cbn [trace_of fst snd].
      apply reaction_effects_skip. right. rewrite Hst, Hf. discriminate.
    - rewrite microtasks_closing, Hst. now split. }
  split.
  { intros t Ht Hint Hf. split.
    - rewrite microtasks_eval. cbn [trace_of fst snd].
      apply reaction_effects_once;
        [apply (reachable_PromiseInv t Ht) | exact Hint | exact Hf].
    - rewrite microtasks_closing, Hf. intros [_ H]. discriminate. }
  intros evs Hevs.
  rewrite filter_app, F1. cbn [app filter closes].
  now apply checkpoint_closes_at_most_once.
Qed.

Lemma cleanUp_twice_releases_each_resource_once_witness :
  reachable playing
  /\ sessionPromiseRef playing = Some 1%nat
  /\ promise_state playing 1 = Fulfilled
  /\ filter is_release (trace_of (cleanUp playing))
     = [ TrackStop 0; TrackStop 1; ClearInterval 7;
         ProcessorDisconnect 3; ContextClose 2; ContextClose 0; SourceStop 4 ]
  /\ filter is_release (trace_of (cleanUp (state_of (cleanUp playing)))) = []
  /\ outcome_of (cleanUp (state_of (cleanUp playing))) = Ok tt
  /\ filter (closes 1)
       (trace_of (cleanUp playing)
        ++ trace_of (cleanUp (state_of (cleanUp playing)))
        ++ trace_of (microtasks (state_of (cleanUp (state_of (cleanUp playing))))))
     = [SessionClose 1].
Proof.
  assert (Hp : sessionPromiseRef playing = Some 1%nat) by (vm_compute; reflexivity).
  assert (Hf : promise_state playing 1 = Fulfilled) by (vm_compute; reflexivity).
  destruct (cleanUp_twice_releases_each_resource_once playing reachable_playing)
    as (_ & H2 & H3 & H4 & _ & _ & _ & _ & _ & _ & H11).
  destruct (H11 1%nat Hp) as (_ & H12 & _).
  split; [exact reachable_playing|]. split; [exact Hp|]. split; [exact Hf|].
  split; [|split; [exact H4 | split; [exact H2 | exact (proj1 (proj2 (H12 Hf)))]]].
  rewrite H3. vm_compute. reflexivity.
Defined.

(** Two teardowns in a call that plays, an error and then the unmount: the
    session is closed once, at the checkpoint after the first handler, when
    the devices have been released. *)
Example teardown_while_playing :
  snd (run [EvError "timeout"; EvUnmount] playing)
  = [ ConsoleError "Session error:";
      Alert "An error occurred: timeout. Please try again.";
      ConsoleLog "Cleaning up resources..."; TrackStop 0; TrackStop 1;
      ClearInterval 7; ProcessorDisconnect 3; ContextClose 2; ContextClose 0;
      SourceStop 4; SessionClose 1; ConsoleLog "Cleaning up resources..." ].
Proof. vm_compute. reflexivity. Qed.

(** ** Malformed inbound chunks *)

Lemma list_ind2 {A : Type} (P : list A -> Prop) :
  P [] -> (forall a, P [a]) -> (forall a b l, P l -> P (a :: b :: l)) ->
  forall l, P l.
Proof.
  intros H0 H1 H2.
  assert (forall l, P l /\ forall a, P (a :: l)) as H.
  { induction l as [|x l [IH1 IH2]]; split; auto. }
  intros l. apply H.
Qed.

(** The [Int16Array] view exists exactly on buffers of even length. *)
Lemma Int16Array_of_buffer_odd (bytes : Uint8Array) :
  Nat.modulo (List.length bytes) (2 * 1) <> 0%nat ->
  Int16Array_of_buffer bytes = Throw RangeError.
Proof.
  induction bytes as [| a | a b l IH] using list_ind2; intros H.
  - now destruct H.
  - reflexivity.
  - cbn [Int16Array_of_buffer]. rewrite IH; [reflexivity|].
    cbn [List.length] in H. intros E. apply H.
    change (2 * 1)%nat with 2%nat in *.
    replace (S (S (List.length l))) with (List.length l + 1 * 2)%nat by lia.
    now rewrite Nat.Div0.mod_add.
Qed.

Lemma Int16Array_of_buffer_even (bytes : Uint8Array) :
  Nat.modulo (List.length bytes) (2 * 1) = 0%nat ->
  exists a, Int16Array_of_buffer bytes = Ok a
            /\ (2 * List.length a = List.length bytes)%nat.
Proof.
  induction bytes as [| a | a b l IH] using list_ind2; intros H.
  - now exists [].
  - discriminate.
  - destruct IH as (v & E & Hv).
    { cbn [List.length] in H. change (2 * 1)%nat with 2%nat in *.
      replace (S (S (List.length l))) with (List.length l + 1 * 2)%nat in H by lia.
      now rewrite Nat.Div0.mod_add in H. }
    exists (int16_of_bytes a b :: v). cbn [Int16Array_of_buffer]. rewrite E.
    split; [reflexivity | cbn [List.length]; lia].
Qed.

(** With one channel, as the inbound path calls it, [decodeAudioData] rejects
    every buffer of odd length. *)
Lemma decodeAudioData_odd (bytes : Uint8Array) (ctx : AudioContext) :
  Nat.modulo (List.length bytes) (2 * 1) <> 0%nat ->
  decodeAudioData bytes ctx 24000 1 = Throw RangeError.
Proof.
  intros H. unfold decodeAudioData. now rewrite Int16Array_of_buffer_odd.
Qed.

(** With two channels a buffer of six bytes, not a multiple of four, is not
    rejected: the last sample is dropped.  No call in the program passes two
    channels. *)
Example decodeAudioData_two_channels_truncates :
  decodeAudioData [x01; x00; x02; x00; x03; x00] playback_ctx 24000 2
  = Ok {| numberOfChannels := 2; buf_length := 1; buf_sampleRate := 24000;
          channelData := [[S754_finite false 1 (-15)]; [S754_finite false 2 (-15)]] |}.
Proof. vm_compute. reflexivity. Qed.

(** The decoder reads the context for the limits of its buffers only. *)
Lemma decodeAudioData_limits (bytes : Uint8Array) (c c' : AudioContext)
    (sampleRate : Z) (numChannels : nat) :
  ctx_limits c' = ctx_limits c ->
  decodeAudioData bytes c' sampleRate numChannels
  = decodeAudioData bytes c sampleRate numChannels.
Proof.
  intros E. unfold decodeAudioData, createBuffer. now rewrite E.
Qed.

Lemma chunk_of_limits (s t : App) (m : LiveServerMessage) (c c' : AudioContext) :
  outputAudioContextRef s = Some c ->
  outputAudioContextRef t = Some c' ->
  ctx_limits c' = ctx_limits c ->
  chunk_of t m = chunk_of s m.
Proof.
  intros Hs Ht E. unfold chunk_of. rewrite Hs, Ht.
  destruct (base64Audio_of m) as [b|e]; [|reflexivity]. cbn [rbind].
  destruct (truthy_string b) as [b64|]; [|reflexivity].
  destruct (decode b64) as [bytes|e]; [|reflexivity]. cbn [rbind].
  now rewrite (decodeAudioData_limits bytes c c' 24000 1 E).
Qed.

Lemma Qmax_clamped (c t dt : Q) :
  0 <= dt -> Qmax (Qmax c t) (t + dt) == Qmax c (t + dt).
Proof.
  intros Hdt.
  destruct (Q.max_spec c t) as [[H1 E1] | [H1 E1]];
  destruct (Q.max_spec (Qmax c t) (t + dt)) as [[H2 E2] | [H2 E2]];
  destruct (Q.max_spec c (t + dt)) as [[H3 E3] | [H3 E3]];
  rewrite ?E2, ?E3; rewrite ?E1 in *; lra.
Qed.

(** C8.  In a reachable state with a playback device, a message whose audio
    chunk decodes to a number of bytes that is not a multiple of 2 x 1 (the
    inbound path decodes one channel) is rejected: the decoder throws a
    RangeError and the body of the handler ends with it.  The chunk is
    dropped: nothing is scheduled, no effect is performed; the active set,
    the session, the devices and the call flags are as before; the cursor is
    only clamped to the device clock.  The error is not fatal: the handler is
    an async function, so its caller gets no exception, and the call is not
    torn down.  Later chunks are not affected: a chunk that decodes in the
    state before the malformed one decodes to the same buffer after it, and
    is scheduled with the same identity, at the same time and for the same
    duration as if the malformed chunk had never arrived; and after any
    further events every message with a decodable chunk is scheduled as
    usual. *)
Theorem malformed_chunk_is_dropped
    (s : App) (cl : Closure) (m : LiveServerMessage)
    (ctx : AudioContext) (base64Audio : string) (bytes : Uint8Array) :
  reachable s ->
  outputAudioContextRef s = Some ctx ->
  base64Audio_of m = Ok (Some base64Audio) ->
  base64Audio <> EmptyString ->
  decode base64Audio = Ok bytes ->
  Nat.modulo (List.length bytes) (2 * 1) <> 0%nat ->
  decodeAudioData bytes ctx 24000 1 = Throw RangeError
  /\ outcome_of (onmessage cl m s) = Throw RangeError
  /\ trace_of (onmessage cl m s) = []
  /\ state_of (onmessage cl m s)
     = set_nextStartTimeRef (Qmax (nextStartTimeRef s) (currentTime ctx))
         (transcribe cl m s)
  /\ audioSourcesRef (state_of (onmessage cl m s)) = audioSourcesRef s
  /\ sessionPromiseRef (state_of (onmessage cl m s)) = sessionPromiseRef s
  /\ localStreamRef (state_of (onmessage cl m s)) = localStreamRef s
  /\ inputAudioContextRef (state_of (onmessage cl m s)) = inputAudioContextRef s
  /\ outputAudioContextRef (state_of (onmessage cl m s)) = Some ctx
  /\ scriptProcessorRef (state_of (onmessage cl m s)) = scriptProcessorRef s
  /\ frameIntervalRef (state_of (onmessage cl m s)) = frameIntervalRef s
  /\ isCallActive (state_of (onmessage cl m s)) = isCallActive s
  /\ outcome_of (dispatch (EvMessage cl m) s) = Ok tt
  /\ trace_of (dispatch (EvMessage cl m) s) = []
  /\ state_of (dispatch (EvMessage cl m) s) = state_of (onmessage cl m s)
  /\ (forall dt cl' m' buf,
        0 <= dt ->
        interrupted_of m' = false ->
        chunk_of s m' = Ok (Some buf) ->
        chunk_of (state_of (clock dt (state_of (dispatch (EvMessage cl m) s)))) m'
        = Ok (Some buf)
        /\ exists w w0,
             onmessage cl' m' (state_of (clock dt (state_of (dispatch (EvMessage cl m) s))))
             = (state_of (onmessage cl' m'
                            (state_of (clock dt (state_of (dispatch (EvMessage cl m) s))))),
                [SourceStart (nextObjectId s) w (duration buf)], Ok tt)
             /\ trace_of (onmessage cl' m' (state_of (clock dt s)))
                = [SourceStart (nextObjectId s) w0 (duration buf)]
             /\ w == w0
             /\ w0 = Qmax (nextStartTimeRef s) (currentTime ctx + dt))
  /\ reachable (state_of (dispatch (EvMessage cl m) s))
  /\ forall evs cl' m' buf,
       Forall admissible evs ->
       chunk_of (fst (run evs (state_of (dispatch (EvMessage cl m) s)))) m' = Ok (Some buf) ->
       interrupted_of m' = false ->
       exists ctx',
         outputAudioContextRef (fst (run evs (state_of (dispatch (EvMessage cl m) s))))
         = Some ctx'
         /\ outcome_of (onmessage cl' m'
                          (fst (run evs (state_of (dispatch (EvMessage cl m) s)))))
            = Ok tt
         /\ trace_of (onmessage cl' m'
                        (fst (run evs (state_of (dispatch (EvMessage cl m) s)))))
            = [ SourceStart
                  (nextObjectId (fst (run evs (state_of (dispatch (EvMessage cl m) s)))))
                  (Qmax (nextStartTimeRef
                           (fst (run evs (state_of (dispatch (EvMessage cl m) s)))))
                        (currentTime ctx'))
                  (duration buf) ].
Proof.
  intros Hr Hctx Hb Hne Hd Hodd.
  pose proof (reachable_Inv s Hr) as HI.
  pose proof (reach_step s (EvMessage cl m) Hr I) as Hr'.
  assert (Hdec : decodeAudioData bytes ctx 24000 1 = Throw RangeError)
    by now apply decodeAudioData_odd.
  assert (Hc : chunk_of s m = Throw RangeError).
  { unfold chunk_of. rewrite Hb. cbn [rbind].
    assert (truthy_string (Some base64Audio) = Some base64Audio) as ->
      by (destruct base64Audio; [congruence | reflexivity]).
    rewrite Hctx, Hd. cbn [rbind]. now rewrite Hdec. }
  destruct (transcribe_refs cl m s)
    as (E1 & E2 & E3 & E4 & E5 & E6 & E7 & E8 & E9 & E10 & E11).
  destruct (onmessage_throw cl m s RangeError Hc)
    as (s' & E & [[_ Hty] | (ctx' & Hctx' & ->)]); [congruence|].
  assert (ctx' = ctx) as -> by congruence.
  cbn [dispatch] in *. rewrite async_state, async_trace, async_outcome in *.
  rewrite E in *. cbn [outcome_of trace_of state_of fst snd] in *.
  split; [exact Hdec|].
  do 11 (split; [first [reflexivity | assumption | cbn; congruence]|]).
  split; [reflexivity|]. split; [reflexivity|]. split; [reflexivity|].
  split; [|split; [exact Hr'|]].
  - intros dt cl' m' buf Hdt Hi' Hc'.
    set (s1 := state_of (clock dt
                 (set_nextStartTimeRef (Qmax (nextStartTimeRef s) (currentTime ctx))
                    (transcribe cl m s)))).
    assert (Hr1 : reachable s1) by exact (reach_step _ (EvClock dt) Hr' Hdt).
    assert (Hr0 : reachable (state_of (clock dt s)))
      by exact (reach_step _ (EvClock dt) Hr Hdt).
    assert (Ho1 : outputAudioContextRef s1
                  = Some {| ctx_id := ctx_id ctx; ctx_sampleRate := ctx_sampleRate ctx;
                            currentTime := currentTime ctx + dt;
                            ctx_limits := ctx_limits ctx |}).
    { unfold s1. cbn. rewrite E4, Hctx. reflexivity. }
    assert (Ho0 : outputAudioContextRef (state_of (clock dt s))
                  = Some {| ctx_id := ctx_id ctx; ctx_sampleRate := ctx_sampleRate ctx;
                            currentTime := currentTime ctx + dt;
                            ctx_limits := ctx_limits ctx |}).
    { cbn. rewrite Hctx. reflexivity. }
    assert (Hc1 : chunk_of s1 m' = Ok (Some buf)).
    { rewrite <- Hc'. apply (chunk_of_limits s s1 m' ctx _ Hctx Ho1). reflexivity. }
    assert (Hc0 : chunk_of (state_of (clock dt s)) m' = Ok (Some buf)).
    { rewrite <- Hc'. apply (chunk_of_limits s _ m' ctx _ Hctx Ho0). reflexivity. }
    split; [exact Hc1|].
    destruct (onmessage_chunk cl' m' s1 buf (reachable_Inv _ Hr1) Hc1)
      as (c1 & Hctx1 & Eq1).
    destruct (onmessage_chunk cl' m' _ buf (reachable_Inv _ Hr0) Hc0)
      as (c0 & Hctx0 & Eq0).
    cbn zeta in Eq1, Eq0. unfold after_interrupted in Eq1, Eq0.
    rewrite Hi' in Eq1, Eq0.
    assert (c1 = {| ctx_id := ctx_id ctx; ctx_sampleRate := ctx_sampleRate ctx;
                    currentTime := currentTime ctx + dt;
                    ctx_limits := ctx_limits ctx |}) as -> by congruence.
    assert (c0 = {| ctx_id := ctx_id ctx; ctx_sampleRate := ctx_sampleRate ctx;
                    currentTime := currentTime ctx + dt;
                    ctx_limits := ctx_limits ctx |}) as -> by congruence.
    exists (Qmax (nextStartTimeRef s1) (currentTime ctx + dt)),
           (Qmax (nextStartTimeRef s) (currentTime ctx + dt)).
    rewrite Eq1, Eq0. cbn [state_of trace_of fst snd currentTime].
    assert (En1 : nextObjectId s1 = nextObjectId s) by (unfold s1; cbn; exact E9).
    rewrite En1. repeat split.
    unfold s1. cbn. apply Qmax_clamped, Hdt.
  - intros evs cl' m' buf Ha Hc' Hi'.
    pose proof (reachable_Inv _ (reachable_run evs _ Hr' Ha)) as HI'.
    destruct (onmessage_chunk cl' m' _ buf HI' Hc') as (ctx2 & Hctx2 & E').
    cbn zeta in E'. unfold after_interrupted in E'. rewrite Hi' in E'.
    exists ctx2. rewrite E'. repeat split. exact Hctx2.
Qed.

Lemma malformed_chunk_is_dropped_witness :
  reachable playing
  /\ outputAudioContextRef playing
     = Some {| ctx_id := 0; ctx_sampleRate := 24000; currentTime := 0 + 5;
               ctx_limits := required |}
  /\ base64Audio_of (audio_chunk "AIAA") = Ok (Some "AIAA")
  /\ "AIAA" <> EmptyString
  /\ decode "AIAA" = Ok [x00; x80; x00]
  /\ Nat.modulo (List.length [x00; x80; x00]) (2 * 1) <> 0%nat
  /\ outcome_of (onmessage first_closure (audio_chunk "AIAA") playing) = Throw RangeError
  /\ trace_of (onmessage first_closure (audio_chunk "AIAA") playing) = []
  /\ audioSourcesRef (state_of (onmessage first_closure (audio_chunk "AIAA") playing))
     = audioSourcesRef playing
  /\ outcome_of (dispatch (EvMessage first_closure (audio_chunk "AIAA")) playing) = Ok tt
  /\ scheduled
       (snd (run [ EvMessage first_closure (audio_chunk "AIAA");
                   EvClock (1 # 1000);
                   EvMessage first_closure (audio_chunk "AIAAQACA") ] playing))
     = [ (5001 # 1000, 3 # 24000) ]
  /\ scheduled
       (snd (run [ EvClock (1 # 1000);
                   EvMessage first_closure (audio_chunk "AIAAQACA") ] playing))
     = [ (5001 # 1000, 3 # 24000) ].
Proof.
  assert (H2 : outputAudioContextRef playing
               = Some {| ctx_id := 0; ctx_sampleRate := 24000; currentTime := 0 + 5;
                         ctx_limits := required |})
    by (vm_compute; reflexivity).
  assert (H4 : "AIAA" <> EmptyString) by discriminate.
  assert (H5 : decode "AIAA" = Ok [x00; x80; x00]) by (vm_compute; reflexivity).
  assert (H6 : Nat.modulo (List.length [x00; x80; x00]) (2 * 1) <> 0%nat)
    by discriminate.
  destruct (malformed_chunk_is_dropped playing first_closure (audio_chunk "AIAA")
              _ "AIAA" [x00; x80; x00] reachable_playing H2 eq_refl H4 H5 H6)
    as (_ & R1 & R2 & _ & R4 & _ & _ & _ & _ & _ & _ & _ & R12 & _).
  split; [exact reachable_playing|]. split; [exact H2|]. split; [reflexivity|].
  split; [exact H4|]. split; [exact H5|]. split; [exact H6|]. split; [exact R1|].
  split; [exact R2|]. split; [exact R4|]. split; [exact R12|].
  split; vm_compute; reflexivity.
Defined.

(** * Further properties of the source *)

(** ** [encode] and [decode] *)

(** X1.  [decode] undoes [encode]: every byte array comes back from its
    base64 text, whatever its length (padding included). *)
Theorem decode_inverts_encode (bytes : Uint8Array) :
  decode (encode bytes) = Ok bytes.
Proof. apply decode_encode. Qed.

Lemma btoa_length (s : string) :
  String.length (btoa s) = (4 * ((String.length s + 2) / 3))%nat.
Proof.
  induction s as [| a | a b | a b c rest IH] using string_ind3; try reflexivity.
  cbn [btoa String.length]. rewrite IH.
  replace (S (S (S (String.length rest))) + 2)%nat
    with (String.length rest + 2 + 1 * 3)%nat by lia.
  rewrite Nat.div_add by discriminate. lia.
Qed.

Lemma length_list_ascii_of_string (s : string) :
  List.length (list_ascii_of_string s) = String.length s.
Proof. induction s as [|c s IH]; cbn; [reflexivity | now rewrite IH]. Qed.

Lemma binary_string_length (bytes : Uint8Array) :
  String.length (string_of_list_ascii (map ascii_of_byte bytes)) = List.length bytes.
Proof.
  rewrite <- length_list_ascii_of_string, list_ascii_of_string_of_list_ascii.
  apply length_map.
Qed.

Lemma encode_btoa (bytes : Uint8Array) :
  encode bytes = btoa (string_of_list_ascii (map ascii_of_byte bytes)).
Proof. unfold encode. now rewrite binary_string_of_bytes. Qed.

Lemma encode_alphabet (bytes : Uint8Array) :
  Forall (fun c => (b64_index c <> None \/ c = "="%char)
                   /\ is_ascii_whitespace c = false)
    (list_ascii_of_string (encode bytes)).
Proof.
  rewrite encode_btoa, btoa_chars. apply Forall_app. split.
  - apply Forall_map. eapply Forall_impl; [|apply b64_body_bounded].
    intros n Hn. destruct (b64_char_facts n Hn) as (H1 & H2 & _).
    split; [left; congruence | exact H2].
  - apply Forall_forall. intros c Hc. apply repeat_spec in Hc. subst.
    split; [now right | reflexivity].
Qed.

(** X2.  The text [encode] produces has four characters for every three
    bytes, rounded up; each character is a letter of the base64 alphabet or
    the padding sign, so none is white space. *)
Theorem encode_shape (bytes : Uint8Array) :
  String.length (encode bytes) = (4 * ((List.length bytes + 2) / 3))%nat
  /\ Forall (fun c => (b64_index c <> None \/ c = "="%char)
                      /\ is_ascii_whitespace c = false)
       (list_ascii_of_string (encode bytes)).
Proof.
  split; [|apply encode_alphabet].
  now rewrite encode_btoa, btoa_length, binary_string_length.
Qed.

Lemma list_ascii_of_string_app (a b : string) :
  list_ascii_of_string (a ++ b) = list_ascii_of_string a ++ list_ascii_of_string b.
Proof. induction a as [|c a IH]; cbn; [reflexivity | now rewrite IH]. Qed.

(** X3.  [decode] skips ASCII white space (tab, line feed, form feed,
    carriage return, space) wherever it stands in the text. *)
Theorem decode_skips_whitespace (a b : string) (w : ascii) :
  is_ascii_whitespace w = true ->
  decode (a ++ String w b) = decode (a ++ b).
Proof.
  intros Hw. rewrite !decode_spec. unfold atob.
  rewrite !list_ascii_of_string_app. cbn [list_ascii_of_string].
  unfold strip_whitespace. rewrite !filter_app. cbn [filter]. now rewrite Hw.
Qed.

Lemma decode_skips_whitespace_witness :
  is_ascii_whitespace " "%char = true
  /\ decode ("TW" ++ String " "%char "Fu") = decode ("TW" ++ "Fu").
Proof.
  exact (conj eq_refl (decode_skips_whitespace "TW" "Fu" " "%char eq_refl)).
Defined.

Lemma pack_length (ns : list N) :
  (4 * String.length (pack ns) <= 3 * List.length ns)%nat.
Proof.
  assert (H : forall ns : list N,
             (4 * String.length (pack ns) <= 3 * List.length ns)%nat
             /\ (forall a, 4 * String.length (pack (a :: ns)) <= 3 * List.length (a :: ns))%nat
             /\ (forall a b, 4 * String.length (pack (a :: b :: ns))
                             <= 3 * List.length (a :: b :: ns))%nat
             /\ (forall a b c, 4 * String.length (pack (a :: b :: c :: ns))
                               <= 3 * List.length (a :: b :: c :: ns))%nat).
  { clear ns. induction ns as [|n ns (IH0 & IH1 & IH2 & IH3)].
    - cbn. repeat split; intros; lia.
    - repeat split; intros; try apply IH1; try apply IH2; try apply IH3.
      cbn [pack String.length List.length] in *. lia. }
  apply H.
Qed.

Lemma strip_padding_length (l : list ascii) :
  (List.length (strip_padding l) <= List.length l)%nat.
Proof.
  unfold strip_padding. pose proof (length_rev l) as H.
  destruct (rev l) as [|p [|q r]]; cbn [List.length] in H.
  - lia.
  - destruct (is_pad p); cbn; lia.
  - destruct (is_pad p); [destruct (is_pad q)|]; cbn [List.length rev];
      rewrite ?length_app, ?length_rev; cbn [List.length]; lia.
Qed.

Lemma sextets_length (l : list ascii) (ns : list N) :
  sextets l = Some ns -> List.length ns = List.length l.
Proof.
  revert ns. induction l as [|c l IH]; intros ns H; cbn [sextets] in H.
  - now injection H as <-.
  - destruct (b64_index c); [|discriminate].
    destruct (sextets l) as [ms|]; [|discriminate].
    injection H as <-. cbn [List.length]. now rewrite (IH ms eq_refl).
Qed.

(** X4.  What [decode] can do with a text: it returns at most three bytes for
    every four characters, or it throws, and then always an
    InvalidCharacterError. *)
Theorem decode_returns_short_or_rejects (base64 : string) :
  (forall bytes, decode base64 = Ok bytes ->
     (4 * List.length bytes <= 3 * String.length base64)%nat)
  /\ (forall e, decode base64 = Throw e -> e = InvalidCharacterError).
Proof.
  rewrite decode_spec. unfold atob.
  set (d0 := strip_whitespace (list_ascii_of_string base64)).
  assert (H0 : (List.length d0 <= String.length base64)%nat).
  { unfold d0, strip_whitespace. rewrite <- length_list_ascii_of_string.
    apply filter_length_le. }
  set (d := if (N.of_nat (List.length d0) mod 4 =? 0)%N then strip_padding d0 else d0).
  assert (H1 : (List.length d <= String.length base64)%nat).
  { unfold d. destruct (N.of_nat (List.length d0) mod 4 =? 0)%N; [|exact H0].
    pose proof (strip_padding_length d0). lia. }
  destruct (N.of_nat (List.length d) mod 4 =? 1)%N.
  { split; [discriminate | now intros e [= <-]]. }
  destruct (sextets d) as [ns|] eqn:E.
  - split; [|discriminate]. cbn [rbind]. intros bytes [= <-].
    rewrite length_map, length_list_ascii_of_string.
    pose proof (pack_length ns). rewrite (sextets_length d ns E) in *. lia.
  - split; [discriminate | now intros e [= <-]].
Qed.

Lemma decode_returns_short_or_rejects_witness :
  decode "AIAA" = Ok [x00; x80; x00]
  /\ (4 * List.length [x00; x80; x00] <= 3 * String.length "AIAA")%nat
  /\ decode "A" = Throw InvalidCharacterError.
Proof.
  assert (H1 : decode "AIAA" = Ok [x00; x80; x00]) by (vm_compute; reflexivity).
  assert (H2 : decode "A" = Throw InvalidCharacterError) by (vm_compute; reflexivity).
  exact (conj H1 (conj (proj1 (decode_returns_short_or_rejects "AIAA") _ H1) H2)).
Defined.

(** ** [createBlob] *)

(** X5.  [createBlob] always yields a blob of type audio/pcm at 16 kHz whose
    text decodes to two bytes per sample: the little-endian 16-bit form of
    every sample times 32768, truncated and wrapped. *)
Theorem createBlob_carries_two_bytes_per_sample (d : Float32Array) :
  mimeType (createBlob d) = "audio/pcm;rate=16000"%string
  /\ exists bytes,
       decode (data (createBlob d)) = Ok bytes
       /\ List.length bytes = (2 * List.length d)%nat
       /\ Int16Array_of_buffer bytes = Ok (map (fun x => ToInt16 (mul32768 x)) d)
       /\ Forall (fun v => (-32768 <= v < 32768)%Z)
            (map (fun x => ToInt16 (mul32768 x)) d).
Proof.
  split; [reflexivity|].
  exists (Uint8Array_of_Int16Array (createBlob_int16 d)).
  unfold createBlob. cbn [data]. rewrite decode_encode, createBlob_int16_map.
  assert (H : Forall (fun v => (-32768 <= v < 32768)%Z)
                (map (fun x => ToInt16 (mul32768 x)) d)).
  { apply Forall_map, Forall_forall. intros x _. apply ToInt16_range. }
  repeat split.
  - now rewrite Uint8Array_of_Int16Array_length, length_map.
  - now apply Int16Array_of_buffer_of_Int16Array.
  - exact H.
Qed.












(** ** [decodeAudioData] *)

Lemma typed_set_out_of_range {A : Type} (a : list A) (i : nat) (v : A) :
  (List.length a <= i)%nat -> typed_set a i v = a.
Proof.
  revert i. induction a as [|x a IH]; intros i H; [reflexivity|].
  destruct i as [|i]; cbn [List.length] in H; [lia|].
  cbn [typed_set]. rewrite IH by lia. reflexivity.
Qed.

Lemma typed_set_length {A : Type} (a : list A) (i : nat) (v : A) :
  List.length (typed_set a i v) = List.length a.
Proof.
  revert i. induction a as [|x a IH]; intros i; [reflexivity|].
  destruct i as [|i]; cbn [typed_set List.length]; [reflexivity | now rewrite IH].
Qed.

(** A filling loop that runs past the end of the array: the extra rounds
    write nothing. *)
Lemma fill_loop_past_end {A : Type} (f : nat -> A) (init : list A) (rounds : nat) :
  (List.length init <= rounds)%nat ->
  fold_left (fun a i => typed_set a i (f i)) (seq 0 rounds) init
  = map f (seq 0 (List.length init)).
Proof.
  intros H.
  replace rounds with (List.length init + (rounds - List.length init))%nat by lia.
  rewrite seq_app, fold_left_app, (fill_loop _ f) by reflexivity.
  cbn [Nat.add].
  assert (E : forall l a, Forall (fun i => (List.length a <= i)%nat) l ->
                          fold_left (fun a i => typed_set a i (f i)) l a = a).
  { induction l as [|i l IH]; intros a Hl; [reflexivity|].
    inversion Hl as [|? ? Hi Hl']; subst. cbn [fold_left].
    rewrite typed_set_out_of_range by assumption. now apply IH. }
  apply E. apply Forall_forall. intros i Hi. apply in_seq in Hi.
  rewrite length_map, length_seq. lia.
Qed.

Lemma nth_repeat_lt {A : Type} (x d : A) (n c : nat) :
  (c < n)%nat -> nth c (repeat x n) d = x.
Proof.
  revert c. induction n as [|n IH]; intros c H; [lia|].
  destruct c as [|c]; cbn; [reflexivity | apply IH; lia].
Qed.

Lemma Zpos_of_nat_S (k : nat) : Z.pos (Pos.of_nat (S k)) = Z.of_nat (S k).
Proof. lia. Qed.

Lemma frameCount_trunc (n k : nat) :
  Qtrunc (Z.of_nat n # Pos.of_nat (S k)) = Z.of_nat (n / S k).
Proof.
  unfold Qtrunc, Qle_bool, Qfloor. cbn [Qnum Qden].
  rewrite Zpos_of_nat_S.
  destruct (0 * Z.of_nat (S k) <=? Z.of_nat n * 1)%Z eqn:E.
  - now rewrite Nat2Z.inj_div.
  - apply Z.leb_gt in E. lia.
Qed.

Lemma frameCount_ceiling (n k : nat) :
  (Z.of_nat (n / S k) <= Qceiling (Z.of_nat n # Pos.of_nat (S k)))%Z.
Proof.
  rewrite <- frameCount_trunc.
  set (q := Z.of_nat n # Pos.of_nat (S k)).
  assert (Hq : 0 <= q) by (unfold q, Qle; cbn; lia).
  destruct (Qtrunc_nonneg q Hq) as (_ & H1 & _).
  pose proof (Qle_ceiling q) as H2.
  rewrite Zle_Qle. lra.
Qed.

(** [decodeAudioData] on a buffer that holds at least one frame. *)
Lemma decodeAudioData_eval (bytes : Uint8Array) (ctx : AudioContext)
    (sampleRate : Z) (numChannels : nat) (a : Int16Array) :
  Int16Array_of_buffer bytes = Ok a ->
  (1 <= numChannels <= 32)%nat ->
  (8000 <= sampleRate <= 96000)%Z ->
  (1 <= List.length a / numChannels)%nat ->
  (Z.of_nat (List.length a / numChannels) < 2 ^ 32)%Z ->
  decodeAudioData bytes ctx sampleRate numChannels
  = Ok {| numberOfChannels := numChannels;
          buf_length := List.length a / numChannels;
          buf_sampleRate := sampleRate;
          channelData :=
            map (deinterleave a numChannels (List.length a / numChannels))
                (seq 0 numChannels) |}.
Proof.
  intros Ha Hnc Hrate HF Hlen. unfold decodeAudioData. rewrite Ha. cbn [rbind].
  destruct numChannels as [|k]; [lia|].
  set (F := (List.length a / S k)%nat) in *.
  unfold createBuffer, ToUint32. rewrite frameCount_trunc. fold F.
  rewrite Z.mod_small by lia. rewrite Nat2Z.id.
  assert (Nat.eqb (S k) 0 = false) as -> by reflexivity.
  rewrite accepts_required_channels, accepts_required_rate by lia.
  assert (Nat.eqb F 0 = false) as -> by (apply Nat.eqb_neq; lia).
  assert ((sampleRate <=? 0)%Z = false) as -> by (apply Z.leb_gt; lia).
  cbn [orb negb rbind numberOfChannels buf_length buf_sampleRate channelData].
  do 2 f_equal. apply map_ext_in. intros c Hc. apply in_seq in Hc.
  rewrite nth_repeat_lt by lia.
  rewrite fill_loop_past_end.
  - now rewrite repeat_length.
  - rewrite repeat_length. pose proof (frameCount_ceiling (List.length a) k). fold F in H. lia.
Qed.

Lemma Z_of_byte_range (b : byte) : (0 <= Z_of_byte b < 256)%Z.
Proof. unfold Z_of_byte. pose proof (Byte.to_N_bounded b). lia. Qed.

Lemma int16_of_bytes_range (lo hi : byte) :
  (-32768 <= int16_of_bytes lo hi < 32768)%Z.
Proof.
  unfold int16_of_bytes.
  pose proof (Z_of_byte_range lo). pose proof (Z_of_byte_range hi).
  destruct (32768 <=? Z_of_byte lo + 256 * Z_of_byte hi)%Z eqn:E;
    [apply Z.leb_le in E | apply Z.leb_gt in E]; lia.
Qed.

Lemma Int16Array_of_buffer_range (bytes : Uint8Array) (a : Int16Array) :
  Int16Array_of_buffer bytes = Ok a ->
  Forall (fun v => (-32768 <= v < 32768)%Z) a.
Proof.
  revert a. induction bytes as [| b | lo hi l IH] using list_ind2; intros a H.
  - injection H as <-. constructor.
  - discriminate.
  - cbn [Int16Array_of_buffer] in H.
    destruct (Int16Array_of_buffer l) as [v|]; [|discriminate].
    injection H as <-. constructor; [apply int16_of_bytes_range | now apply IH].
Qed.

Lemma frame_index_in_range (n nc c i : nat) :
  (c < nc)%nat -> (i < n / nc)%nat -> (i * nc + c < n)%nat.
Proof.
  intros Hc Hi.
  assert (nc <> 0%nat) by lia.
  pose proof (Nat.Div0.mul_div_le n nc) as H1.
  assert ((i + 1) * nc <= n / nc * nc)%nat by (apply Nat.mul_le_mono_r; lia).
  lia.
Qed.

(** X9.  [decodeAudioData] de-interleaves: a buffer of 16-bit samples with
    at least one whole frame becomes an [AudioBuffer] of
    [samples / numChannels] frames (rounded down), and frame [i] of channel
    [c] is sample [i * numChannels + c] over 32768.  Samples after the last
    whole frame are left out without an error. *)
Theorem decodeAudioData_deinterleaves (bytes : Uint8Array) (ctx : AudioContext)
    (sampleRate : Z) (numChannels : nat) (a : Int16Array) :
  Int16Array_of_buffer bytes = Ok a ->
  (1 <= numChannels <= 32)%nat ->
  (8000 <= sampleRate <= 96000)%Z ->
  (1 <= List.length a / numChannels)%nat ->
  (Z.of_nat (List.length a / numChannels) < 2 ^ 32)%Z ->
  exists buffer,
    decodeAudioData bytes ctx sampleRate numChannels = Ok buffer
    /\ numberOfChannels buffer = numChannels
    /\ buf_length buffer = (List.length a / numChannels)%nat
    /\ buf_sampleRate buffer = sampleRate
    /\ List.length (channelData buffer) = numChannels
    /\ forall c i,
         (c < numChannels)%nat -> (i < List.length a / numChannels)%nat ->
         exists v,
           nth_error a (i * numChannels + c) = Some v
           /\ nth_error (nth c (channelData buffer) []) i = Some (div32768 v).
Proof.
  intros Ha Hnc Hrate HF Hlen. eexists. split.
  { now apply decodeAudioData_eval with (a := a). }
  cbn [numberOfChannels buf_length buf_sampleRate channelData].
  repeat split; [now rewrite length_map, length_seq|].
  intros c i Hc Hi.
  pose proof (frame_index_in_range (List.length a) numChannels c i Hc Hi) as Hidx.
  destruct (nth_error a (i * numChannels + c)) as [v|] eqn:E;
    [|apply nth_error_None in E; lia].
  exists v. split; [reflexivity|].
  rewrite (nth_indep _ [] (deinterleave a numChannels (List.length a / numChannels) 0))
    by (rewrite length_map, length_seq; exact Hc).
  rewrite (map_nth (deinterleave a numChannels (List.length a / numChannels))).
  rewrite seq_nth by exact Hc. cbn [Nat.add].
  unfold deinterleave.
  rewrite (map_nth_error _ i (seq 0 (List.length a / numChannels)) (d := i)).
  - unfold sample_at. now rewrite E.
  - rewrite nth_error_nth' with (d := 0%nat) by (rewrite length_seq; exact Hi).
    now rewrite seq_nth.
Qed.

Lemma decodeAudioData_deinterleaves_witness :
  Int16Array_of_buffer [x01; x00; x02; x00; x03; x00; x04; x00; x05; x00]
  = Ok [1; 2; 3; 4; 5]%Z
  /\ decodeAudioData [x01; x00; x02; x00; x03; x00; x04; x00; x05; x00]
       playback_ctx 24000 2
     = Ok {| numberOfChannels := 2; buf_length := 2; buf_sampleRate := 24000;
             channelData := [ [div32768 1; div32768 3]; [div32768 2; div32768 4] ] |}.
Proof.
  assert (H1 : Int16Array_of_buffer [x01; x00; x02; x00; x03; x00; x04; x00; x05; x00]
               = Ok [1; 2; 3; 4; 5]%Z) by reflexivity.
  assert (H2 : (1 <= 2 <= 32)%nat) by lia.
  assert (H3 : (8000 <= 24000 <= 96000)%Z) by lia.
  assert (H4 : (1 <= List.length [1; 2; 3; 4; 5]%Z / 2)%nat) by (cbn; lia).
  assert (H5 : (Z.of_nat (List.length [1; 2; 3; 4; 5]%Z / 2) < 2 ^ 32)%Z) by reflexivity.
  destruct (decodeAudioData_deinterleaves _ playback_ctx 24000 2 _ H1 H2 H3 H4 H5)
    as (buffer & E & _).
  split; [exact H1|].
  pose proof E as E'. vm_compute in E'. injection E' as <-. exact E.
Defined.

(** Outside the required range the answer is the implementation's: the same
    call at 96001 Hz is refused where the limits are the least the standard
    allows and served where they are wider. *)
Example decodeAudioData_beyond_the_required_rates :
  decodeAudioData [x01; x00] playback_ctx 96001 1 = Throw NotSupportedError
  /\ decodeAudioData [x01; x00] wide_ctx 96001 1
     = Ok {| numberOfChannels := 1; buf_length := 1; buf_sampleRate := 96001;
             channelData := [[S754_finite false 1 (-15)]] |}.
Proof. split; vm_compute; reflexivity. Qed.

(** X10.  When [decodeAudioData] throws.  A buffer of odd length is refused
    with a RangeError, whatever the channel count and the sample rate.  A
    buffer of even length is refused with a NotSupportedError when the
    channel count is 0, when the buffer holds less than one frame (the empty
    buffer among them), when the sample rate is not positive, and when the
    implementation behind the context does not accept the channel count or
    the sample rate.  What an implementation accepts beyond the standard's
    minimum is its own affair, but none refuses 1 to 32 channels at 8000 to
    96000 Hz: there a buffer of even length with at least one frame (and
    fewer than 2^32) is decoded. *)
Theorem decodeAudioData_rejects (bytes : Uint8Array) (ctx : AudioContext)
    (sampleRate : Z) (numChannels : nat) :
  (Nat.modulo (List.length bytes) 2 <> 0%nat ->
   decodeAudioData bytes ctx sampleRate numChannels = Throw RangeError)
  /\ (Nat.modulo (List.length bytes) 2 = 0%nat ->
      (numChannels = 0%nat
       \/ (List.length bytes / 2 < numChannels)%nat
       \/ (sampleRate <= 0)%Z
       \/ accepts_channels (ctx_limits ctx) numChannels = false
       \/ accepts_rate (ctx_limits ctx) sampleRate = false) ->
      decodeAudioData bytes ctx sampleRate numChannels = Throw NotSupportedError)
  /\ (Nat.modulo (List.length bytes) 2 = 0%nat ->
      (1 <= numChannels <= 32)%nat ->
      (8000 <= sampleRate <= 96000)%Z ->
      (numChannels <= List.length bytes / 2)%nat ->
      (Z.of_nat (List.length bytes) < 2 ^ 32)%Z ->
      exists buffer,
        decodeAudioData bytes ctx sampleRate numChannels = Ok buffer
        /\ numberOfChannels buffer = numChannels
        /\ buf_length buffer = (List.length bytes / 2 / numChannels)%nat
        /\ buf_sampleRate buffer = sampleRate).
Proof.
  split; [|split].
  - intros H. unfold decodeAudioData.
    now rewrite (Int16Array_of_buffer_odd bytes H).
  - intros H Hbad. unfold decodeAudioData.
    destruct (Int16Array_of_buffer_even bytes H) as (a & -> & Hlen).
    cbn [rbind]. destruct numChannels as [|k]; [reflexivity|].
    unfold createBuffer, ToUint32. rewrite frameCount_trunc.
    match goal with
    | |- rbind (if ?c then _ else _) _ = _ => assert (c = true) as ->; [|reflexivity]
    end.
    rewrite !orb_true_iff.
    destruct Hbad as [Hbad | [Hbad | [Hbad | [Hbad | Hbad]]]].
    + discriminate.
    + left. left. right. apply Nat.eqb_eq.
      assert (List.length a < S k)%nat as Hs.
      { replace (List.length bytes) with (List.length a * 2)%nat in Hbad by lia.
        rewrite Nat.div_mul in Hbad by discriminate. exact Hbad. }
      rewrite (Nat.div_small _ _ Hs). reflexivity.
    + left. right. apply Z.leb_le. exact Hbad.
    + left. left. left. right. now rewrite Hbad.
    + right. now rewrite Hbad.
  - intros H Hnc Hrate Hframe Hlen.
    destruct (Int16Array_of_buffer_even bytes H) as (a & Ea & Hla).
    assert (Hhalf : (List.length bytes / 2 = List.length a)%nat).
    { replace (List.length bytes) with (List.length a * 2)%nat by lia.
      now rewrite Nat.div_mul by discriminate. }
    rewrite Hhalf in *.
    assert (Hone : (1 <= List.length a / numChannels)%nat).
    { apply Nat.div_le_lower_bound; lia. }
    assert (Hsmall : (Z.of_nat (List.length a / numChannels) < 2 ^ 32)%Z).
    { assert (List.length a / numChannels <= List.length a)%nat
        by (apply Nat.Div0.div_le_upper_bound; nia).
      lia. }
    eexists. rewrite (decodeAudioData_eval bytes ctx sampleRate numChannels a
                        Ea Hnc Hrate Hone Hsmall).
    repeat split.
Qed.

Lemma decodeAudioData_rejects_witness :
  Nat.modulo (List.length [x01; x00; x02]) 2 <> 0%nat
  /\ decodeAudioData [x01; x00; x02] playback_ctx 24000 2 = Throw RangeError
  /\ Nat.modulo (List.length [x01; x00]) 2 = 0%nat
  /\ (List.length [x01; x00] / 2 < 2)%nat
  /\ decodeAudioData [x01; x00] playback_ctx 24000 2 = Throw NotSupportedError
  /\ exists buffer,
       decodeAudioData [x01; x00] wide_ctx 8000 1 = Ok buffer
       /\ buf_length buffer = 1%nat.
Proof.
  assert (H1 : Nat.modulo (List.length [x01; x00; x02]) 2 <> 0%nat) by discriminate.
  assert (H2 : Nat.modulo (List.length [x01; x00]) 2 = 0%nat) by reflexivity.
  assert (H3 : (List.length [x01; x00] / 2 < 2)%nat) by (cbn; lia).
  assert (H5 : (1 <= 1 <= 32)%nat) by lia.
  assert (H6 : (8000 <= 8000 <= 96000)%Z) by lia.
  assert (H7 : (1 <= List.length [x01; x00] / 2)%nat) by (cbn; lia).
  assert (H8 : (Z.of_nat (List.length [x01; x00]) < 2 ^ 32)%Z) by reflexivity.
  destruct (proj2 (proj2 (decodeAudioData_rejects [x01; x00] wide_ctx 8000 1))
              H2 H5 H6 H7 H8) as (buffer & E & _ & El & _).
  exact (conj H1
           (conj (proj1 (decodeAudioData_rejects _ playback_ctx 24000 2) H1)
              (conj H2
                 (conj H3
                    (conj (proj1 (proj2 (decodeAudioData_rejects _ playback_ctx 24000 2)) H2
                             (or_intror (or_introl H3)))
                       (ex_intro _ buffer (conj E El))))))).
Defined.

Lemma div32768_within_unit (v : Z) :
  (-32768 <= v < 32768)%Z ->
  is_finite_sample (div32768 v) = true /\ -1 <= SF2Q (div32768 v) < 1.
Proof.
  intros [Hlo Hhi]. split; [destruct v; reflexivity|].
  rewrite SF2Q_div32768.
  assert (inject_Z (-32768) <= inject_Z v) as H1 by (rewrite <- Zle_Qle; lia).
  assert (inject_Z v < inject_Z 32768) as H2 by (rewrite <- Zlt_Qlt; lia).
  change (inject_Z (-32768)) with (-32768 # 1) in H1.
  change (inject_Z 32768) with (32768 # 1) in H2.
  split; lra.
Qed.

(** X11.  Every sample of a decoded buffer is a number in [-1, 1): no read
    past the end of the data reaches the buffer as NaN, and full scale
    positive is never produced. *)
Theorem decodeAudioData_samples_within_unit (bytes : Uint8Array) (ctx : AudioContext)
    (sampleRate : Z) (numChannels : nat) (a : Int16Array) (buffer : AudioBuffer) :
  Int16Array_of_buffer bytes = Ok a ->
  (1 <= numChannels <= 32)%nat ->
  (8000 <= sampleRate <= 96000)%Z ->
  (1 <= List.length a / numChannels)%nat ->
  (Z.of_nat (List.length a / numChannels) < 2 ^ 32)%Z ->
  decodeAudioData bytes ctx sampleRate numChannels = Ok buffer ->
  Forall (Forall (fun x => is_finite_sample x = true /\ -1 <= SF2Q x < 1))
    (channelData buffer)
  /\ Forall (fun channel => List.length channel = buf_length buffer)
       (channelData buffer).
Proof.
  intros Ha Hnc Hrate HF Hlen E.
  rewrite (decodeAudioData_eval bytes ctx sampleRate numChannels a Ha Hnc Hrate HF Hlen) in E.
  injection E as <-. cbn [channelData buf_length].
  pose proof (Int16Array_of_buffer_range bytes a Ha) as Hr.
  rewrite Forall_forall in Hr.
  split; apply Forall_map, Forall_forall; intros c Hc; apply in_seq in Hc.
  - unfold deinterleave. apply Forall_map, Forall_forall. intros i Hi.
    apply in_seq in Hi.
    pose proof (frame_index_in_range (List.length a) numChannels c i) as Hidx.
    unfold sample_at.
    destruct (nth_error a (i * numChannels + c)) as [v|] eqn:Ev;
      [|apply nth_error_None in Ev; lia].
    apply div32768_within_unit, Hr. eapply nth_error_In, Ev.
  - unfold deinterleave. now rewrite length_map, length_seq.
Qed.

Lemma decodeAudioData_samples_within_unit_witness :
  decodeAudioData [x00; x80; xff; x7f] playback_ctx 24000 1
  = Ok {| numberOfChannels := 1; buf_length := 2; buf_sampleRate := 24000;
          channelData := [[div32768 (-32768); div32768 32767]] |}
  /\ Forall (Forall (fun x => is_finite_sample x = true /\ -1 <= SF2Q x < 1))
       [[div32768 (-32768); div32768 32767]].
Proof.
  assert (E : decodeAudioData [x00; x80; xff; x7f] playback_ctx 24000 1
              = Ok {| numberOfChannels := 1; buf_length := 2; buf_sampleRate := 24000;
                      channelData := [[div32768 (-32768); div32768 32767]] |})
    by (vm_compute; reflexivity).
  assert (H1 : Int16Array_of_buffer [x00; x80; xff; x7f] = Ok [-32768; 32767]%Z)
    by reflexivity.
  assert (H2 : (1 <= 1 <= 32)%nat) by lia.
  assert (H3 : (8000 <= 24000 <= 96000)%Z) by lia.
  assert (H4 : (1 <= List.length [-32768; 32767]%Z / 1)%nat) by (cbn; lia).
  assert (H5 : (Z.of_nat (List.length [-32768; 32767]%Z / 1) < 2 ^ 32)%Z) by reflexivity.
  exact (conj E
           (proj1 (decodeAudioData_samples_within_unit _ playback_ctx 24000 1 _ _
                     H1 H2 H3 H4 H5 E))).
Defined.

(** ** The session handlers *)

Lemma inbound_chunk_decodes (s : App) (m : LiveServerMessage) (ctx : AudioContext)
    (base64Audio : string) (bytes : Uint8Array) :
  outputAudioContextRef s = Some ctx ->
  base64Audio_of m = Ok (Some base64Audio) ->
  base64Audio <> EmptyString ->
  decode base64Audio = Ok bytes ->
  Nat.modulo (List.length bytes) 2 = 0%nat ->
  bytes <> [] ->
  (Z.of_nat (List.length bytes) < 2 ^ 33)%Z ->
  exists buf,
    chunk_of s m = Ok (Some buf)
    /\ duration buf == Z.of_nat (List.length bytes) # 48000.
Proof.
  intros Hctx Hb Hne Hd Heven Hnil Hlen.
  destruct (Int16Array_of_buffer_even bytes Heven) as (a & Ha & Hla).
  assert (a <> []) as Hane by (destruct a; [destruct bytes; [congruence | discriminate] | discriminate]).
  assert (Z.of_nat (List.length a) < 2 ^ 32)%Z as Hlen' by lia.
  eexists. split.
  - unfold chunk_of. rewrite Hb. cbn [rbind].
    assert (truthy_string (Some base64Audio) = Some base64Audio) as ->
      by (destruct base64Audio; [congruence | reflexivity]).
    rewrite Hctx, Hd. cbn [rbind].
    rewrite (decodeAudioData_mono bytes ctx a Ha Hane Hlen'). reflexivity.
  - unfold duration, Qeq. cbn. lia.
Qed.

(** X12.  A well-formed inbound chunk of n bytes (n even, not 0) is played
    for n/48000 seconds: in a reachable state with a playback device the
    handler returns, starts exactly one source at the larger of the cursor
    and the device clock, and moves the cursor on by the duration. *)
Theorem inbound_chunk_plays_for_its_length
    (s : App) (cl : Closure) (m : LiveServerMessage) (ctx : AudioContext)
    (base64Audio : string) (bytes : Uint8Array) :
  reachable s ->
  outputAudioContextRef s = Some ctx ->
  base64Audio_of m = Ok (Some base64Audio) ->
  base64Audio <> EmptyString ->
  decode base64Audio = Ok bytes ->
  Nat.modulo (List.length bytes) 2 = 0%nat ->
  bytes <> [] ->
  (Z.of_nat (List.length bytes) < 2 ^ 33)%Z ->
  interrupted_of m = false ->
  outcome_of (onmessage cl m s) = Ok tt
  /\ exists dur,
       dur == Z.of_nat (List.length bytes) # 48000
       /\ trace_of (onmessage cl m s)
          = [ SourceStart (nextObjectId s)
                (Qmax (nextStartTimeRef s) (currentTime ctx)) dur ]
       /\ nextStartTimeRef (state_of (onmessage cl m s))
          = Qmax (nextStartTimeRef s) (currentTime ctx) + dur.
Proof.
  intros Hr Hctx Hb Hne Hd Heven Hnil Hlen Hi.
  destruct (inbound_chunk_decodes s m ctx base64Audio bytes Hctx Hb Hne Hd Heven Hnil Hlen)
    as (buf & Hc & Hdur).
  destruct (onmessage_chunk cl m s buf (reachable_Inv s Hr) Hc) as (ctx' & Hctx' & E).
  assert (ctx' = ctx) as -> by congruence.
  cbn zeta in E. unfold after_interrupted in E. rewrite Hi in E. rewrite E.
  split; [reflexivity|]. exists (duration buf). repeat split. exact Hdur.
Qed.

Lemma inbound_chunk_plays_for_its_length_witness :
  reachable playing
  /\ decode "AIAAQACA" = Ok [x00; x80; x00; x40; x00; x80]
  /\ outcome_of (onmessage first_closure (audio_chunk "AIAAQACA") playing) = Ok tt.
Proof.
  assert (H1 : outputAudioContextRef playing
               = Some {| ctx_id := 0; ctx_sampleRate := 24000; currentTime := 0 + 5;
               ctx_limits := required |})
    by (vm_compute; reflexivity).
  assert (H2 : "AIAAQACA"%string <> EmptyString) by discriminate.
  assert (H3 : decode "AIAAQACA" = Ok [x00; x80; x00; x40; x00; x80])
    by (vm_compute; reflexivity).
  assert (H4 : [x00; x80; x00; x40; x00; x80] <> []) by discriminate.
  assert (H5 : (Z.of_nat (List.length [x00; x80; x00; x40; x00; x80]) < 2 ^ 33)%Z)
    by reflexivity.
  exact (conj reachable_playing
           (conj H3
              (proj1 (inbound_chunk_plays_for_its_length playing first_closure
                        (audio_chunk "AIAAQACA") _ "AIAAQACA" _
                        reachable_playing H1 eq_refl H2 H3 eq_refl H4 H5 eq_refl)))).
Defined.

Lemma dispatch_cursor_nonneg (ev : Event) (s : App) :
  Inv s -> 0 <= nextStartTimeRef s ->
  0 <= nextStartTimeRef (state_of (dispatch ev s)).
Proof.
  intros HI H0. destruct ev; cbn [dispatch]; rewrite ?async_state.
  - exact H0.
  - rewrite handleStartCall_resume_eval by exact HI.
    destruct o as [|stream [|]]; cbn; try exact H0; apply Qle_refl.
  - unfold onopen. monad_unfold. cbn. destruct (localVideoRef s); exact H0.
  - unfold onaudioprocess. monad_unfold. destruct (sessionPromiseRef s); exact H0.
  - destruct (transcribe_refs cl message s) as (_ & _ & _ & _ & _ & _ & _ & En & _).
    destruct (chunk_of s message) as [[buf|]|e] eqn:Hc.
    + destruct (onmessage_chunk cl message s buf HI Hc) as (ctx & _ & ->).
      cbn zeta. unfold after_interrupted.
      destruct (interrupted_of message); cbn; [apply Qle_refl|].
      pose proof (Q.le_max_l (nextStartTimeRef s) (currentTime ctx)).
      pose proof (duration_nonneg buf). lra.
    + rewrite (onmessage_no_chunk cl message s HI Hc). unfold after_interrupted.
      destruct (interrupted_of message); cbn; [apply Qle_refl | now rewrite En].
    + destruct (onmessage_throw cl message s e Hc)
        as (s' & -> & [[-> _] | (ctx & _ & ->)]); cbn; rewrite ?En; [exact H0|].
      pose proof (Q.le_max_l (nextStartTimeRef s) (currentTime ctx)). lra.
  - unfold onerror, bind at 1, emit at 1, bind at 1, emit at 1.
    rewrite cleanUp_eval by apply HI. apply Qle_refl.
  - unfold onclose, bind at 1, emit at 1.
    rewrite cleanUp_eval by apply HI. apply Qle_refl.
  - unfold handleEndCall. rewrite cleanUp_eval by apply HI. apply Qle_refl.
  - unfold unmount, bind at 1, modify at 1.
    assert (HI' : Inv (set_localVideoRef false s)) by (revert HI; apply Inv_ext; reflexivity).
    rewrite cleanUp_eval by apply HI'. apply Qle_refl.
  - exact H0.
  - exact H0.
  - unfold settle, modify, state_of. cbn [fst]. now destruct (is_pending s promise).
Qed.

Lemma reachable_cursor_nonneg (s : App) : reachable s -> 0 <= nextStartTimeRef s.
Proof.
  induction 1 as [h | s ev Hr IH Ha | s Hr IH]; [apply Qle_refl | |].
  - apply dispatch_cursor_nonneg; [now apply reachable_Inv | exact IH].
  - now rewrite microtasks_eval.
Qed.

(** X13.  What holds of every reachable state: the device clock and the
    cursor are not negative; the frame timer handle, when held, is positive;
    every source of the active set has been started, and no source is in the
    set twice; the tracks of the held stream are distinct; the input and the
    output audio contexts are different objects. *)
Theorem reachable_states_are_well_formed (s : App) :
  reachable s ->
  (forall c, outputAudioContextRef s = Some c -> 0 <= currentTime c)
  /\ 0 <= nextStartTimeRef s
  /\ (forall z, frameIntervalRef s = Some z -> (0 < z)%Z)
  /\ Forall (fun n => startedAt n <> None) (audioSourcesRef s)
  /\ NoDup (map node_id (audioSourcesRef s))
  /\ (forall st, localStreamRef s = Some st -> NoDup (tracks st))
  /\ (forall c d, inputAudioContextRef s = Some c -> outputAudioContextRef s = Some d ->
        ctx_id c <> ctx_id d).
Proof.
  intros Hr. destruct (reachable_Inv s Hr) as [H1 H2 H3 H4 H5 H6 H7 H8 H9].
  repeat split; try assumption. now apply reachable_cursor_nonneg.
Qed.

Lemma reachable_states_are_well_formed_witness :
  reachable playing
  /\ 0 <= nextStartTimeRef playing
  /\ NoDup (map node_id (audioSourcesRef playing)).
Proof.
  destruct (reachable_states_are_well_formed playing reachable_playing)
    as (_ & H2 & _ & _ & H5 & _).
  exact (conj reachable_playing (conj H2 H5)).
Defined.

(** X14.  In a reachable state [onmessage] fails only on what the message
    carries: it throws exactly when the audio part does not decode (or the
    model turn has no parts), with that error; starting and stopping sources
    never throws. *)
Theorem onmessage_fails_only_on_its_chunk
    (s : App) (cl : Closure) (m : LiveServerMessage) :
  reachable s ->
  outcome_of (onmessage cl m s)
  = match chunk_of s m with
    | Ok _ => Ok tt
    | Throw e => Throw e
    end.
Proof.
  intros Hr. pose proof (reachable_Inv s Hr) as HI.
  destruct (chunk_of s m) as [[buf|]|e] eqn:Hc.
  - destruct (onmessage_chunk cl m s buf HI Hc) as (ctx & _ & ->).
    cbn zeta. unfold after_interrupted. destruct (interrupted_of m); reflexivity.
  - rewrite (onmessage_no_chunk cl m s HI Hc).
    unfold after_interrupted. destruct (interrupted_of m); reflexivity.
  - destruct (onmessage_throw cl m s e Hc) as (s' & -> & _). reflexivity.
Qed.

Lemma onmessage_fails_only_on_its_chunk_witness :
  reachable playing
  /\ outcome_of (onmessage first_closure interruption_with_bad_chunk playing)
     = match chunk_of playing interruption_with_bad_chunk with
       | Ok _ => Ok tt
       | Throw e => Throw e
       end.
Proof.
  exact (conj reachable_playing
           (onmessage_fails_only_on_its_chunk playing first_closure
              interruption_with_bad_chunk reachable_playing)).
Defined.

(** X15.  An interruption signal that arrives in the same message as a chunk
    that does not decode is not acted on: the handler throws before it
    reaches the signal, no source is stopped, the active set stays as it was
    and the cursor is not reset. *)
Theorem interruption_is_lost_with_a_bad_chunk
    (s : App) (cl : Closure) (m : LiveServerMessage) (e : JsError) :
  interrupted_of m = true ->
  chunk_of s m = Throw e ->
  outcome_of (onmessage cl m s) = Throw e
  /\ trace_of (onmessage cl m s) = []
  /\ audioSourcesRef (state_of (onmessage cl m s)) = audioSourcesRef s
  /\ nextStartTimeRef s <= nextStartTimeRef (state_of (onmessage cl m s)).
Proof.
  intros _ Hc.
  destruct (transcribe_refs cl m s) as (_ & _ & _ & _ & _ & _ & Es & En & _).
  destruct (onmessage_throw cl m s e Hc) as (s' & -> & [[-> _] | (ctx & _ & ->)]);
    cbn; rewrite ?Es, ?En; repeat split; try apply Qle_refl.
  apply Q.le_max_l.
Qed.

Lemma interruption_is_lost_with_a_bad_chunk_witness :
  interrupted_of interruption_with_bad_chunk = true
  /\ chunk_of playing interruption_with_bad_chunk = Throw RangeError
  /\ audioSourcesRef (state_of (onmessage first_closure interruption_with_bad_chunk playing))
     = audioSourcesRef playing.
Proof.
  assert (H : chunk_of playing interruption_with_bad_chunk = Throw RangeError)
    by (vm_compute; reflexivity).
  destruct (interruption_is_lost_with_a_bad_chunk playing first_closure
              interruption_with_bad_chunk RangeError eq_refl H) as (_ & _ & H3 & _).
  exact (conj eq_refl (conj H H3)).
Defined.

(** X16.  A start that fails, because the media request is rejected or
    because the output audio context cannot be made, alerts the user once and
    tears everything down on the spot: the devices the refs hold at that
    moment, the tracks of a stream just obtained among them, are released,
    and a session promise in the ref gets its closing reaction; afterwards
    nothing is held and the component is neither connecting nor in a call.
    A start comes after the first render or after a teardown, when the ref
    holds no promise: then what is released is all that is held, and no
    reaction is added. *)
Theorem failed_start_alerts_and_tears_down (s : App) (o : MediaOutcome) :
  reachable s ->
  admissible (EvUserMedia o) ->
  (o = MediaRejected \/ exists stream, o = MediaGranted stream false) ->
  outcome_of (handleStartCall_resume o s) = Ok tt
  /\ filter is_alert (trace_of (handleStartCall_resume o s))
     = [ Alert "Could not access camera and microphone. Please check your permissions and try again." ]
  /\ filter is_release (trace_of (handleStartCall_resume o s))
     = held_devices (at_failure o s)
  /\ NoDup (held_devices (at_failure o s))
  /\ closing (state_of (handleStartCall_resume o s)) = to_close s
  /\ (sessionPromiseRef s = None ->
        filter is_release (trace_of (handleStartCall_resume o s))
        = held_resources (at_failure o s)
        /\ NoDup (held_resources (at_failure o s))
        /\ closing (state_of (handleStartCall_resume o s)) = closing s)
  /\ held_resources (state_of (handleStartCall_resume o s)) = []
  /\ isConnecting (state_of (handleStartCall_resume o s)) = false
  /\ isCallActive (state_of (handleStartCall_resume o s)) = false.
Proof.
  intros Hr Ha Ho. pose proof (reachable_Inv s Hr) as HI.
  rewrite handleStartCall_resume_eval by exact HI.
  assert (HI' : Inv (at_failure o s)).
  { destruct o as [|stream ok]; [exact HI|]. cbn [at_failure].
    destruct HI as [H1 H2 H3 H4 H5 H6 H7 H8 H9].
    constructor; cbn; try assumption. intros st [= <-]. exact Ha. }
  assert (Href : sessionPromiseRef (at_failure o s) = sessionPromiseRef s)
    by (destruct o; reflexivity).
  pose proof (NoDup_held_devices _ HI') as Hnd.
  destruct Ho as [-> | (stream & ->)];
    cbn [outcome_of trace_of state_of fst snd at_failure app filter is_alert is_release] in *;
    rewrite held_devices_no_alert, held_devices_are_releases;
    (split; [reflexivity|]); (split; [reflexivity|]); (split; [reflexivity|]);
    (split; [exact Hnd|]); (split; [reflexivity|]);
    (split; [|repeat split]);
    intros Hnone;
    (rewrite held_resources_without_session by (rewrite <- Hnone; exact Href));
    (split; [reflexivity|]); (split; [exact Hnd|]);
    change (closing (cleaned s)) with (to_close s); unfold to_close; now rewrite Hnone.
Qed.

Lemma failed_start_alerts_and_tears_down_witness :
  reachable (fst (run [EvStartCall] initial))
  /\ admissible (EvUserMedia (MediaGranted {| tracks := [8%nat; 9%nat] |} false))
  /\ sessionPromiseRef (fst (run [EvStartCall] initial)) = None
  /\ filter is_release
       (trace_of (handleStartCall_resume
                    (MediaGranted {| tracks := [8%nat; 9%nat] |} false)
                    (fst (run [EvStartCall] initial))))
     = [ TrackStop 8; TrackStop 9 ]
  /\ isConnecting (fst (run [EvStartCall] initial)) = true
  /\ isConnecting (state_of (handleStartCall_resume
                               (MediaGranted {| tracks := [8%nat; 9%nat] |} false)
                               (fst (run [EvStartCall] initial)))) = false.
Proof.
  assert (Hr : reachable (fst (run [EvStartCall] initial))).
  { apply reachable_run; [apply (reach_initial required) | repeat constructor]. }
  assert (Ha : admissible (EvUserMedia (MediaGranted {| tracks := [8%nat; 9%nat] |} false))).
  { cbn. repeat constructor; cbn; [intros [H|[]]; discriminate | intros []]. }
  assert (Hn : sessionPromiseRef (fst (run [EvStartCall] initial)) = None)
    by reflexivity.
  destruct (failed_start_alerts_and_tears_down (fst (run [EvStartCall] initial))
              (MediaGranted {| tracks := [8%nat; 9%nat] |} false)
              Hr Ha
              (or_intror (ex_intro _ {| tracks := [8%nat; 9%nat] |} eq_refl)))
    as (_ & _ & _ & _ & _ & H6 & _ & H8 & _).
  destruct (H6 Hn) as (H3 & _).
  split; [exact Hr|]. split; [exact Ha|]. split; [exact Hn|].
  split; [|split; [reflexivity | exact H8]].
  rewrite H3. vm_compute. reflexivity.
Defined.

(** ** The transcript *)

(** X17.  What a turn-complete signal does, in every state and however the
    audio part of the same message goes: exactly two turns are appended, the
    user's and then the model's, and both pending buffers are emptied.  The
    text of each turn is the value the handler's closure holds for that
    speaker followed by the fragment of the same event; the pending buffer
    of the state does not enter it. *)
Theorem turn_complete_finalizes_from_the_closure
    (cl : Closure) (m : LiveServerMessage) (s : App) :
  turnComplete_of m = true ->
  transcripts (state_of (onmessage cl m s))
  = transcripts s
    ++ [ {| speaker := user;
            text := String.append (cl_currentInputTranscription cl)
                      (or_empty (text_of (inputTranscription_of m))) |};
         {| speaker := model;
            text := String.append (cl_currentOutputTranscription cl)
                      (or_empty (text_of (outputTranscription_of m))) |} ]
  /\ currentInputTranscription (state_of (onmessage cl m s)) = EmptyString
  /\ currentOutputTranscription (state_of (onmessage cl m s)) = EmptyString.
Proof.
  intros H. destruct (onmessage_react cl m s) as (-> & -> & ->).
  unfold transcribe. rewrite H.
  destruct (inputTranscription_of m), (outputTranscription_of m); repeat split.
Qed.

Lemma turn_complete_finalizes_from_the_closure_witness :
  turnComplete_of (turn_complete_with_user "llo") = true
  /\ transcripts (state_of (onmessage {| cl_currentInputTranscription := "he";
                                         cl_currentOutputTranscription := "Hi" |}
                              (turn_complete_with_user "llo") playing))
     = [ {| speaker := user; text := "hello" |};
         {| speaker := model; text := "Hi" |} ].
Proof.
  split; [reflexivity|].
  rewrite (proj1 (turn_complete_finalizes_from_the_closure
                    {| cl_currentInputTranscription := "he";
                       cl_currentOutputTranscription := "Hi" |}
                    (turn_complete_with_user "llo") playing eq_refl)).
  vm_compute. reflexivity.
Defined.

Lemma run_user_fragments (cl : Closure) (ts : list string) (s : App) :
  currentInputTranscription (fst (run (user_fragments cl ts) s))
  = String.append (currentInputTranscription s) (String.concat EmptyString ts)
  /\ currentOutputTranscription (fst (run (user_fragments cl ts) s))
     = currentOutputTranscription s
  /\ transcripts (fst (run (user_fragments cl ts) s)) = transcripts s.
Proof.
  revert s. induction ts as [|t ts IH]; intros s.
  - cbn. now rewrite append_empty.
  - cbn [user_fragments map run dispatch]. fold (user_fragments cl ts).
    destruct (onmessage_react cl (fragment_user t) s) as (E1 & E2 & E3).
    rewrite <- (async_state (onmessage cl (fragment_user t))) in E1, E2, E3.
    destruct (async (onmessage cl (fragment_user t)) s) as [[s1 t1] r].
    cbn [state_of fst] in E1, E2, E3. rewrite microtasks_eval.
    destruct (IH (set_closing (filter (is_pending s1) (closing s1)) s1))
      as (I1 & I2 & I3).
    destruct (run (user_fragments cl ts) _) as [s2 t2]. cbn [fst] in *.
    rewrite I1, I2, I3.
    cbn [set_closing currentInputTranscription currentOutputTranscription transcripts].
    rewrite E1, E2, E3. cbn [transcribe]. repeat split.
    cbn. rewrite append_assoc. f_equal.
    destruct ts as [|t' ts']; cbn; [now rewrite append_empty | reflexivity].
Qed.

(** X18.  Fragments are deltas: after any number of user fragment events the
    user's pending buffer is what it was followed by the texts in arrival
    order; the model's buffer and the turn history are untouched. *)
Theorem user_fragments_accumulate (cl : Closure) (ts : list string) (s : App) :
  currentInputTranscription (fst (run (user_fragments cl ts) s))
  = String.append (currentInputTranscription s) (String.concat EmptyString ts)
  /\ currentOutputTranscription (fst (run (user_fragments cl ts) s))
     = currentOutputTranscription s
  /\ transcripts (fst (run (user_fragments cl ts) s)) = transcripts s.
Proof. apply run_user_fragments. Qed.

(** X19.  Pending text survives teardown and leaks into the next call.
    Teardown keeps the turn history and the pending buffers; the next start
    empties them in the state, but its closure has already taken the old
    pending texts, and every turn finalized in that call begins with them. *)
Theorem pending_text_prefixes_the_next_call (s : App) :
  reachable s ->
  transcripts (state_of (cleanUp s)) = transcripts s
  /\ currentInputTranscription (state_of (cleanUp s)) = currentInputTranscription s
  /\ currentInputTranscription
       (state_of (handleStartCall_begin (state_of (cleanUp s)))) = EmptyString
  /\ transcripts (state_of (handleStartCall_begin (state_of (cleanUp s)))) = []
  /\ exists cl,
       outcome_of (handleStartCall_begin (state_of (cleanUp s))) = Ok cl
       /\ cl_currentInputTranscription cl = currentInputTranscription s
       /\ cl_currentOutputTranscription cl = currentOutputTranscription s
       /\ forall t m,
            turnComplete_of m = true ->
            transcripts (state_of (onmessage cl m t))
            = transcripts t
              ++ [ {| speaker := user;
                      text := String.append (currentInputTranscription s)
                                (or_empty (text_of (inputTranscription_of m))) |};
                   {| speaker := model;
                      text := String.append (currentOutputTranscription s)
                                (or_empty (text_of (outputTranscription_of m))) |} ].
Proof.
  intros Hr. rewrite (cleanUp_state s (reachable_Inv s Hr)).
  repeat split.
  exists {| cl_currentInputTranscription := currentInputTranscription s;
            cl_currentOutputTranscription := currentOutputTranscription s |}.
  split; [reflexivity|]. repeat split.
  intros t m H.
  destruct (onmessage_react
              {| cl_currentInputTranscription := currentInputTranscription s;
                 cl_currentOutputTranscription := currentOutputTranscription s |}
              m t) as (-> & _ & _).
  unfold transcribe. rewrite H.
  destruct (inputTranscription_of m), (outputTranscription_of m); reflexivity.
Qed.

Lemma pending_text_prefixes_the_next_call_witness :
  reachable (fst (run (call_opened ++ [EvMessage first_closure (fragment_user "he")])
                    initial))
  /\ currentInputTranscription
       (state_of (cleanUp (fst (run (call_opened
                                      ++ [EvMessage first_closure (fragment_user "he")])
                                 initial)))) = "he".
Proof.
  assert (Hr : reachable (fst (run (call_opened
                                      ++ [EvMessage first_closure (fragment_user "he")])
                                 initial))).
  { apply reachable_run; [apply (reach_initial required)|].
    repeat constructor; cbn; [intros [H|[]]; discriminate | intros []]. }
  split; [exact Hr|].
  rewrite (proj1 (proj2 (pending_text_prefixes_the_next_call _ Hr))).
  vm_compute. reflexivity.
Defined.

(** ** Sources that end, and the ways out of a call *)

Lemma set_delete_length (n : AudioBufferSourceNode) (l : list AudioBufferSourceNode) :
  NoDup (map node_id l) -> In n l ->
  (List.length (set_delete (node_id n) l) + 1 = List.length l)%nat.
Proof.
  unfold set_delete. induction l as [|x l IH]; intros Hnd Hin; [destruct Hin|].
  cbn [map] in Hnd. apply NoDup_cons_iff in Hnd as [Hx Hl]. cbn [filter].
  destruct Hin as [->|Hin].
  - rewrite Nat.eqb_refl. cbn [negb List.length].
    rewrite filter_true; [lia|].
    intros y Hy. apply negb_true_iff, Nat.eqb_neq. intros E.
    apply Hx. rewrite <- E. now apply in_map.
  - assert (node_id x <> node_id n) as Hne.
    { intros E. apply Hx. rewrite E. now apply in_map. }
    apply Nat.eqb_neq in Hne. rewrite Hne. cbn [negb List.length].
    specialize (IH Hl Hin). lia.
Qed.

Lemma set_delete_idempotent (id : nat) (l : list AudioBufferSourceNode) :
  set_delete id (set_delete id l) = set_delete id l.
Proof.
  unfold set_delete. apply filter_true. intros y Hy.
  apply filter_In in Hy. tauto.
Qed.

(** X20.  When a source ends it leaves the active set and nothing else
    changes: the other sources stay, in order; exactly one entry goes when
    the source was in the set and none otherwise; no effect is performed, the
    cursor stays; a second [ended] event for the same source does nothing. *)
Theorem ended_source_leaves_the_active_set (s : App) (id : nat) :
  reachable s ->
  trace_of (onended id s) = []
  /\ outcome_of (onended id s) = Ok tt
  /\ nextStartTimeRef (state_of (onended id s)) = nextStartTimeRef s
  /\ audioSourcesRef (state_of (onended id s))
     = filter (fun n => negb (Nat.eqb (node_id n) id)) (audioSourcesRef s)
  /\ (forall n, In n (audioSourcesRef (state_of (onended id s)))
                <-> In n (audioSourcesRef s) /\ node_id n <> id)
  /\ (forall n, In n (audioSourcesRef s) -> node_id n = id ->
        (List.length (audioSourcesRef (state_of (onended id s))) + 1
         = List.length (audioSourcesRef s))%nat)
  /\ state_of (onended id (state_of (onended id s))) = state_of (onended id s).
Proof.
  intros Hr. pose proof (reachable_Inv s Hr) as HI.
  split; [reflexivity|]. split; [reflexivity|]. split; [reflexivity|].
  split; [reflexivity|]. split; [|split].
  - intros n. cbn. unfold set_delete. rewrite filter_In, negb_true_iff, Nat.eqb_neq.
    reflexivity.
  - intros n Hn <-. cbn. apply set_delete_length; [apply HI | exact Hn].
  - unfold onended, modify, state_of, set_audioSourcesRef. cbn -[set_delete].
    now rewrite set_delete_idempotent.
Qed.

Lemma ended_source_leaves_the_active_set_witness :
  reachable playing
  /\ audioSourcesRef (state_of (onended 4 playing)) = []
  /\ List.length (audioSourcesRef playing) = 1%nat.
Proof.
  destruct (ended_source_leaves_the_active_set playing 4 reachable_playing)
    as (_ & _ & _ & H4 & _).
  split; [exact reachable_playing|]. split; [|vm_compute; reflexivity].
  rewrite H4. vm_compute. reflexivity.
Defined.

(** X21.  Every way out of a call ends in the same teardown.  A channel
    error, a channel close, the end-call button and the unmount of the
    component leave the state of one [cleanUp] (unmount also detaches the
    video element) and release exactly the devices held.  None of them
    closes the session while it runs: the promise of the ref is handed to a
    closing reaction and the ref is emptied.  Only the error path alerts the
    user, with the message of the error. *)
Theorem every_exit_tears_down_alike (s : App) (msg : string) :
  reachable s ->
  state_of (onerror msg s) = state_of (cleanUp s)
  /\ state_of (onclose s) = state_of (cleanUp s)
  /\ state_of (handleEndCall s) = state_of (cleanUp s)
  /\ state_of (unmount s) = set_localVideoRef false (state_of (cleanUp s))
  /\ filter is_release (trace_of (onerror msg s)) = held_devices s
  /\ filter is_release (trace_of (onclose s)) = held_devices s
  /\ filter is_release (trace_of (handleEndCall s)) = held_devices s
  /\ filter is_release (trace_of (unmount s)) = held_devices s
  /\ closing (state_of (cleanUp s)) = to_close s
  /\ sessionPromiseRef (state_of (cleanUp s)) = None
  /\ filter is_alert (trace_of (onerror msg s))
     = [ Alert (String.append "An error occurred: "
                  (String.append msg ". Please try again.")) ]
  /\ filter is_alert (trace_of (onclose s)) = []
  /\ filter is_alert (trace_of (handleEndCall s)) = []
  /\ filter is_alert (trace_of (unmount s)) = [].
Proof.
  intros Hr. pose proof (reachable_Inv s Hr) as HI.
  assert (HI' : Inv (set_localVideoRef false s)) by (revert HI; apply Inv_ext; reflexivity).
  pose proof (cleanUp_eval s (inv_timer s HI) (inv_started s HI)) as E.
  pose proof (cleanUp_eval _ (inv_timer _ HI') (inv_started _ HI')) as E'.
  unfold handleEndCall.
  unfold onerror, bind at 1, emit at 1, bind at 1, emit at 1.
  unfold onerror, bind at 1, emit at 1, bind at 1, emit at 1.
  unfold onerror, bind at 1, emit at 1, bind at 1, emit at 1.
  unfold onclose, bind at 1, emit at 1.
  unfold onclose, bind at 1, emit at 1.
  unfold onclose, bind at 1, emit at 1.
  unfold unmount, bind at 1, modify at 1.
  unfold unmount, bind at 1, modify at 1.
  unfold unmount, bind at 1, modify at 1.
  rewrite E, E'.
  cbn [state_of trace_of fst snd app filter is_release is_alert].
  change (held_devices (set_localVideoRef false s)) with (held_devices s).
  rewrite !held_devices_are_releases, !held_devices_no_alert.
  repeat split.
Qed.

Lemma every_exit_tears_down_alike_witness :
  reachable playing
  /\ state_of (onclose playing) = state_of (cleanUp playing)
  /\ filter is_release (trace_of (onclose playing))
     = [ TrackStop 0; TrackStop 1; ClearInterval 7;
         ProcessorDisconnect 3; ContextClose 2; ContextClose 0; SourceStop 4 ]
  /\ closing (state_of (cleanUp playing)) = [1%nat]
  /\ filter is_alert (trace_of (onerror "timeout" playing))
     = [ Alert "An error occurred: timeout. Please try again." ].
Proof.
  destruct (every_exit_tears_down_alike playing "timeout" reachable_playing)
    as (_ & H2 & _ & _ & _ & H6 & _ & _ & H9 & _ & H11 & _).
  split; [exact reachable_playing|]. split; [exact H2|].
  split; [rewrite H6; vm_compute; reflexivity|].
  split; [rewrite H9; vm_compute; reflexivity | exact H11].
Defined.

(** X26.  A session is closed by the reaction that teardown hangs on the
    connect promise, and by nothing else.  No handler closes a session while
    it runs; and in every run from a reachable state, however many teardowns
    it holds and whenever the promise settles, a session is closed at most
    once. *)
Theorem session_is_closed_at_most_once (s : App) (evs : list Event) (p : nat) :
  reachable s ->
  Forall admissible evs ->
  (forall ev, filter is_close (trace_of (dispatch ev s)) = [])
  /\ (List.length (filter (closes p) (snd (run evs s))) <= 1)%nat.
Proof.
  intros Hr Ha. split.
  - intros ev. apply dispatch_no_close. now apply reachable_Inv.
  - apply run_closes_at_most_once;
      [now apply reachable_Inv | now apply reachable_PromiseInv | exact Ha].
Qed.

Lemma session_is_closed_at_most_once_witness :
  reachable playing
  /\ Forall admissible [EvError "timeout"; EvClose; EvEndCall; EvUnmount]
  /\ filter is_close
       (snd (run [EvError "timeout"; EvClose; EvEndCall; EvUnmount] playing))
     = [SessionClose 1]
  /\ (List.length
        (filter (closes 1)
           (snd (run [EvError "timeout"; EvClose; EvEndCall; EvUnmount] playing)))
      <= 1)%nat.
Proof.
  assert (Ha : Forall admissible [EvError "timeout"; EvClose; EvEndCall; EvUnmount])
    by (repeat constructor).
  split; [exact reachable_playing|]. split; [exact Ha|].
  split; [vm_compute; reflexivity|].
  exact (proj2 (session_is_closed_at_most_once playing _ 1 reachable_playing Ha)).
Defined.

(** X22.  After teardown inbound audio is ignored: whatever a later message
    carries, no source is started, the active set stays empty and the cursor
    stays at 0; the message can still throw only for a model turn without
    parts. *)
Theorem audio_after_teardown_is_ignored
    (s : App) (cl : Closure) (m : LiveServerMessage) :
  reachable s ->
  scheduled (trace_of (onmessage cl m (state_of (cleanUp s)))) = []
  /\ trace_of (onmessage cl m (state_of (cleanUp s))) = []
  /\ audioSourcesRef (state_of (onmessage cl m (state_of (cleanUp s)))) = []
  /\ nextStartTimeRef (state_of (onmessage cl m (state_of (cleanUp s)))) = 0
  /\ outcome_of (onmessage cl m (state_of (cleanUp s)))
     = match base64Audio_of m with
       | Ok _ => Ok tt
       | Throw e => Throw e
       end.
Proof.
  intros Hr. rewrite (cleanUp_state s (reachable_Inv s Hr)).
  pose proof (Inv_cleaned s) as HI.
  destruct (transcribe_refs cl m (cleaned s)) as (_ & _ & _ & _ & _ & _ & Es & En & _).
  assert (Hc : chunk_of (cleaned s) m
               = match base64Audio_of m with Ok _ => Ok None | Throw e => Throw e end).
  { unfold chunk_of. destruct (base64Audio_of m) as [b|e]; [|reflexivity].
    cbn [rbind]. destruct (truthy_string b); reflexivity. }
  destruct (base64Audio_of m) as [b|e].
  - rewrite (onmessage_no_chunk cl m _ HI Hc). unfold after_interrupted.
    destruct (interrupted_of m); cbn; rewrite ?Es, ?En; repeat split.
  - destruct (onmessage_throw cl m _ e Hc) as (s' & -> & [[-> _] | (ctx & Hctx & _)]);
      [|discriminate].
    cbn. rewrite Es, En. repeat split.
Qed.

Lemma audio_after_teardown_is_ignored_witness :
  reachable playing
  /\ trace_of (onmessage first_closure (audio_chunk "AIAAQACA")
                 (state_of (cleanUp playing))) = [].
Proof.
  exact (conj reachable_playing
           (proj1 (proj2 (audio_after_teardown_is_ignored playing first_closure
                            (audio_chunk "AIAAQACA") reachable_playing)))).
Defined.

(** ** Outbound media *)



Lemma split_without_separator (s : string) :
  no_comma s -> split ","%char s = [s].
Proof.
  unfold no_comma. induction s as [|c s IH]; intros H; [reflexivity|].
  cbn [list_ascii_of_string] in H. inversion H as [|? ? Hc Hs]; subst.
  cbn [split]. rewrite Hc, (IH Hs). reflexivity.
Qed.

Lemma split_at_first_separator (a b : string) :
  no_comma a ->
  split ","%char (a ++ String ","%char b) = a :: split ","%char b.
Proof.
  unfold no_comma. induction a as [|c a IH]; intros H.
  - reflexivity.
  - cbn [list_ascii_of_string] in H. inversion H as [|? ? Hc Ha]; subst.
    cbn [String.append split]. rewrite Hc, (IH Ha). reflexivity.
Qed.

Lemma no_comma_app (a b : string) : no_comma a -> no_comma b -> no_comma (a ++ b).
Proof.
  unfold no_comma. intros Ha Hb. rewrite list_ascii_of_string_app.
  now apply Forall_app.
Qed.

Lemma encode_no_comma (bytes : Uint8Array) : no_comma (encode bytes).
Proof.
  unfold no_comma. eapply Forall_impl; [|apply encode_alphabet].
  intros c [[Hc|Hc] _].
  - destruct (Ascii.eqb c ","%char) eqn:E; [|reflexivity].
    apply Ascii.eqb_eq in E. subst c. now destruct Hc.
  - now subst c.
Qed.

(** X24.  [blobToBase64] resolves with the base64 text of the bytes of the
    blob, from which [decode] gives the bytes back, provided the media type
    of the blob has no comma (as image/jpeg has none): the text is cut out of
    the data URL at its first comma. *)
Theorem blobToBase64_is_the_base64_of_the_bytes (image : Blob) :
  no_comma (blob_type image) ->
  blobToBase64 image = Some (encode (blob_bytes image))
  /\ decode (encode (blob_bytes image)) = Ok (blob_bytes image).
Proof.
  intros H. split; [|apply decode_encode].
  unfold blobToBase64, readAsDataURL.
  change (String.append ";base64," (encode (blob_bytes image)))
    with (String.append ";base64" (String ","%char (encode (blob_bytes image)))).
  rewrite <- !append_assoc.
  rewrite split_at_first_separator.
  - now rewrite (split_without_separator _ (encode_no_comma _)).
  - apply no_comma_app; [apply no_comma_app; [|exact H]|]; repeat constructor.
Qed.

Lemma blobToBase64_is_the_base64_of_the_bytes_witness :
  no_comma "image/jpeg"
  /\ blobToBase64 {| blob_type := "image/jpeg"; blob_bytes := [xff; xd8; xff] |}
     = Some (encode [xff; xd8; xff]).
Proof.
  assert (H : no_comma "image/jpeg") by (repeat constructor).
  exact (conj H
           (proj1 (blobToBase64_is_the_base64_of_the_bytes
                     {| blob_type := "image/jpeg"; blob_bytes := [xff; xd8; xff] |} H))).
Defined.

(** With a comma in the media type the second piece of the data URL is not
    the base64 text. *)
Example blobToBase64_with_comma_in_type :
  blobToBase64 {| blob_type := "a,b"; blob_bytes := [xff] |} = Some "b;base64"%string.
Proof. reflexivity. Qed.

(** ** Starting a call *)

(** X25.  A call started from a state that holds nothing, with the video
    element mounted.  The request sets the connecting flag and empties the
    turn history; the granted media and the opened session leave the call
    active and no longer connecting, with an output context at 24 kHz and an
    input context at 16 kHz, both at time 0 and distinct, and the refs hold
    exactly: the session, the tracks of the stream, the frame timer, the
    script processor and the two contexts.  No source is scheduled and the
    cursor is untouched. *)
Theorem started_call_holds_its_resources
    (s : App) (stream : MediaStream) (timer : positive) :
  reachable s ->
  held_resources s = [] ->
  localVideoRef s = true ->
  isConnecting (state_of (handleStartCall_begin s)) = true
  /\ isConnecting (start_and_open stream timer s) = false
  /\ isCallActive (start_and_open stream timer s) = true
  /\ transcripts (start_and_open stream timer s) = []
  /\ outputAudioContextRef (start_and_open stream timer s)
     = Some {| ctx_id := nextObjectId s; ctx_sampleRate := 24000; currentTime := 0;
               ctx_limits := host s |}
  /\ inputAudioContextRef (start_and_open stream timer s)
     = Some {| ctx_id := S (S (nextObjectId s)); ctx_sampleRate := 16000;
               currentTime := 0; ctx_limits := host s |}
  /\ held_resources (start_and_open stream timer s)
     = SessionClose (S (nextObjectId s))
       :: map TrackStop (tracks stream)
       ++ [ ClearInterval (Z.pos timer);
            ProcessorDisconnect (S (S (S (nextObjectId s))));
            ContextClose (S (S (nextObjectId s)));
            ContextClose (nextObjectId s) ]
  /\ audioSourcesRef (start_and_open stream timer s) = []
  /\ nextStartTimeRef (start_and_open stream timer s) = nextStartTimeRef s.
Proof.
  intros Hr Hheld Hvideo. pose proof (reachable_Inv s Hr) as HI.
  assert (Hsrc : audioSourcesRef s = []).
  { unfold held_resources in Hheld.
    repeat (apply app_eq_nil in Hheld; destruct Hheld as [_ Hheld]).
    destruct (audioSourcesRef s); [reflexivity | discriminate]. }
  unfold start_and_open.
  assert (HI1 : Inv (state_of (handleStartCall_begin s)))
    by now apply handleStartCall_begin_Inv.
  rewrite (handleStartCall_resume_eval _ _ HI1).
  unfold onopen, handleStartCall_begin. monad_unfold. cbn.
  rewrite Hvideo. cbn. unfold held_resources. cbn. rewrite Hsrc. cbn.
  repeat split.
Qed.

Lemma started_call_holds_its_resources_witness :
  reachable initial
  /\ held_resources initial = []
  /\ localVideoRef initial = true
  /\ held_resources (start_and_open {| tracks := [0%nat; 1%nat] |} 7 initial)
     = [ SessionClose 1; TrackStop 0; TrackStop 1; ClearInterval 7;
         ProcessorDisconnect 3; ContextClose 2; ContextClose 0 ].
Proof.
  destruct (started_call_holds_its_resources initial {| tracks := [0%nat; 1%nat] |} 7
              (reach_initial required) eq_refl eq_refl)
    as (_ & _ & _ & _ & _ & _ & H7 & _).
  exact (conj (reach_initial required) (conj eq_refl (conj eq_refl H7))).
Defined.
